(** * CommandConfigurator: command resolution and parameter binding

    A shallow embedding of [commandconfigurator/mgrcmd.py] (the [Handler]
    registry, the entity parsers, [MyCommandHandler.get_command] and
    [MyCommandHandler.get_handler_params], the handlers of the alias and
    category commands) and of the entry point
    [CommandConfiguratorPlugin.cmd_cconf] of [commandconfigurator/plugin.py],
    followed by the properties of the resolution engine and of the handlers.
    [get_command] is given twice: as a function of the registered
    signatures, and as a program on a heap that holds [Handler.handlers] as
    a shared list object; the two are shown to agree.

    Conventions.  Python [str] is [string].  [str.lower] is modelled on
    strings of ASCII characters, where it maps [A]-[Z] to [a]-[z] and keeps
    every other character; the Unicode case tables that it follows on other
    characters are not modelled (see [Str.lower]).  A Python [dict] that is only
    looked up is a [gmap]; a [dict] that is iterated in insertion order is an
    association list.  A Python object that is compared by identity carries
    its identity in a field ([hid], [def_line]). *)

From Stdlib Require Import Ascii String.
From stdpp Require Import base option list gmap strings pretty.

Local Open Scope string_scope.
Local Open Scope list_scope.

(** ** Strings *)

Module Str.

(** [str.lower] on a string of ASCII characters: the letters [A]-[Z] go to
    [a]-[z] and every other character is kept.  On a character outside
    ASCII [str.lower] follows the Unicode case tables (it takes [É] to [é]
    and the Kelvin sign to [k]); these are not modelled, and [lower] keeps
    such a byte.  [lower] is therefore [str.lower] exactly on the strings
    that satisfy [is_ascii]. *)
Definition lower_ascii (c : ascii) : ascii :=
  let n := nat_of_ascii c in
  if (65 <=? n)%nat && (n <=? 90)%nat then ascii_of_nat (n + 32) else c.

Fixpoint lower (s : string) : string :=
  match s with
  | EmptyString => EmptyString
  | String c s' => String (lower_ascii c) (lower s')
  end.

(** Every character of the string is an ASCII character. *)
Fixpoint is_ascii (s : string) : bool :=
  match s with
  | EmptyString => true
  | String c s' => (nat_of_ascii c <? 128)%nat && is_ascii s'
  end.

Lemma lower_ascii_idemp c : lower_ascii (lower_ascii c) = lower_ascii c.
Proof. by destruct c as [[] [] [] [] [] [] [] []]. Qed.

Lemma lower_idemp s : lower (lower s) = lower s.
Proof. induction s as [|c s IH]; simpl; [done|]. by rewrite lower_ascii_idemp, IH. Qed.

End Str.

Abbreviation lower := Str.lower.

(** ** The application state read by the entity parsers

    [DNCoreAPI.commands()] is the command manager of the host application
    (package [dncore], outside this repository).  Only the attributes that
    [mgrcmd.py] reads are kept. *)

Record CommandEntry := {
  entry_handler : option string;
  entry_aliases : list string;
  entry_usage : option string
}.

Record CommandHandler := {
  handler_id : string;
  handler_name : option string
}.

Record PermissionGroup := {
  group_commands : list string;
  group_users : list nat;
  group_roles : list nat
}.

Record CommandCategory := {
  category_label : option string;
  category_commands : gmap string CommandEntry
}.

(** [config.categories] is iterated with [.values()], hence ordered. *)
Record CommandsConfig := {
  categories : list (string * CommandCategory);
  groups : gmap string PermissionGroup
}.

Record CommandManager := {
  cm_handlers : gmap string CommandHandler;
  config : CommandsConfig
}.

(** [d[k]] on an insertion-ordered dict with unique keys. *)
Fixpoint dict_get {V} (d : list (string * V)) (k : string) : option V :=
  match d with
  | [] => None
  | (k', v) :: d' => if String.eqb k' k then Some v else dict_get d' k
  end.

(** ** Exceptions of [errors.py] and results *)

Inductive PyType := TStr | TList | TListStr | TNoneType.

Inductive ParserKind :=
| CommandEntryArgument
| HandlerArgument
| GroupArgument
| CategoryArgument.

(** One element of [Handler.args]: a [str] instance (a literal keyword), an
    [ArgumentParser] instance, a type object, or a union of type objects
    ([str | None], [list[str] | None]). *)
Inductive ArgSpec :=
| Literal (text : string)
| Parser (p : ParserKind)
| Type_ (t : PyType)
| Union (ts : list PyType).

Global Instance PyType_eq_dec : EqDecision PyType.
Proof. solve_decision. Defined.
Global Instance ParserKind_eq_dec : EqDecision ParserKind.
Proof. solve_decision. Defined.

(** [CommandContext] of the host application, as far as it is read here. *)
Record CommandContext := {
  arguments : list string;
  prefix : string;
  execute_name : string
}.

(** Values that end up in [_args] and in the keyword arguments. *)
Inductive Value :=
| VStr (s : string)
| VArgs (l : list string)
| VEntry (name : string) (e : CommandEntry)
| VHandler (h : CommandHandler)
| VGroup (name : string) (g : PermissionGroup)
| VCategory (name : string) (c : CommandCategory)
| VNone
| VSelf
| VCtx (ctx : CommandContext).

(** A parameter of [inspect.signature(function)]: its name, whether its
    annotation is a union containing [None], and its default
    ([None] stands for [inspect.Signature.empty]). *)
Record PyParameter := {
  pname : string;
  nullable : bool;
  pdefault : option Value
}.

(** A handler coroutine function; [def_line] is the line of its [def] and
    stands for the identity of the function object. *)
Record PyFunction := {
  def_line : nat;
  parameters : list PyParameter;
  doc : option string
}.

(** An instance of [class Handler]; [hid] is the identity of the object. *)
Record Handler := {
  hid : nat;
  args : list ArgSpec;
  handler : PyFunction;
  docs : option string
}.

Inductive CommandError :=
| CommandMessageError (message : string)
| CommandNotFoundError
| CommandInfoError (command : Handler).

Inductive result (A : Type) :=
| Ok (a : A)
| Raise (e : CommandError).
Arguments Ok {A} a.
Arguments Raise {A} e.

Global Instance result_ret : MRet result := λ A a, Ok a.
Global Instance result_bind : MBind result := λ A B k r,
  match r with
  | Ok a => k a
  | Raise e => Raise e
  end.

(** ** Entity parsers (mgrcmd.py, lines 17-51) *)

Definition msg_command (name : string) : string :=
  ":grey_exclamation: コマンド `" +:+ name +:+ "` は定義されていません".
Definition msg_handler (name : string) : string :=
  ":grey_exclamation: ハンドラID `" +:+ name +:+ "` は登録されていません".
Definition msg_group (name : string) : string :=
  ":grey_exclamation: グループ `" +:+ name +:+ "` は定義されていません".
Definition msg_category (name : string) : string :=
  ":grey_exclamation: カテゴリ `" +:+ name +:+ "` は定義されていません".

(** [CommandEntryArgument.parse]: the first category, in iteration order,
    whose [commands] holds the lower-cased name. *)
Fixpoint find_entry (cats : list (string * CommandCategory)) (key : string)
  : option CommandEntry :=
  match cats with
  | [] => None
  | (_, category) :: cats' =>
      match category_commands category !! key with
      | Some e => Some e
      | None => find_entry cats' key
      end
  end.

Definition parse (api : CommandManager) (p : ParserKind) (argument : string)
  : result Value :=
  let key := lower argument in
  match p with
  | CommandEntryArgument =>
      match find_entry (categories (config api)) key with
      | Some e => Ok (VEntry key e)
      | None => Raise (CommandMessageError (msg_command key))
      end
  | HandlerArgument =>
      match cm_handlers api !! key with
      | Some h => Ok (VHandler h)
      | None => Raise (CommandMessageError (msg_handler key))
      end
  | GroupArgument =>
      match groups (config api) !! key with
      | Some g => Ok (VGroup key g)
      | None => Raise (CommandMessageError (msg_group key))
      end
  | CategoryArgument =>
      match dict_get (categories (config api)) key with
      | Some c => Ok (VCategory key c)
      | None => Raise (CommandMessageError (msg_category key))
      end
  end.

(** ** [class Handler] (mgrcmd.py, lines 54-73) *)

(** [typ is list or typ == list[str]] *)
Definition is_list_type (typ : ArgSpec) : bool :=
  match typ with
  | Type_ TList | Type_ TListStr => true
  | _ => false
  end.

Definition ignore_args_size (self : Handler) : bool :=
  match last (args self) with
  | Some typ => is_list_type typ
  | None => false
  end.

(** The decorator [@Handler(...)] applied to [func]: it stores the function and its
    docstring on the new object and appends it to the class-level list. *)
Definition Handler__call__ (id : nat) (self_args : list ArgSpec) (func : PyFunction)
    (handlers : list Handler) : list Handler :=
  handlers ++ [ {| hid := id; args := self_args; handler := func; docs := doc func |} ].

(** ** [MyCommandHandler.get_command] (mgrcmd.py, lines 80-136) *)

(** [isinstance(typ, types.UnionType) and type(None) in typing.get_args(typ)] *)
Definition is_optional (typ : ArgSpec) : bool :=
  match typ with
  | Union ts => bool_decide (TNoneType ∈ ts)
  | _ => false
  end.

(** Lines 98-99: an optional union is replaced by its first member. *)
Definition unwrap_optional (typ : ArgSpec) : ArgSpec :=
  if is_optional typ then
    match typ with
    | Union (t :: _) => Type_ t
    | _ => typ
    end
  else typ.

(** What one pass of the inner loop body does to the candidate [cmd]. *)
Inductive Action :=
| Remove              (* handlers.remove(cmd) *)
| Pass                (* no branch taken, or [continue] *)
| Append (v : Value). (* _args[cmd].append(v) *)

(** Lines 91-111, for the candidate [cmd] at token [arg] of index [idx]. *)
Definition scan_body (api : CommandManager) (arguments : list string)
    (idx : nat) (arg : string) (cmd : Handler) : result Action :=
  match args cmd !! idx with
  | None => if ignore_args_size cmd then Ok Pass else Ok Remove
  | Some typ =>
      match unwrap_optional typ with
      | Literal text =>
          if String.eqb (lower text) (lower arg) then Ok Pass else Ok Remove
      | Parser p => v ← parse api p arg; Ok (Append v)
      | Type_ TStr => Ok (Append (VStr arg))
      | Type_ TList | Type_ TListStr => Ok (Append (VArgs (drop idx arguments)))
      | _ => Ok Pass
      end
  end.

(** The two locals of the scan: the list [handlers] and the dict [_args],
    keyed by the identity of the handler object. *)
Record ScanState := {
  st_handlers : list Handler;
  st_args : gmap nat (list Value)
}.

(** [list.remove]: drops the first element that is the object [cmd]. *)
Fixpoint list_remove (cmd : Handler) (l : list Handler) : list Handler :=
  match l with
  | [] => []
  | x :: l' => if decide (hid x = hid cmd) then l' else x :: list_remove cmd l'
  end.

Definition apply_action (cmd : Handler) (a : Action) (st : ScanState) : ScanState :=
  match a with
  | Remove => {| st_handlers := list_remove cmd (st_handlers st); st_args := st_args st |}
  | Pass => st
  | Append v =>
      {| st_handlers := st_handlers st;
         st_args := alter (λ l, l ++ [v]) (hid cmd) (st_args st) |}
  end.

Definition scan_cmd (api : CommandManager) (arguments : list string)
    (idx : nat) (arg : string) (st : ScanState) (cmd : Handler) : result ScanState :=
  a ← scan_body api arguments idx arg cmd; Ok (apply_action cmd a st).

(** Line 90: [for cmd in list(handlers)], over the copy [snapshot]. *)
Fixpoint scan_position (api : CommandManager) (arguments : list string)
    (idx : nat) (arg : string) (snapshot : list Handler) (st : ScanState)
  : result ScanState :=
  match snapshot with
  | [] => Ok st
  | cmd :: snapshot' =>
      st' ← scan_cmd api arguments idx arg st cmd;
      scan_position api arguments idx arg snapshot' st'
  end.

(** Line 89: [for idx, arg in enumerate(arguments)], from index [idx] on. *)
Fixpoint scan_from (api : CommandManager) (arguments : list string)
    (idx : nat) (rest : list string) (st : ScanState) : result ScanState :=
  match rest with
  | [] => Ok st
  | arg :: rest' =>
      st' ← scan_position api arguments idx arg (st_handlers st) st;
      scan_from api arguments (S idx) rest' st'
  end.

(** Lines 86-87: [handlers = list(Handler.handlers)] and
    [_args = {hdl: [] for hdl in handlers}]. *)
Definition init_state (registry : list Handler) : ScanState :=
  {| st_handlers := registry;
     st_args := list_to_map ((λ hdl, (hid hdl, [])) <$> registry) |}.

Definition scan (api : CommandManager) (registry : list Handler)
    (arguments : list string) : result ScanState :=
  scan_from api arguments 0 arguments (init_state registry).

(** Lines 118-123: some pattern element past the input is not optional. *)
Definition missing_required (arguments : list string) (cmd : Handler) : bool :=
  existsb (λ typ, negb (is_optional typ)) (drop (length arguments) (args cmd)).

(** Lines 116-123, over the copy [snapshot]; returns [(handlers, arg_errors)]. *)
Fixpoint arity_check (arguments : list string) (snapshot handlers arg_errors : list Handler)
  : list Handler * list Handler :=
  match snapshot with
  | [] => (handlers, arg_errors)
  | cmd :: snapshot' =>
      if missing_required arguments cmd
      then arity_check arguments snapshot' (list_remove cmd handlers) (arg_errors ++ [cmd])
      else arity_check arguments snapshot' handlers arg_errors
  end.

(** Lines 81-130: the matching phase, up to the choice [cmd = handlers[0]];
    returns the chosen candidate and [_args[cmd]]. *)
Definition match_command (api : CommandManager) (registry : list Handler)
    (arguments : list string) : result (Handler * list Value) :=
  match arguments with
  | [] => Raise CommandNotFoundError
  | _ =>
      st ← scan api registry arguments;
      match st_handlers st with
      | [] => Raise CommandNotFoundError
      | _ =>
          let '(handlers, arg_errors) :=
            arity_check arguments (st_handlers st) (st_handlers st) [] in
          match handlers with
          | [] =>
              match arg_errors with
              | [cmd] => Raise (CommandInfoError cmd)
              | _ => Raise CommandNotFoundError
              end
          | cmd :: _ => Ok (cmd, default [] (st_args st !! hid cmd))
          end
      end
  end.

(** ** [MyCommandHandler.get_handler_params] (mgrcmd.py, lines 138-161) *)

Abbreviation Kwargs := (gmap string Value).

(** Lines 145-159; [None] is the re-raised [IndexError]. *)
Fixpoint bind_parameters (params : list PyParameter) (args : list Value)
    (kwargs : Kwargs) : option Kwargs :=
  match params with
  | [] => Some kwargs
  | parameter :: params' =>
      match args with
      | v :: args' => bind_parameters params' args' (<[pname parameter := v]> kwargs)
      | [] =>
          if nullable parameter
          then bind_parameters params' [] (<[pname parameter := VNone]> kwargs)
          else match pdefault parameter with
               | Some d => bind_parameters params' [] (<[pname parameter := d]> kwargs)
               | None => None
               end
      end
  end.

(** The two [parameters.pop(0)] raise [IndexError] on a function with fewer
    than two parameters. *)
Definition get_handler_params (ctx : CommandContext) (function : PyFunction)
    (args : list Value) : option Kwargs :=
  match parameters function with
  | _ :: _ :: params =>
      bind_parameters params args (<["ctx" := VCtx ctx]> (<["self" := VSelf]> ∅))
  | _ => None
  end.

Definition get_command (api : CommandManager) (registry : list Handler)
    (ctx : CommandContext) : result (PyFunction * Kwargs) :=
  '(cmd, values) ← match_command api registry (arguments ctx);
  match get_handler_params ctx (handler cmd) values with
  | Some kwargs => Ok (handler cmd, kwargs)
  | None => Raise (CommandInfoError cmd)
  end.

(** ** The registry built by the decorators (mgrcmd.py, lines 171-915)

    One entry per [@Handler(...)] in source order: the line of the decorator
    (the identity of the [Handler] object), its arguments, and the decorated
    function.  [docs] keeps the usage line of the docstring. *)

Definition param (name : string) : PyParameter :=
  {| pname := name; nullable := false; pdefault := None |}.
Definition param_opt (name : string) : PyParameter :=
  {| pname := name; nullable := true; pdefault := None |}.
Definition def (line : nat) (params : list PyParameter) (docstring : option string)
  : PyFunction :=
  {| def_line := line; parameters := params; doc := docstring |}.

Definition registrations : list (nat * list ArgSpec * PyFunction) := [
  (171, [Literal "listCommands"],
    def 172 [param "self"; param "ctx"]
      None);
  (203, [Literal "addCommand"; Type_ TStr; Union [TStr; TNoneType]; Union [TStr; TNoneType]],
    def 204 [param "self"; param "ctx"; param "name"; param_opt "handler_id"; param_opt "category"]
      (Some "{command} addCommand (コマンド名) [ハンドラID] [カテゴリ]"));
  (232, [Literal "removeCommand"; Parser CommandEntryArgument],
    def 233 [param "self"; param "ctx"; param "name"]
      (Some "{command} removeCommand (コマンド名)"));
  (255, [Literal "command"; Parser CommandEntryArgument],
    def 256 [param "self"; param "ctx"; param "name"]
      (Some "{command} command (コマンド) info"));
  (271, [Literal "command"; Parser CommandEntryArgument; Literal "info"],
    def 272 [param "self"; param "ctx"; param "name"]
      (Some "{command} command (コマンド) info"));
  (287, [Literal "command"; Parser CommandEntryArgument; Literal "setHandler"; Parser HandlerArgument],
    def 288 [param "self"; param "ctx"; param "name"; param "handler_id"]
      (Some "{command} command (コマンド) setHandler (ハンドラID)"));
  (299, [Literal "command"; Parser CommandEntryArgument; Literal "addAlias"; Type_ TListStr],
    def 300 [param "self"; param "ctx"; param "name"; param "alias"]
      (Some "{command} command (コマンド) addAlias (別名...)"));
  (327, [Literal "command"; Parser CommandEntryArgument; Literal "removeAlias"; Type_ TListStr],
    def 328 [param "self"; param "ctx"; param "name"; param "alias"]
      (Some "{command} command (コマンド) removeAlias (別名...)"));
  (352, [Literal "command"; Parser CommandEntryArgument; Literal "setUsage"; Type_ TStr],
    def 353 [param "self"; param "ctx"; param "name"; param "usage"]
      (Some "{command} command (コマンド) setUsage (使用法)"));
  (369, [Literal "command"; Parser CommandEntryArgument; Literal "resetUsage"],
    def 370 [param "self"; param "ctx"; param "name"]
      (Some "{command} command (コマンド) resetUsage"));
  (386, [Literal "command"; Parser CommandEntryArgument; Literal "setCategory"; Parser CategoryArgument],
    def 387 [param "self"; param "ctx"; param "name"; param "category"]
      (Some "{command} command (コマンド) setCategory (カテゴリ)"));
  (409, [Literal "command"; Parser CommandEntryArgument; Literal "resetCategory"],
    def 410 [param "self"; param "ctx"; param "name"]
      (Some "{command} command (コマンド) resetCategory"));
  (430, [Literal "command"; Parser CommandEntryArgument; Literal "test"; Type_ TStr],
    def 431 [param "self"; param "ctx"; param "name"; param "user"]
      (Some "{command} command (コマンド) test (ユーザー)"));
  (460, [Literal "listGroups"],
    def 461 [param "self"; param "ctx"]
      (Some "{command} listGroups"));
  (487, [Literal "createGroup"; Type_ TStr; Union [TListStr; TNoneType]],
    def 488 [param "self"; param "ctx"; param "name"; param_opt "allowed_commands"]
      (Some "{command} createGroup (グループ名) [許可コマンド...]"));
  (509, [Literal "deleteGroup"; Parser GroupArgument],
    def 510 [param "self"; param "ctx"; param "name"]
      (Some "{command} deleteGroup (グループ名)"));
  (523, [Literal "group"; Parser GroupArgument],
    def 524 [param "self"; param "ctx"; param "name"]
      (Some "{command} group (グループ) info"));
  (546, [Literal "group"; Parser GroupArgument; Literal "info"],
    def 547 [param "self"; param "ctx"; param "name"]
      (Some "{command} group (グループ) info"));
  (569, [Literal "group"; Parser GroupArgument; Literal "addCommand"; Parser CommandEntryArgument],
    def 570 [param "self"; param "ctx"; param "name"; param "command"]
      (Some "{command} group (グループ) addCommand (コマンド...)"));
  (591, [Literal "group"; Parser GroupArgument; Literal "removeCommand"; Parser CommandEntryArgument],
    def 592 [param "self"; param "ctx"; param "name"; param "command"]
      (Some "{command} group (グループ) removeCommand (コマンド)"));
  (613, [Literal "group"; Parser GroupArgument; Literal "addUser"; Type_ TStr],
    def 614 [param "self"; param "ctx"; param "name"; param "user"]
      (Some "{command} group (グループ) addUser (ユーザー)"));
  (641, [Literal "group"; Parser GroupArgument; Literal "removeUser"; Type_ TStr],
    def 642 [param "self"; param "ctx"; param "name"; param "user"]
      (Some "{command} group (グループ) removeUser (ユーザー)"));
  (669, [Literal "group"; Parser GroupArgument; Literal "addRole"; Type_ TStr],
    def 670 [param "self"; param "ctx"; param "name"; param "role"]
      (Some "{command} group (グループ) addRole (役職)"));
  (693, [Literal "group"; Parser GroupArgument; Literal "removeRole"; Type_ TStr],
    def 694 [param "self"; param "ctx"; param "name"; param "role"]
      (Some "{command} group (グループ) removeRole (役職)"));
  (717, [Literal "listCategories"],
    def 718 [param "self"; param "ctx"]
      (Some "{command} listCategories"));
  (742, [Literal "addCategory"; Type_ TStr; Union [TStr; TNoneType]; Union [TListStr; TNoneType]],
    def 743 [param "self"; param "ctx"; param "name"; param_opt "label"; param_opt "commands"]
      (Some "{command} addCategory (カテゴリ名) [表示名] [コマンド...]"));
  (774, [Literal "removeCategory"; Parser CategoryArgument],
    def 775 [param "self"; param "ctx"; param "name"]
      (Some "{command} removeCategory (カテゴリ名)"));
  (796, [Literal "category"; Parser CategoryArgument],
    def 797 [param "self"; param "ctx"; param "name"]
      (Some "{command} category (カテゴリ) info"));
  (810, [Literal "category"; Parser CategoryArgument; Literal "info"],
    def 811 [param "self"; param "ctx"; param "name"]
      (Some "{command} category (カテゴリ) info"));
  (824, [Literal "category"; Parser CategoryArgument; Literal "move"; Type_ TStr],
    def 825 [param "self"; param "ctx"; param "name"; param "number"]
      (Some "{command} category (カテゴリ) move (番号)"));
  (850, [Literal "category"; Parser CategoryArgument; Literal "setLabel"; Type_ TStr],
    def 851 [param "self"; param "ctx"; param "name"; param "label"]
      (Some "{command} category (カテゴリ) setLabel (表示名)"));
  (867, [Literal "category"; Parser CategoryArgument; Literal "addCommand"; Parser CommandEntryArgument],
    def 868 [param "self"; param "ctx"; param "name"; param "command"]
      (Some "{command} category (カテゴリ) addCommand (コマンド...)"));
  (890, [Literal "category"; Parser CategoryArgument; Literal "removeCommand"; Type_ TStr],
    def 891 [param "self"; param "ctx"; param "name"; param "command"]
      (Some "{command} category (カテゴリ) removeCommand (コマンド)"))
].

Definition Handler_handlers : list Handler :=
  foldl (λ handlers '(id, self_args, func), Handler__call__ id self_args func handlers)
        [] registrations.

(** ** [CommandConfiguratorPlugin.cmd_cconf] (plugin.py, lines 57-97) *)

Record Embed := { title : string; description : string }.

(** What the entry point does with one command line. *)
Inductive Outcome :=
| SendInfo (embed : Embed)
| SendWarn (message : string)
| SendCommandUsage (usage : string)
| RaiseCommandUsageError
| Invoke (command : PyFunction) (kwargs : Kwargs).

Definition nl : string := String (ascii_of_nat 10) EmptyString.

(** [list_all]: the dedented listing with [{cmd}] filled in. *)
Definition list_all (prefix label : string) : string :=
  let cmd := prefix +:+ label in
  let op (usage : string) := "> " +:+ cmd +:+ " " +:+ usage in
  nl +:+ String.concat nl [
    "コマンド設定";
    op "listcommands";
    op "addcommand (name) [handlerId] [category]";
    op "removecommand (name)";
    op "command (name) info";
    op "command (name) sethandler (handlerId)";
    op "command (name) addalias (alias...)";
    op "command (name) removealias (alias...)";
    op "command (name) setusage (usageText)";
    op "command (name) resetusage";
    op "command (name) setcategory (category)";
    op "command (name) resetcategory";
    op "command (name) test (user)";
    "";
    "許可グループ設定";
    op "listgroups";
    op "creategroup (name) [commands...]";
    op "deletegroup (name)";
    op "group (name) info";
    op "group (name) addcommand (command)";
    op "group (name) removecommand (command)";
    op "group (name) adduser (userId)";
    op "group (name) removeuser (userId)";
    op "group (name) addrole (roleId)";
    op "group (name) removerole (roleId)";
    "";
    "カテゴリ設定";
    op "listcategories";
    op "addcategory (name) [label] [commands...]";
    op "removecategory (name)";
    op "category (name) info";
    op "category (name) move (number)";
    op "category (name) setlabel (label)";
    op "category (name) addcommand (command)";
    op "category (name) removecommand (command)"
  ] +:+ nl.

(** Modelled from the spec: [ctx.arguments.get(default=...)] belongs to the
    host package [dncore], which is not among the sources; it returns the
    first argument, or the default when there is none. *)
Definition arguments_get (arguments : list string) (default : string) : string :=
  match arguments with
  | a :: _ => a
  | [] => default
  end.

Section Plugin.

(** [self.commands.get_command], the resolution engine of the plugin. *)
Variable commands_get_command : CommandContext → result (PyFunction * Kwargs).

Definition cmd_cconf (ctx : CommandContext) : Outcome :=
  if String.eqb (arguments_get (arguments ctx) "") "help" then
    SendInfo {| title := ":jigsaw: Command Configurator - 操作一覧 :jigsaw:";
                description := list_all (prefix ctx) (execute_name ctx) |}
  else
    match commands_get_command ctx with
    | Raise (CommandMessageError message) => SendWarn message
    | Raise (CommandInfoError command) =>
        match docs command with
        | Some text => if String.eqb text "" then RaiseCommandUsageError
                       else SendCommandUsage text
        | None => RaiseCommandUsageError
        end
    | Raise CommandNotFoundError => RaiseCommandUsageError
    | Ok (command, kwargs) => Invoke command kwargs
    end.

End Plugin.

(** ** Per-candidate view of the scan

    The scan walks the tokens in the outer loop and the candidates in the
    inner one.  The functions below describe what happens to a single
    candidate, independently of the others; the lemmas of the next part show
    that the loops compute exactly this whenever no parser raises. *)

(** The candidate is still in [handlers] after the pass for [(idx, arg)]. *)
Definition stays (idx : nat) (arg : string) (cmd : Handler) : bool :=
  match args cmd !! idx with
  | None => ignore_args_size cmd
  | Some typ =>
      match unwrap_optional typ with
      | Literal text => String.eqb (lower text) (lower arg)
      | _ => true
      end
  end.

(** The candidate stays through all of [rest], whose first index is [idx]. *)
Fixpoint live_from (idx : nat) (rest : list string) (cmd : Handler) : bool :=
  match rest with
  | [] => true
  | arg :: rest' => stays idx arg cmd && live_from (S idx) rest' cmd
  end.

(** The value appended to [_args[cmd]] during the pass for [(idx, arg)]. *)
Definition emits (api : CommandManager) (arguments : list string)
    (idx : nat) (arg : string) (cmd : Handler) : list Value :=
  match scan_body api arguments idx arg cmd with
  | Ok (Append v) => [v]
  | _ => []
  end.

Fixpoint collected_from (api : CommandManager) (arguments : list string)
    (idx : nat) (rest : list string) (cmd : Handler) : list Value :=
  match rest with
  | [] => []
  | arg :: rest' =>
      emits api arguments idx arg cmd ++ collected_from api arguments (S idx) rest' cmd
  end.

(** Survives the scan and the arity check. *)
Definition survives (arguments : list string) (cmd : Handler) : bool :=
  live_from 0 arguments cmd && negb (missing_required arguments cmd).

(** The three lists the decision of lines 125-130 depends on, in registry
    order: the candidates left by the scan, those among them that the arity
    check removes, and those it keeps. *)
Definition live_candidates (arguments : list string) (registry : list Handler) :=
  filter (λ c, live_from 0 arguments c) registry.
Definition arity_errors (arguments : list string) (registry : list Handler) :=
  filter (λ c, missing_required arguments c) (live_candidates arguments registry).
Definition survivors (arguments : list string) (registry : list Handler) :=
  filter (λ c, negb (missing_required arguments c)) (live_candidates arguments registry).

(** ** Sample data for the examples *)

Definition ping_entry : CommandEntry :=
  {| entry_handler := Some "ping"; entry_aliases := []; entry_usage := None |}.

(** An application state with one category holding the command [ping]. *)
Definition api_example : CommandManager :=
  {| cm_handlers := {[ "ping" := {| handler_id := "ping"; handler_name := Some "ping" |} ]};
     config :=
       {| categories :=
            [("default", {| category_label := None;
                            category_commands := {[ "ping" := ping_entry ]} |})];
          groups := {[ "defaults" := {| group_commands := []; group_users := [];
                                        group_roles := [] |} ]} |} |}.

Definition ctx_of (tokens : list string) : CommandContext :=
  {| arguments := tokens; prefix := "!"; execute_name := "cconf" |}.

(** The registered handler whose decorator is at the given source line. *)
Definition unregistered : Handler :=
  {| hid := 0; args := []; handler := def 0 [] None; docs := None |}.
Definition handler_at (line : nat) : Handler :=
  default unregistered (head (filter (λ h, hid h = line) Handler_handlers)).

(** Two small registries used in examples: in the first a parser and a
    literal compete for the second token; in the second two signatures accept
    the same inputs. *)
Definition registry_parser_vs_literal : list Handler :=
  Handler__call__ 2 [Literal "show"; Literal "all"] (def 2 [param "self"; param "ctx"] None)
    (Handler__call__ 1 [Literal "show"; Parser CommandEntryArgument]
       (def 1 [param "self"; param "ctx"; param "name"] None) []).

Definition registry_twins : list Handler :=
  Handler__call__ 2 [Literal "say"; Type_ TStr] (def 2 [param "self"; param "ctx"; param "text"] None)
    (Handler__call__ 1 [Literal "say"; Type_ TStr]
       (def 1 [param "self"; param "ctx"; param "text"] None) []).

(** ** The binding rule, per parameter

    What lines 146-159 give the [i]-th declared parameter when [values] are
    the positional values: the [i]-th value when there is one, else [None]
    for a nullable annotation, else the declared default; no value at all
    means that [IndexError] is re-raised. *)
Definition bound_value (values : list Value) (i : nat) (parameter : PyParameter)
  : option Value :=
  match values !! i with
  | Some v => Some v
  | None => if nullable parameter then Some VNone else pdefault parameter
  end.

(** The function a call resolves to, forgetting the bound arguments. *)
Definition candidate_of (r : result (PyFunction * Kwargs)) : result PyFunction :=
  match r with
  | Ok (f, _) => Ok f
  | Raise e => Raise e
  end.

(** ** Relations used to compare two runs *)

(** Two actions of the same kind; the appended values may differ. *)
Definition same_kind (a b : Action) : Prop :=
  match a, b with
  | Remove, Remove | Pass, Pass | Append _, Append _ => True
  | _, _ => False
  end.

(** Same candidates, and value lists of the same lengths. *)
Definition same_shape (s s' : ScanState) : Prop :=
  st_handlers s = st_handlers s'
  ∧ ∀ k, length <$> st_args s !! k = length <$> st_args s' !! k.

(** Two outcomes that agree up to a relation on the results. *)
Definition agree {A} (R : A → A → Prop) (r r' : result A) : Prop :=
  match r, r' with
  | Ok x, Ok y => R x y
  | Raise e, Raise e' => e = e'
  | _, _ => False
  end.

(** ** Tokens that fit a pattern element *)

(** The token agrees with the element: a literal up to letter case, a
    typed parser when it accepts the token, anything else always. *)
Definition matches_element (api : CommandManager) (typ : ArgSpec) (token : string)
  : Prop :=
  match typ with
  | Literal text => lower text = lower token
  | Parser p => ∃ v, parse api p token = Ok v
  | _ => True
  end.

(** No parser is run for the candidate at index [i], or only one that
    [accepted] allows. *)
Definition parser_free_or (accepted : ParserKind → bool) (i : nat) (cmd : Handler)
  : bool :=
  match args cmd !! i with
  | Some typ =>
      match unwrap_optional typ with
      | Parser p => accepted p
      | _ => true
      end
  | None => true
  end.

(** A registry with a signature whose first literal is [help]. *)
Definition registry_help : list Handler :=
  Handler__call__ 1 [Literal "help"] (def 1 [param "self"; param "ctx"] None) [].

(** ** Keywords and names *)

(** The lower-cased literals that open the signatures of a registry. *)
Definition keywords (registry : list Handler) : list string :=
  omap (λ cmd, match args cmd !! 0 with
               | Some (Literal text) => Some (lower text)
               | _ => None
               end) registry.

(** Every signature of the registry opens with a literal. *)
Definition keyword_first (registry : list Handler) : Prop :=
  Forall (λ cmd, ∃ text, args cmd !! 0 = Some (Literal text)) registry.

(** The name a keyed parser returns next to the object it found. *)
Definition value_name (v : Value) : option string :=
  match v with
  | VEntry name _ | VGroup name _ | VCategory name _ => Some name
  | _ => None
  end.

(** ** The handlers behind the signatures (mgrcmd.py, lines 203-915)

    A handler is a coroutine method that changes objects of the
    configuration and reports through its context.  It is modelled by a
    function from the contents of the objects it touches to their new
    contents, together with the calls it makes on the context and on the
    command manager, in the order of the source. *)

Inductive Call :=
| send_warn (message : string)
| send_info (message : string)
| remap_force_save.

Global Instance Call_eq_dec : EqDecision Call.
Proof. solve_decision. Defined.

(** [entry.aliases] replaced; the two other attributes are kept. *)
Definition with_aliases (entry : CommandEntry) (aliases : list string) : CommandEntry :=
  {| entry_handler := entry_handler entry;
     entry_aliases := aliases;
     entry_usage := entry_usage entry |}.

(** Lines 311-315: the loop over the given aliases, on [entry.aliases] and
    the counter [added]. *)
Fixpoint add_aliases (alias aliases : list string) (added : nat) : list string * nat :=
  match alias with
  | [] => (aliases, added)
  | item :: alias' =>
      if bool_decide (lower item ∈ aliases) then add_aliases alias' aliases added
      else add_aliases alias' (aliases ++ [lower item]) (S added)
  end.

(** [list.remove]: the first occurrence is taken out. *)
Fixpoint remove_first (x : string) (l : list string) : list string :=
  match l with
  | [] => []
  | y :: l' => if String.eqb y x then l' else y :: remove_first x l'
  end.

(** Lines 339-343: the loop over the given aliases, on [entry.aliases] and
    the counter [removed]. *)
Fixpoint remove_aliases (alias aliases : list string) (removed : nat) : list string * nat :=
  match alias with
  | [] => (aliases, removed)
  | item :: alias' =>
      if bool_decide (lower item ∈ aliases)
      then remove_aliases alias' (remove_first (lower item) aliases) (S removed)
      else remove_aliases alias' aliases removed
  end.

(** [command (name) addAlias (alias...)], lines 299-325. *)
Definition command_addAlias (name : string * CommandEntry) (alias : list string)
  : CommandEntry * list Call :=
  let '(name, entry) := name in
  match alias with
  | [] => (entry, [send_warn ":grey_exclamation: 追加する別名を指定してください"])
  | first :: _ =>
      let '(aliases, added) := add_aliases alias (entry_aliases entry) 0 in
      (with_aliases entry aliases,
       match added with
       | 0 => [send_info ":grey_exclamation: 既に追加されています"]
       | 1 => [remap_force_save;
               send_info (":ok_hand: 別名コマンド **`" +:+ lower first +:+ "`** を追加しました")]
       | _ => [remap_force_save;
               send_info (":ok_hand: 別名コマンド " +:+ pretty added +:+ "個 を追加しました")]
       end)
  end.

(** [command (name) removeAlias (alias...)], lines 327-350. *)
Definition command_removeAlias (name : string * CommandEntry) (alias : list string)
  : CommandEntry * list Call :=
  let '(name, entry) := name in
  match alias with
  | [] => (entry, [send_warn ":grey_exclamation: 削除する別名を指定してください"])
  | _ :: _ =>
      let '(aliases, removed) := remove_aliases alias (entry_aliases entry) 0 in
      (with_aliases entry aliases,
       match removed with
       | 0 => [send_info ":grey_exclamation: 指定された別名は削除されませんでした"]
       | _ => [remap_force_save;
               send_info (":ok_hand: 別名コマンド " +:+ pretty removed +:+ "個 を削除しました")]
       end)
  end.

(** ** Insertion-ordered dicts

    [config.categories] is a dict that the handlers iterate, reorder and
    write to: an association list in insertion order, whose keys are
    distinct. *)

(** [k in d] *)
Definition dict_has {V} (d : list (string * V)) (k : string) : bool :=
  match dict_get d k with
  | Some _ => true
  | None => false
  end.

(** The dict after [d.pop(k)] or [del d[k]]. *)
Fixpoint dict_del {V} (d : list (string * V)) (k : string) : list (string * V) :=
  match d with
  | [] => []
  | (k', v) :: d' => if String.eqb k' k then d' else (k', v) :: dict_del d' k
  end.

(** [d[k] = v]: the value of a key that is there is replaced in place, a new
    key goes last. *)
Fixpoint dict_set {V} (d : list (string * V)) (k : string) (v : V) : list (string * V) :=
  match d with
  | [] => [(k, v)]
  | (k', v') :: d' => if String.eqb k' k then (k', v) :: d' else (k', v') :: dict_set d' k v
  end.

(** [d.update(items)] for a list of pairs. *)
Definition dict_update {V} (d items : list (string * V)) : list (string * V) :=
  foldl (λ d kv, dict_set d kv.1 kv.2) d items.

(** A write to the object that is stored under [k]: the objects of the
    configuration are referred to by their key. *)
Fixpoint dict_alter {V} (f : V → V) (d : list (string * V)) (k : string)
  : list (string * V) :=
  match d with
  | [] => []
  | (k', v) :: d' => if String.eqb k' k then (k', f v) :: d' else (k', v) :: dict_alter f d' k
  end.

(** The same keys in the same order, each value rewritten. *)
Definition map_values {V} (g : string → V → V) (d : list (string * V))
  : list (string * V) :=
  (λ kv, (kv.1, g kv.1 kv.2)) <$> d.

(** [list.insert(index, x)] for [0 ≤ index]. *)
Definition list_insert_at {A} (index : nat) (x : A) (l : list A) : list A :=
  take index l ++ x :: drop index l.

(** ** The category handlers (mgrcmd.py, lines 386-428 and 742-914) *)

Inductive Exception :=
| KeyError (key : string)
| AttributeError (attribute : string)
| Uncaught (e : CommandError).

(** [category.commands] replaced; the label is kept. *)
Definition with_commands (category : CommandCategory)
    (commands : gmap string CommandEntry) : CommandCategory :=
  {| category_label := category_label category; category_commands := commands |}.

(** [category.commands.pop(key, None)], as a write to the category. *)
Definition pop_command (key : string) (category : CommandCategory) : CommandCategory :=
  with_commands category (delete key (category_commands category)).

(** [category.commands[key] = entry], as a write to the category. *)
Definition put_command (key : string) (entry : CommandEntry) (category : CommandCategory)
  : CommandCategory :=
  with_commands category (<[key := entry]> (category_commands category)).

(** [for _category in self.cmdconf.categories.values():
       _category.commands.pop(key, None)] *)
Definition pop_everywhere (key : string) (cats : list (string * CommandCategory))
  : list (string * CommandCategory) :=
  (λ kc, (kc.1, pop_command key kc.2)) <$> cats.

(** [label or category_name] *)
Definition label_or (label : option string) (category_name : string) : string :=
  match label with
  | Some text => if String.eqb text "" then category_name else text
  | None => category_name
  end.

(** The keys of the categories that hold the command [key], in order. *)
Definition holders (key : string) (cats : list (string * CommandCategory)) : list string :=
  (filter (λ kc, is_Some (category_commands kc.2 !! key)) cats).*1.

(** [command (name) setCategory (category)], lines 386-407.  The category
    object is the one stored under [category_name]. *)
Definition command_setCategory (cats : list (string * CommandCategory))
    (name : string * CommandEntry) (category : string * CommandCategory)
  : list (string * CommandCategory) * list Call :=
  let '(name, entry) := name in
  let '(category_name, category) := category in
  if bool_decide (is_Some (category_commands category !! name))
  then (cats, [send_warn ":grey_exclamation: 既に指定カテゴリに設定されています"])
  else
    let cats := pop_everywhere name cats in
    let cats := dict_alter (put_command name entry) cats category_name in
    (cats, [remap_force_save;
            send_info (":ok_hand: `" +:+ label_or (category_label category) category_name
                       +:+ "` カテゴリに設定しました")]).

(** [category (name) addCommand (command)], lines 867-888.  Line 883 pops
    [name], which is the name of the category. *)
Definition category_addCommand (cats : list (string * CommandCategory))
    (name : string * CommandCategory) (command : string * CommandEntry)
  : list (string * CommandCategory) * list Call :=
  let '(name, category) := name in
  let '(command_name, command) := command in
  if bool_decide (is_Some (category_commands category !! command_name))
  then (cats, [send_warn ":grey_exclamation: 既に設定されています"])
  else
    let cats := pop_everywhere name cats in
    let cats := dict_alter (put_command command_name command) cats name in
    (cats, [remap_force_save;
            send_info (":ok_hand: `" +:+ command_name +:+ "` コマンドを追加しました")]).

Section Handlers.

(** Names of the host package [dncore] and of the language that the
    handlers use: the key of the default category, the two constructors,
    the truth value of an entry object, and the builtin [int] on a string
    ([None] stands for [ValueError]). *)
Variable DEFAULT_CATEGORY : string.
Variable CommandEntry_new : CommandEntry.
Variable CommandCategory_new : option string → CommandCategory.
Variable entry_bool : CommandEntry → bool.
Variable int : string → option Z.

(** [command (name) resetCategory], lines 409-428: the loop, on the
    categories and the counter [removed]. *)
Fixpoint reset_loop (name : string) (cats : list (string * CommandCategory)) (removed : nat)
  : list (string * CommandCategory) * nat :=
  match cats with
  | [] => ([], removed)
  | (category_name, category) :: cats' =>
      if String.eqb DEFAULT_CATEGORY category_name
      then let '(cats', removed) := reset_loop name cats' removed in
           ((category_name, category) :: cats', removed)
      else
        let removed :=
          match category_commands category !! name with
          | Some entry => if entry_bool entry then S removed else removed
          | None => removed
          end in
        let '(cats', removed) := reset_loop name cats' removed in
        ((category_name, pop_command name category) :: cats', removed)
  end.

Definition command_resetCategory (cats : list (string * CommandCategory))
    (name : string * CommandEntry) : list (string * CommandCategory) * list Call :=
  let '(name, entry) := name in
  let '(cats, removed) := reset_loop name cats 0 in
  match removed with
  | 0 => (cats, [send_warn ":grey_exclamation: カテゴリが設定されていません"])
  | _ => (cats, [remap_force_save; send_info ":ok_hand: その他カテゴリに設定しました"])
  end.

(** [category (name) removeCommand (command)], lines 890-914. *)
Definition category_removeCommand (cats : list (string * CommandCategory))
    (name : string * CommandCategory) (command : string)
  : list (string * CommandCategory) * list Call :=
  let '(name, category) := name in
  let command := lower command in
  match category_commands category !! command with
  | None => (cats, [send_warn ":grey_exclamation: コマンドは設定されていません"])
  | Some cmd_entry =>
      if String.eqb name DEFAULT_CATEGORY
      then (cats, [send_warn ":grey_exclamation: デフォルトカテゴリからは削除できません"])
      else
        let cats := dict_alter (pop_command command) cats name in
        let cats :=
          if entry_bool cmd_entry && dict_has cats DEFAULT_CATEGORY
          then dict_alter (put_command command cmd_entry) cats DEFAULT_CATEGORY
          else cats in
        (cats, [remap_force_save;
                send_info (":ok_hand: `" +:+ command +:+ "` コマンドをカテゴリから削除しました")])
  end.

(** [removeCategory (name)], lines 774-794.  [dict.update] keeps the
    entries of the argument where both dicts have a key. *)
Definition removeCategory (cats : list (string * CommandCategory))
    (name : string * CommandCategory)
  : list (string * CommandCategory) * list Call * option Exception :=
  let '(name, category) := name in
  if String.eqb name DEFAULT_CATEGORY
  then (cats, [send_warn ":grey_exclamation: デフォルトカテゴリは削除できません"], None)
  else
    let cats :=
      if dict_has cats DEFAULT_CATEGORY
      then dict_alter (λ d, with_commands d (category_commands category ∪ category_commands d))
                      cats DEFAULT_CATEGORY
      else cats in
    if dict_has cats name
    then (dict_del cats name,
          [remap_force_save; send_info (":ok_hand: カテゴリ `" +:+ name +:+ "` を削除しました")],
          None)
    else (cats, [], Some (KeyError name)).

(** [category (name) move (number)], lines 824-848. *)
Definition category_move (cats : list (string * CommandCategory))
    (name : string * CommandCategory) (number : string)
  : list (string * CommandCategory) * list Call * option Exception :=
  let '(name, category) := name in
  match int number with
  | None => (cats, [send_warn ":grey_exclamation: 数値を指定してください"], None)
  | Some number =>
      if dict_has cats name
      then
        let items := dict_del cats name in
        let index := Z.max 0 (Z.min (number - 1) (Z.of_nat (length items))) in
        let items := list_insert_at (Z.to_nat index) (name, category) items in
        (dict_update [] items,
         [remap_force_save;
          send_info (":ok_hand: カテゴリ `" +:+ name +:+ "` を**" +:+ pretty (index + 1)%Z
                     +:+ "**番目に移動しました")],
         None)
      else (cats, [], Some (KeyError name))
  end.

(** [addCategory], lines 757-767: the inner loop for one command name, on
    the categories, the new category and the counter [added_commands]. *)
Fixpoint take_command (key : string) (cats : list (string * CommandCategory))
    (category : CommandCategory) (added_commands : nat)
  : list (string * CommandCategory) * CommandCategory * nat :=
  match cats with
  | [] => ([], category, added_commands)
  | (k, _category) :: cats' =>
      let '(cmd_entry, added_commands) :=
        match category_commands _category !! key with
        | Some entry => (entry, S added_commands)
        | None => (CommandEntry_new, added_commands)
        end in
      let category := put_command key cmd_entry category in
      let '(cats', category, added_commands) :=
        take_command key cats' category added_commands in
      ((k, pop_command key _category) :: cats', category, added_commands)
  end.

(** The outer loop, over the given command names. *)
Fixpoint take_commands (commands : list string) (cats : list (string * CommandCategory))
    (category : CommandCategory) (added_commands : nat)
  : list (string * CommandCategory) * CommandCategory * nat :=
  match commands with
  | [] => (cats, category, added_commands)
  | cmd_name :: commands' =>
      let '(cats, category, added_commands) :=
        take_command (lower cmd_name) cats category added_commands in
      take_commands commands' cats category added_commands
  end.

(** [addCategory (name) [label] [commands...]], lines 742-772. *)
Definition addCategory (cats : list (string * CommandCategory))
    (name : string) (label : option string) (commands : option (list string))
  : list (string * CommandCategory) * list Call :=
  let name := lower name in
  if dict_has cats name
  then (cats, [send_warn (":grey_exclamation: カテゴリ `" +:+ name +:+ "` は既に存在します")])
  else
    let category := CommandCategory_new label in
    let '(cats, category, added_commands) :=
      match commands with
      | Some commands => take_commands commands cats category 0
      | None => (cats, category, 0)
      end in
    (dict_set cats name category,
     [remap_force_save;
      send_info (":ok_hand: カテゴリ `" +:+ name +:+ "` を作成しました" +:+
                 match added_commands with
                 | 0 => ""
                 | _ => " (コマンド: " +:+ pretty added_commands +:+ "個)"
                 end)]).

(** [addCommand], lines 216-219: the loop variable [handler] after the
    loop: the handler at which the loop broke, else the last one of the
    dict, else the initial [None]. *)
Definition name_matches (name : string) (h : CommandHandler) : bool :=
  match handler_name h with
  | Some text => negb (String.eqb text "") && String.eqb name (lower text)
  | None => false
  end.

Fixpoint select_handler (name : string) (items : list (string * CommandHandler))
    (found : option CommandHandler) : option CommandHandler :=
  match items with
  | [] => found
  | (_, h) :: items' =>
      if name_matches name h then Some h else select_handler name items' (Some h)
  end.

(** [entry.handler] replaced. *)
Definition with_handler (entry : CommandEntry) (id : string) : CommandEntry :=
  {| entry_handler := Some id;
     entry_aliases := entry_aliases entry;
     entry_usage := entry_usage entry |}.

(** [addCommand (name) [handlerId] [category]], lines 203-230, on the
    command manager [api]; [items] is [self.cmdmgr.handlers.items()] in
    iteration order and [handlerId] is the parameter [handler_id].  The
    parsers are called from inside the handler, so that their exception is
    not caught by the engine. *)
Definition addCommand (api : CommandManager) (items : list (string * CommandHandler))
    (name : string) (handlerId category : option string)
  : list (string * CommandCategory) * list Call * option Exception :=
  let cats := categories (config api) in
  let name := lower name in
  let category_key :=
    match category with
    | Some text => if String.eqb text "" then DEFAULT_CATEGORY else text
    | None => DEFAULT_CATEGORY
    end in
  match parse api CategoryArgument category_key with
  | Ok (VCategory category_name category) =>
      let selected :=
        match handlerId with
        | None => Ok (select_handler name items None)
        | Some id =>
            match parse api HandlerArgument id with
            | Ok (VHandler h) => Ok (Some h)
            | Ok _ => Ok None
            | Raise e => Raise e
            end
        end in
      match selected with
      | Raise e => (cats, [], Some (Uncaught e))
      | Ok selected =>
          if bool_decide (is_Some (category_commands category !! name))
          then (cats, [send_warn ":grey_exclamation: 既に追加されています"], None)
          else
            match selected with
            | None =>
                (dict_alter (put_command name CommandEntry_new) cats category_name,
                 [], Some (AttributeError "id"))
            | Some h =>
                (dict_alter (put_command name (with_handler CommandEntry_new (handler_id h)))
                            cats category_name,
                 [remap_force_save;
                  send_info (":ok_hand: コマンド **`" +:+ name +:+ "`** を追加しました ("
                             +:+ handler_id h +:+ ")")],
                 None)
            end
      end
  | Ok _ => (cats, [], None)
  | Raise e => (cats, [], Some (Uncaught e))
  end.

End Handlers.

(** A reading of [int] that is sufficient for the examples: decimal digits
    with an optional minus sign. *)
Fixpoint digits_value (s : string) (acc : Z) : option Z :=
  match s with
  | EmptyString => Some acc
  | String c s' =>
      let n := Z.of_nat (nat_of_ascii c) in
      if (48 <=? n)%Z && (n <=? 57)%Z then digits_value s' (10 * acc + (n - 48))%Z else None
  end.

Definition int_decimal (s : string) : option Z :=
  match s with
  | EmptyString => None
  | String "-" s' => if String.eqb s' "" then None else Z.opp <$> digits_value s' 0
  | _ => digits_value s 0
  end.

(** Two categories for the examples: [default] holds [ping], [fun] holds
    [dice]. *)
Definition dice_entry : CommandEntry :=
  {| entry_handler := Some "dice"; entry_aliases := ["roll"]; entry_usage := None |}.

Definition fun_category : CommandCategory :=
  {| category_label := Some "Fun"; category_commands := {[ "dice" := dice_entry ]} |}.

Definition default_category : CommandCategory :=
  {| category_label := None; category_commands := {[ "ping" := ping_entry ]} |}.

Definition cats_example : list (string * CommandCategory) :=
  [("fun", fun_category); ("default", default_category)].

(** ** Counting the positional values

    Whether binding succeeds depends on the number of positional values
    only, and the number of values a candidate collects depends on its
    signature and on the number of tokens only, once no parser raises. *)

(** The element makes the scan append a value. *)
Definition appends_value (typ : ArgSpec) : bool :=
  match unwrap_optional typ with
  | Parser _ | Type_ TStr | Type_ TList | Type_ TListStr => true
  | _ => false
  end.

(** The number of values collected from the first [n] tokens. *)
Definition values_count (n : nat) (cmd : Handler) : nat :=
  length (filter (λ typ, appends_value typ) (take n (args cmd))).

(** Lines 149-153: the parameter can do without a value. *)
Definition optional_parameter (parameter : PyParameter) : bool :=
  nullable parameter || match pdefault parameter with Some _ => true | None => false end.

(** Binding [n] values to the parameters of [function] succeeds. *)
Definition binds (n : nat) (function : PyFunction) : bool :=
  match parameters function with
  | _ :: _ :: params => forallb optional_parameter (drop n params)
  | _ => false
  end.

(** For every number of tokens up to the length of the signature: the arity
    check rejects the signature, or the values collected from that many
    tokens can be bound to its function. *)
Definition binds_whenever_complete (cmd : Handler) : bool :=
  forallb (λ n, existsb (λ typ, negb (is_optional typ)) (drop n (args cmd))
                || binds (values_count n cmd) (handler cmd))
          (seq 0 (S (length (args cmd)))).

(** The signatures that take an entity as their second element: the
    opening literal and the parser. *)
Definition entity_keywords (registry : list Handler) : list (string * ParserKind) :=
  omap (λ cmd, match args cmd with
               | Literal text :: Parser p :: _ => Some (text, p)
               | _ => None
               end) registry.

(** ** Letter case, stated on the characters

    Equality of two strings up to the case of the letters [A]-[Z], defined
    character by character and without [lower]. *)

Definition is_upper_letter (c : ascii) : bool :=
  let n := nat_of_ascii c in (65 <=? n)%nat && (n <=? 90)%nat.

(** The same character, or the two cases of one letter. *)
Definition same_letter (a b : ascii) : bool :=
  Ascii.eqb a b
  || (is_upper_letter a && (nat_of_ascii b =? nat_of_ascii a + 32)%nat)
  || (is_upper_letter b && (nat_of_ascii a =? nat_of_ascii b + 32)%nat).

Fixpoint eq_ignore_case (s t : string) : bool :=
  match s, t with
  | EmptyString, EmptyString => true
  | String a s', String b t' => same_letter a b && eq_ignore_case s' t'
  | _, _ => false
  end.

(** No character of the string is an upper-case letter. *)
Fixpoint no_upper (s : string) : bool :=
  match s with
  | EmptyString => true
  | String c s' => negb (is_upper_letter c) && no_upper s'
  end.

(** Every literal of the signature is made of ASCII characters. *)
Definition ascii_literals (cmd : Handler) : bool :=
  forallb (λ typ, match typ with
                  | Literal text => Str.is_ascii text
                  | _ => true
                  end) (args cmd).

(** What the store that the parser [p] reads holds under the key [name]. *)
Definition held_under (api : CommandManager) (p : ParserKind) (name : string)
    (v : Value) : Prop :=
  match p, v with
  | CommandEntryArgument, VEntry n e =>
      n = name ∧ ∃ k c, (k, c) ∈ categories (config api)
                        ∧ category_commands c !! name = Some e
  | HandlerArgument, VHandler h => cm_handlers api !! name = Some h
  | GroupArgument, VGroup n g => n = name ∧ groups (config api) !! name = Some g
  | CategoryArgument, VCategory n c =>
      n = name ∧ dict_get (categories (config api)) name = Some c
  | _, _ => False
  end.

(** ** Signatures that a command line tells apart

    Conditions on a registry, decided by computation, under which a command
    line that fits a signature with one token per element resolves to
    it. *)

(** Both signatures have a literal at position [j], and the two literals
    differ even up to letter case. *)
Definition literals_differ_at (c c' : Handler) (j : nat) : bool :=
  match args c !! j, args c' !! j with
  | Some (Literal text), Some (Literal text') =>
      negb (String.eqb (lower text) (lower text'))
  | _, _ => false
  end.

(** A command line of [n] tokens is neither too long nor too short for the
    signature. *)
Definition accepts_length (n : nat) (c : Handler) : bool :=
  ((n <=? length (args c))%nat || ignore_args_size c)
  && negb (existsb (λ typ, negb (is_optional typ)) (drop n (args c))).

(** No command line with at most one token per element of [cmd] suits both
    [cmd] and [c]: two of their literals differ, or they accept no common
    number of tokens. *)
Definition told_apart (cmd c : Handler) : bool :=
  existsb (literals_differ_at c cmd) (seq 0 (length (args cmd)))
  || forallb (λ n, negb (accepts_length n c && accepts_length n cmd))
             (seq 1 (length (args cmd))).

(** Where [c] has a parser, [cmd] has the same parser, unless an earlier
    literal of [c] differs from the one of [cmd]. *)
Definition parsers_agree (cmd c : Handler) : bool :=
  forallb (λ i, match args c !! i with
                | Some (Parser p) =>
                    match args cmd !! i with
                    | Some (Parser q) => bool_decide (p = q)
                    | _ => false
                    end
                    || existsb (literals_differ_at c cmd) (seq 0 i)
                | _ => true
                end) (seq 0 (length (args cmd))).

Definition round_trip_ready (registry : list Handler) : bool :=
  forallb (λ cmd,
     forallb (λ c, parsers_agree cmd c
                   && (bool_decide (hid c = hid cmd) || told_apart cmd c)) registry)
    registry.

(** The positional values that a pattern yields for a command line with one
    token per element: nothing for a literal, the parsed entity for a
    parser, the token for [str], the tokens from there on for a list. *)
Fixpoint pattern_values (api : CommandManager) (pattern : list ArgSpec)
    (tokens : list string) : list Value :=
  match pattern, tokens with
  | typ :: pattern', token :: tokens' =>
      match unwrap_optional typ with
      | Parser p => match parse api p token with Ok v => [v] | Raise _ => [] end
      | Type_ TStr => [VStr token]
      | Type_ TList | Type_ TListStr => [VArgs (token :: tokens')]
      | _ => []
      end ++ pattern_values api pattern' tokens'
  | _, _ => []
  end.

(** ** The candidate list as an object (mgrcmd.py, lines 80-136)

    [Handler.handlers] is one list object, shared by all calls.
    [get_command] works on [list(Handler.handlers)], from which it removes
    candidates in place, and iterates over [list(handlers)].  To state what
    a call does to the shared list, the list objects are kept in a heap, by
    address, and [get_command] is written once more with the list operations
    of the source.  An element of a list stands for the reference to a
    handler object; [get_command] only reads the attributes of these
    objects. *)

Abbreviation Heap := (gmap nat (list Handler)).

(** A computation on the heap that returns or raises. *)
Definition Heaped (A : Type) : Type := Heap → result A * Heap.

Definition heap_ret {A} (a : A) : Heaped A := λ h, (Ok a, h).
Definition heap_raise {A} (e : CommandError) : Heaped A := λ h, (Raise e, h).
Definition heap_bind {A B} (m : Heaped A) (k : A → Heaped B) : Heaped B :=
  λ h, match m h with
       | (Ok a, h') => k a h'
       | (Raise e, h') => (Raise e, h')
       end.

(** [list(l)]: a new list object with the elements [l]. *)
Definition list_new (l : list Handler) : Heaped nat :=
  λ h, let a := fresh (dom h) in (Ok a, <[a := l]> h).

(** The elements of the list object at [a]. *)
Definition list_read (a : nat) : Heaped (list Handler) :=
  λ h, (Ok (default [] (h !! a)), h).

(** [l.remove(cmd)] on the list object at [a]. *)
Definition list_remove_at (a : nat) (cmd : Handler) : Heaped unit :=
  λ h, (Ok tt, alter (list_remove cmd) a h).

(** Lines 91-111 for the candidate [cmd]; [handlers] is the address of the
    local list and [_args] the local dict. *)
Definition scan_cmd_at (api : CommandManager) (arguments : list string)
    (idx : nat) (arg : string) (handlers : nat) (_args : gmap nat (list Value))
    (cmd : Handler) : Heaped (gmap nat (list Value)) :=
  match scan_body api arguments idx arg cmd with
  | Raise e => heap_raise e
  | Ok Remove => heap_bind (list_remove_at handlers cmd) (λ _, heap_ret _args)
  | Ok Pass => heap_ret _args
  | Ok (Append v) => heap_ret (alter (λ l, l ++ [v]) (hid cmd) _args)
  end.

(** Line 90, over the elements of the copy [list(handlers)]. *)
Fixpoint scan_position_at (api : CommandManager) (arguments : list string)
    (idx : nat) (arg : string) (handlers : nat) (snapshot : list Handler)
    (_args : gmap nat (list Value)) : Heaped (gmap nat (list Value)) :=
  match snapshot with
  | [] => heap_ret _args
  | cmd :: snapshot' =>
      heap_bind (scan_cmd_at api arguments idx arg handlers _args cmd)
        (scan_position_at api arguments idx arg handlers snapshot')
  end.

(** Lines 89-90: each round makes the copy [list(handlers)] and walks it. *)
Fixpoint scan_from_at (api : CommandManager) (arguments : list string)
    (idx : nat) (rest : list string) (handlers : nat)
    (_args : gmap nat (list Value)) : Heaped (gmap nat (list Value)) :=
  match rest with
  | [] => heap_ret _args
  | arg :: rest' =>
      heap_bind (list_read handlers) (λ elements,
      heap_bind (list_new elements) (λ copy,
      heap_bind (list_read copy) (λ snapshot,
      heap_bind (scan_position_at api arguments idx arg handlers snapshot _args)
        (scan_from_at api arguments (S idx) rest' handlers))))
  end.

(** Lines 117-123, over the elements of the copy; returns [arg_errors]. *)
Fixpoint arity_check_at (arguments : list string) (handlers : nat)
    (snapshot arg_errors : list Handler) : Heaped (list Handler) :=
  match snapshot with
  | [] => heap_ret arg_errors
  | cmd :: snapshot' =>
      if missing_required arguments cmd
      then heap_bind (list_remove_at handlers cmd)
             (λ _, arity_check_at arguments handlers snapshot' (arg_errors ++ [cmd]))
      else arity_check_at arguments handlers snapshot' arg_errors
  end.

(** [get_command], with [Handler.handlers] the list object at the address
    [Handler_handlers_addr]. *)
Definition get_command_at (api : CommandManager) (Handler_handlers_addr : nat)
    (ctx : CommandContext) : Heaped (PyFunction * Kwargs) :=
  match arguments ctx with
  | [] => heap_raise CommandNotFoundError
  | _ =>
      heap_bind (list_read Handler_handlers_addr) (λ registered,
      heap_bind (list_new registered) (λ handlers,
      heap_bind (list_read handlers) (λ elements,
      let _args := list_to_map ((λ hdl, (hid hdl, [])) <$> elements) in
      heap_bind (scan_from_at api (arguments ctx) 0 (arguments ctx) handlers _args)
        (λ _args,
      heap_bind (list_read handlers) (λ elements,
      match elements with
      | [] => heap_raise CommandNotFoundError
      | _ =>
          heap_bind (list_new elements) (λ copy,
          heap_bind (list_read copy) (λ snapshot,
          heap_bind (arity_check_at (arguments ctx) handlers snapshot []) (λ arg_errors,
          heap_bind (list_read handlers) (λ elements,
          match elements with
          | [] =>
              match arg_errors with
              | [cmd] => heap_raise (CommandInfoError cmd)
              | _ => heap_raise CommandNotFoundError
              end
          | cmd :: _ =>
              match get_handler_params ctx (handler cmd)
                      (default [] (_args !! hid cmd)) with
              | Some kwargs => heap_ret (handler cmd, kwargs)
              | None => heap_raise (CommandInfoError cmd)
              end
          end))))
      end)))))
  end.

(** The heap [h'] has every object of [h], unchanged. *)
Definition keeps (h h' : Heap) : Prop := ∀ a, a ∈ dom h → h' !! a = h !! a.

(** The same, but for the list object at [handlers]. *)
Definition touches_only (handlers : nat) (h h' : Heap) : Prop :=
  ∀ a, a ∈ dom h → a ≠ handlers → h' !! a = h !! a.

(** The run on the heap ends like the run on values: with the same result
    and the same elements in the list object at [handlers], or with the
    same exception. *)
Definition simulates {A} (handlers : nat) (h : Heap)
    (pure : result (list Handler * A)) (run : result A * Heap) : Prop :=
  touches_only handlers h run.2
  ∧ match pure with
    | Ok (l, a) => run.1 = Ok a ∧ run.2 !! handlers = Some l
    | Raise e => run.1 = Raise e ∧ is_Some (run.2 !! handlers)
    end.

(** The two locals of a scan as a pair. *)
Definition scan_outcome (r : result ScanState)
  : result (list Handler * gmap nat (list Value)) :=
  st ← r; Ok (st_handlers st, st_args st).

(** * Properties *)

(** ** Auxiliary facts *)

Lemma bind_Ok {A B} (r : result A) (k : A → result B) (b : B) :
  r ≫= k = Ok b ↔ ∃ a, r = Ok a ∧ k a = Ok b.
Proof.
  unfold mbind, result_bind. destruct r as [a|e].
  - split; [by exists a | by intros (? & [= <-] & ?)].
  - split; [done | by intros (? & ? & _)].
Qed.

Lemma bind_Raise {A B} (r : result A) (k : A → result B) (e : CommandError) :
  r ≫= k = Raise e ↔ r = Raise e ∨ ∃ a, r = Ok a ∧ k a = Raise e.
Proof.
  unfold mbind, result_bind. destruct r as [a|e'].
  - split; [intros ?; right; by exists a | by intros [|(? & [= <-] & ?)]].
  - split; [intros [= ->]; by left | by intros [[= ->]|(? & ? & _)]].
Qed.

Lemma filter_cons_bool {A} (f : A → bool) (x : A) (l : list A) :
  filter (λ c, f c) (x :: l) = if f x then x :: filter (λ c, f c) l else filter (λ c, f c) l.
Proof. rewrite filter_cons. destruct (f x); by case_decide. Qed.

Lemma parse_raises api p arg e :
  parse api p arg = Raise e → ∃ m, e = CommandMessageError m.
Proof.
  unfold parse. destruct p; simpl; case_match; intros [= <-]; eauto.
Qed.

Section ListRemove.

Lemma list_remove_notin cmd l :
  (∀ x, x ∈ l → hid x ≠ hid cmd) → list_remove cmd l = l.
Proof.
  induction l as [|x l IH]; simpl; [done|]. intros H.
  case_decide as E.
  - exfalso. by apply (H x); [left|].
  - f_equal. apply IH. intros y Hy. apply H. by right.
Qed.

Lemma list_remove_app cmd l1 l2 :
  (∀ x, x ∈ l1 → hid x ≠ hid cmd) →
  list_remove cmd (l1 ++ cmd :: l2) = l1 ++ l2.
Proof.
  induction l1 as [|x l1 IH]; simpl; intros H.
  - by rewrite decide_True.
  - rewrite decide_False by (apply H; left).
    f_equal. apply IH. intros y Hy. apply H. by right.
Qed.

Lemma list_remove_sublist cmd l : list_remove cmd l `sublist_of` l.
Proof.
  induction l as [|x l IH]; simpl; [done|].
  case_decide; [by apply sublist_cons | by apply sublist_skip].
Qed.

End ListRemove.

(** ** The loops compute the per-candidate view *)

Section ScanFacts.

Variable api : CommandManager.
Variable arguments : list string.

Lemma scan_body_stays idx arg cmd a :
  scan_body api arguments idx arg cmd = Ok a →
  stays idx arg cmd = match a with Remove => false | _ => true end.
Proof.
  unfold scan_body, stays. destruct (args cmd !! idx) as [typ|].
  - destruct (unwrap_optional typ) as [text|p|[]|ts]; simpl;
      try (by intros [= <-]).
    + destruct (String.eqb _ _); by intros [= <-].
    + destruct (parse api p arg); simpl; [by intros [= <-] | done].
  - destruct (ignore_args_size cmd); by intros [= <-].
Qed.

Lemma scan_body_raises idx arg cmd e :
  scan_body api arguments idx arg cmd = Raise e →
  ∃ typ p m, args cmd !! idx = Some typ ∧ unwrap_optional typ = Parser p
             ∧ parse api p arg = Raise e ∧ e = CommandMessageError m.
Proof.
  unfold scan_body. destruct (args cmd !! idx) as [typ|].
  - destruct (unwrap_optional typ) as [text|p|[]|ts] eqn:E; simpl; try done.
    + by destruct (String.eqb _ _).
    + destruct (parse api p arg) as [v|e'] eqn:P; simpl; [done|].
      intros [= ->]. destruct (parse_raises _ _ _ _ P) as [m ->]. eauto 10.
  - by destruct (ignore_args_size cmd).
Qed.

Lemma apply_action_handlers idx arg cmd a st :
  scan_body api arguments idx arg cmd = Ok a →
  st_handlers (apply_action cmd a st) =
    if stays idx arg cmd then st_handlers st else list_remove cmd (st_handlers st).
Proof. intros H. rewrite (scan_body_stays _ _ _ _ H). by destruct a. Qed.

Lemma apply_action_args idx arg cmd a st :
  scan_body api arguments idx arg cmd = Ok a →
  st_args (apply_action cmd a st) =
    alter (λ l, l ++ emits api arguments idx arg cmd) (hid cmd) (st_args st).
Proof.
  intros H. unfold emits. rewrite H.
  destruct a; simpl; try done; symmetry; apply alter_id; intros; apply app_nil_r.
Qed.

(** One pass of the inner loop: the candidates of the snapshot that do not
    stay are removed, and each one's values are extended by what it emits. *)
Lemma scan_position_spec idx arg snapshot : ∀ pre st st',
  NoDup (hid <$> pre ++ snapshot) →
  st_handlers st = pre ++ snapshot →
  scan_position api arguments idx arg snapshot st = Ok st' →
  st_handlers st' = pre ++ filter (λ c, stays idx arg c) snapshot
  ∧ (∀ c, c ∈ snapshot →
       st_args st' !! hid c
       = (λ l, l ++ emits api arguments idx arg c) <$> st_args st !! hid c)
  ∧ (∀ k, k ∉ hid <$> snapshot → st_args st' !! k = st_args st !! k).
Proof.
  induction snapshot as [|cmd snapshot IH]; intros pre st st' ND Hh Hrun.
  { simpl in Hrun. injection Hrun as <-. simpl. split; [done|].
    split; [|done]. intros c Hc. by apply elem_of_nil in Hc. }
  simpl in Hrun. apply bind_Ok in Hrun as (st1 & Hcmd & Hrest).
  unfold scan_cmd in Hcmd. apply bind_Ok in Hcmd as (a & Hbody & [= <-]).
  pose proof (apply_action_handlers _ _ _ _ st Hbody) as Hh1.
  pose proof (apply_action_args _ _ _ _ st Hbody) as Ha1.
  rewrite fmap_app, fmap_cons in ND.
  assert (Hpre : ∀ x, x ∈ pre → hid x ≠ hid cmd).
  { intros x Hx E. apply NoDup_app in ND as (_ & ND & _).
    apply (ND (hid x)); [by apply list_elem_of_fmap_2|]. rewrite E. by left. }
  assert (Hcmd : hid cmd ∉ hid <$> snapshot).
  { apply NoDup_app in ND as (_ & _ & ND). by apply NoDup_cons in ND as []. }
  rewrite filter_cons_bool. destruct (stays idx arg cmd) eqn:Hs; simpl.
  -       destruct (IH (pre ++ [cmd]) (apply_action cmd a st) st') as (H1 & H2 & H3);
      [rewrite <- app_assoc; simpl; by rewrite fmap_app, fmap_cons
      |by rewrite Hh1, Hh, <- app_assoc | done | ].
    split; [by rewrite H1, <- app_assoc|]. split.
    + intros c [->|Hc]%elem_of_cons.
      * by rewrite H3, Ha1, lookup_alter_eq.
      * rewrite H2, Ha1 by done. rewrite lookup_alter_ne; [done|].
        intros E. apply Hcmd. rewrite E. by apply list_elem_of_fmap_2.
    + intros k Hk. rewrite ?fmap_cons in Hk. apply not_elem_of_cons in Hk as [Hk1 Hk2].
      rewrite H3, Ha1 by done. by rewrite lookup_alter_ne.
  - destruct (IH pre (apply_action cmd a st) st') as (H1 & H2 & H3);
      [ | by rewrite Hh1, Hh, list_remove_app | done | ].
    { rewrite fmap_app. apply NoDup_app in ND as (N1 & N2 & N3).
      apply NoDup_cons in N3 as [? N3]. apply NoDup_app. split_and!; [done| |done].
      intros x Hx Hx'. apply (N2 x Hx). by right. }
    split; [done|]. split.
    + intros c [->|Hc]%elem_of_cons.
      * by rewrite H3, Ha1, lookup_alter_eq.
      * rewrite H2, Ha1 by done. rewrite lookup_alter_ne; [done|].
        intros E. apply Hcmd. rewrite E. by apply list_elem_of_fmap_2.
    + intros k Hk. rewrite ?fmap_cons in Hk. apply not_elem_of_cons in Hk as [Hk1 Hk2].
      rewrite H3, Ha1 by done. by rewrite lookup_alter_ne.
Qed.

Lemma NoDup_hid_sublist (l1 l2 : list Handler) :
  l1 `sublist_of` l2 → NoDup (hid <$> l2) → NoDup (hid <$> l1).
Proof. intros Hs ND. eapply sublist_NoDup; [done|]. by apply fmap_sublist. Qed.

Lemma scan_position_ok idx arg snapshot : ∀ st,
  (∀ c, c ∈ snapshot → ∃ a, scan_body api arguments idx arg c = Ok a) →
  ∃ st', scan_position api arguments idx arg snapshot st = Ok st'.
Proof.
  induction snapshot as [|cmd snapshot IH]; intros st H; simpl; [by eexists|].
  destruct (H cmd) as [a Ha]; [by left|].
  unfold scan_cmd. rewrite Ha. simpl. apply IH. intros c Hc. apply H. by right.
Qed.

(** The whole scan, started at index [idx] on the tokens [rest]. *)
Lemma scan_from_spec rest : ∀ idx st st',
  NoDup (hid <$> st_handlers st) →
  scan_from api arguments idx rest st = Ok st' →
  st_handlers st' = filter (λ c, live_from idx rest c) (st_handlers st)
  ∧ (∀ c, c ∈ st_handlers st → live_from idx rest c →
       st_args st' !! hid c
       = (λ l, l ++ collected_from api arguments idx rest c) <$> st_args st !! hid c).
Proof.
  induction rest as [|arg rest IH]; intros idx st st' ND Hrun; simpl in Hrun.
  { injection Hrun as <-. split.
    - clear ND. induction (st_handlers st) as [|x l IHl]; [done|].
      rewrite filter_cons_True by done. by f_equal.
    - intros c _ _. destruct (st_args st !! hid c); simpl; [|done].
      by rewrite app_nil_r. }
  apply bind_Ok in Hrun as (st1 & Hpos & Hrest).
  destruct (scan_position_spec idx arg (st_handlers st) [] st st1) as (H1 & H2 & _);
    [done..|]. simpl in H1.
  destruct (IH (S idx) st1 st') as (G1 & G2); [|done|].
  { rewrite H1. eapply NoDup_hid_sublist; [apply sublist_filter|done]. }
  split.
  - rewrite G1, H1, list_filter_filter. apply list_filter_iff. intros c. simpl.
    rewrite andb_True. tauto.
  - intros c Hc Hl. simpl in Hl. apply andb_True in Hl as [Hs Hl].
    rewrite G2, H2; [|done| |done].
    + destruct (st_args st !! hid c); simpl; [|done]. by rewrite <- app_assoc.
    + rewrite H1. by apply list_elem_of_filter.
Qed.

Lemma scan_from_ok rest : ∀ idx st,
  NoDup (hid <$> st_handlers st) →
  (∀ i arg c, rest !! i = Some arg → c ∈ st_handlers st →
              live_from idx (take i rest) c →
              ∃ a, scan_body api arguments (idx + i) arg c = Ok a) →
  ∃ st', scan_from api arguments idx rest st = Ok st'.
Proof.
  induction rest as [|arg rest IH]; intros idx st ND H; simpl; [by eexists|].
  destruct (scan_position_ok idx arg (st_handlers st) st) as [st1 H1].
  { intros c Hc. specialize (H 0 arg c). rewrite Nat.add_0_r in H. by apply H. }
  rewrite H1. simpl.
  destruct (scan_position_spec idx arg (st_handlers st) [] st st1) as (E1 & _);
    [done..|]. simpl in E1.
  apply IH.
  - rewrite E1. eapply NoDup_hid_sublist; [apply sublist_filter|done].
  - intros i a c Hi Hc Hl. rewrite E1 in Hc. apply list_elem_of_filter in Hc as [Hs Hc].
    replace (S idx + i) with (idx + S i) by lia. apply H; [done..|].
    simpl. apply andb_True. by split.
Qed.

Lemma scan_position_app idx arg l1 l2 st :
  scan_position api arguments idx arg (l1 ++ l2) st
  = scan_position api arguments idx arg l1 st ≫= scan_position api arguments idx arg l2.
Proof.
  revert st. induction l1 as [|cmd l1 IH]; intros st; simpl; [done|].
  destruct (scan_cmd api arguments idx arg st cmd); simpl; [apply IH|done].
Qed.

Lemma scan_from_app l1 l2 : ∀ idx st,
  scan_from api arguments idx (l1 ++ l2) st
  = scan_from api arguments idx l1 st ≫= scan_from api arguments (idx + length l1) l2.
Proof.
  induction l1 as [|arg l1 IH]; intros idx st; simpl.
  - by rewrite Nat.add_0_r.
  - destruct (scan_position api arguments idx arg (st_handlers st) st); simpl; [|done].
    rewrite IH. by replace (S idx + length l1) with (idx + S (length l1)) by lia.
Qed.

Lemma live_from_app l1 l2 idx cmd :
  live_from idx (l1 ++ l2) cmd
  = live_from idx l1 cmd && live_from (idx + length l1) l2 cmd.
Proof.
  revert idx. induction l1 as [|arg l1 IH]; intros idx; simpl.
  - by rewrite Nat.add_0_r.
  - rewrite IH, andb_assoc. by replace (S idx + length l1) with (idx + S (length l1)) by lia.
Qed.

End ScanFacts.

Section MatchFacts.

Variable api : CommandManager.
Variable registry : list Handler.
Variable arguments : list string.
Hypothesis distinct : NoDup (hid <$> registry).

Lemma init_state_args (l : list Handler) c :
  c ∈ l → st_args (init_state l) !! hid c = Some [].
Proof.
  unfold init_state; simpl. induction l as [|x l IH]; [by intros ?%elem_of_nil|].
  intros Hc. rewrite fmap_cons. simpl.
  destruct (decide (hid x = hid c)) as [E|E].
  - by rewrite E, lookup_insert_eq.
  - rewrite lookup_insert_ne by done. apply IH.
    apply elem_of_cons in Hc as [->|]; [done|done].
Qed.

Lemma scan_spec st :
  scan api registry arguments = Ok st →
  st_handlers st = live_candidates arguments registry
  ∧ (∀ c, c ∈ registry → live_from 0 arguments c →
       st_args st !! hid c = Some (collected_from api arguments 0 arguments c)).
Proof.
  intros Hrun.
  destruct (scan_from_spec api arguments arguments 0 (init_state registry) st)
    as [H1 H2]; [done..|].
  split; [done|]. intros c Hc Hl. rewrite H2 by done.
  by rewrite init_state_args.
Qed.

Lemma arity_check_spec snapshot : ∀ pre errs,
  NoDup (hid <$> pre ++ snapshot) →
  arity_check arguments snapshot (pre ++ snapshot) errs
  = (pre ++ filter (λ c, negb (missing_required arguments c)) snapshot,
     errs ++ filter (λ c, missing_required arguments c) snapshot).
Proof.
  induction snapshot as [|cmd snapshot IH]; intros pre errs ND; simpl.
  { by rewrite !filter_nil, !app_nil_r. }
  rewrite !filter_cons_bool. destruct (missing_required arguments cmd); simpl.
  - rewrite list_remove_app, IH.
    + by rewrite <- app_assoc.
    + rewrite fmap_app, fmap_cons in ND. rewrite fmap_app.
      apply NoDup_app in ND as (N1 & N2 & N3).
      apply NoDup_cons in N3 as [? N3]. apply NoDup_app. split_and!; [done| |done].
      intros x Hx Hx'. apply (N2 x Hx). by right.
    + intros x Hx E. rewrite fmap_app, fmap_cons in ND.
      apply NoDup_app in ND as (_ & ND & _).
      apply (ND (hid x)); [by apply list_elem_of_fmap_2|]. rewrite E. by left.
  - replace (pre ++ cmd :: snapshot) with ((pre ++ [cmd]) ++ snapshot)
      by by rewrite <- app_assoc.
    rewrite IH; [by rewrite <- app_assoc|]. by rewrite <- app_assoc.
Qed.

Lemma live_candidates_NoDup : NoDup (hid <$> live_candidates arguments registry).
Proof. eapply NoDup_hid_sublist; [apply sublist_filter|done]. Qed.

Lemma survivors_filter :
  survivors arguments registry = filter (λ c, survives arguments c) registry.
Proof.
  unfold survivors, live_candidates. rewrite list_filter_filter.
  apply list_filter_iff. intros c. unfold survives. rewrite andb_True. tauto.
Qed.

(** The decision of the matching phase, once the scan has completed. *)
Lemma match_command_spec st :
  arguments ≠ [] →
  scan api registry arguments = Ok st →
  match_command api registry arguments =
    match survivors arguments registry with
    | w :: _ => Ok (w, collected_from api arguments 0 arguments w)
    | [] =>
        match arity_errors arguments registry with
        | [s] => Raise (CommandInfoError s)
        | _ => Raise CommandNotFoundError
        end
    end.
Proof.
  intros Hne Hrun. destruct (scan_spec st Hrun) as [Hh Ha].
  unfold match_command. destruct arguments as [|a0 rest] eqn:Eargs; [done|].
  rewrite <- Eargs in *. rewrite Hrun. simpl.
  pose proof (arity_check_spec (st_handlers st) [] []) as Hc. simpl in Hc.
  rewrite Hc by (rewrite Hh; apply live_candidates_NoDup). clear Hc.
  rewrite Hh. fold (survivors arguments registry) (arity_errors arguments registry).
  destruct (live_candidates arguments registry) as [|l0 ls] eqn:El.
  { unfold survivors, arity_errors. by rewrite El. }
  destruct (survivors arguments registry) as [|w ws] eqn:Es; [done|].
  rewrite Ha; [done| |].
  - assert (Hw : w ∈ survivors arguments registry) by (rewrite Es; left).
    unfold survivors, live_candidates in Hw.
    apply list_elem_of_filter in Hw as [_ Hw]. by apply list_elem_of_filter in Hw as [_ Hw].
  - assert (Hw : w ∈ survivors arguments registry) by (rewrite Es; left).
    unfold survivors, live_candidates in Hw.
    apply list_elem_of_filter in Hw as [_ Hw]. by apply list_elem_of_filter in Hw as [Hw _].
Qed.

Lemma match_command_scan_raises e :
  arguments ≠ [] →
  scan api registry arguments = Raise e →
  match_command api registry arguments = Raise e.
Proof.
  intros Hne Hrun. unfold match_command. destruct arguments; [done|]. by rewrite Hrun.
Qed.

End MatchFacts.

Lemma Handler_handlers_distinct : NoDup (hid <$> Handler_handlers).
Proof. apply (bool_decide_unpack _). vm_compute. exact I. Qed.

Section ScanRaises.

Variable api : CommandManager.
Variable arguments : list string.

Lemma scan_position_raises idx arg snapshot : ∀ st e,
  scan_position api arguments idx arg snapshot st = Raise e →
  ∃ m, e = CommandMessageError m.
Proof.
  induction snapshot as [|cmd snapshot IH]; intros st e; simpl; [done|].
  intros [H|(st1 & _ & H)]%bind_Raise; [|by eapply IH].
  unfold scan_cmd in H. apply bind_Raise in H as [H|(a & _ & H)]; [|done].
  apply scan_body_raises in H as (? & ? & m & _ & _ & _ & ->). by exists m.
Qed.

Lemma scan_from_raises rest : ∀ idx st e,
  scan_from api arguments idx rest st = Raise e → ∃ m, e = CommandMessageError m.
Proof.
  induction rest as [|arg rest IH]; intros idx st e; simpl; [done|].
  intros [H|(st1 & _ & H)]%bind_Raise; [by eapply scan_position_raises|by eapply IH].
Qed.

End ScanRaises.

(** ** C7: over-long input *)

(** C7.  A signature whose last element is not a rest capture
    ([ignore_args_size] is false) and that is shorter than the input is
    removed from [handlers] by the scan, and is never the chosen candidate. *)
Theorem overlong_input_eliminates api registry tokens cmd :
  NoDup (hid <$> registry) →
  ignore_args_size cmd = false →
  length (args cmd) < length tokens →
  (∀ st, scan api registry tokens = Ok st → cmd ∉ st_handlers st)
  ∧ (∀ values, match_command api registry tokens ≠ Ok (cmd, values)).
Proof.
  intros ND Hign Hlen.
  assert (Hdead : live_from 0 tokens cmd = false).
  { destruct (lookup_lt_is_Some_2 tokens (length (args cmd)) Hlen) as [arg Harg].
    rewrite <- (take_drop_middle _ _ _ Harg), live_from_app.
    rewrite length_take_le by lia. simpl.
    unfold stays at 1. rewrite lookup_ge_None_2 by done. rewrite Hign.
    by rewrite andb_false_r. }
  split.
  - intros st Hst Hin. destruct (scan_spec api registry tokens ND st Hst) as [Hh _].
    rewrite Hh in Hin. apply list_elem_of_filter in Hin as [Hl _].
    by rewrite Hdead in Hl.
  - intros values Hm.
    assert (Hne : tokens ≠ []) by (intros ->; simpl in Hlen; lia).
    destruct (scan api registry tokens) as [st|e] eqn:Hst.
    + rewrite (match_command_spec api registry tokens ND st Hne Hst) in Hm.
      destruct (survivors tokens registry) as [|w ws] eqn:Es.
      * by destruct (arity_errors tokens registry) as [|? [|]].
      * injection Hm as -> _.
        assert (Hw : cmd ∈ survivors tokens registry) by (rewrite Es; left).
        apply list_elem_of_filter in Hw as [_ Hw].
        apply list_elem_of_filter in Hw as [Hw _]. by rewrite Hdead in Hw.
    + by rewrite (match_command_scan_raises api registry tokens e Hne Hst) in Hm.
Qed.

Lemma overlong_input_eliminates_witness :
  (∀ st, scan api_example Handler_handlers ["listCommands"; "now"] = Ok st →
         handler_at 171 ∉ st_handlers st)
  ∧ (∀ values, match_command api_example Handler_handlers ["listCommands"; "now"]
               ≠ Ok (handler_at 171, values)).
Proof.
  apply (overlong_input_eliminates api_example Handler_handlers ["listCommands"; "now"]).
  - apply Handler_handlers_distinct.
  - reflexivity.
  - simpl. lia.
Defined.

(** ** C3: the two failure kinds of the matching phase *)

(** C3.  When the matching phase (lines 81-130) fails and the failure is not
    the message of a typed parser, the error is [CommandInfoError s] exactly
    when the input is not empty, no candidate is left after the arity check
    and the arity check removed the single candidate [s]; in every other such
    case, the empty input included, it is [CommandNotFoundError]. *)
Theorem resolution_failure_kinds api registry tokens e :
  NoDup (hid <$> registry) →
  match_command api registry tokens = Raise e →
  (∀ m, e ≠ CommandMessageError m) →
  (∀ s, e = CommandInfoError s
        ↔ tokens ≠ [] ∧ survivors tokens registry = []
          ∧ arity_errors tokens registry = [s])
  ∧ (e = CommandNotFoundError
     ↔ ¬ ∃ s, tokens ≠ [] ∧ survivors tokens registry = []
              ∧ arity_errors tokens registry = [s]).
Proof.
  intros ND Hm Hnomsg.
  destruct (decide (tokens = [])) as [->|Hne].
  { simpl in Hm. injection Hm as <-. split.
    - intros s. split; [done|]. by intros [? _].
    - split; [|done]. by intros _ (s & ? & _). }
  destruct (scan api registry tokens) as [st|e'] eqn:Hst.
  - rewrite (match_command_spec api registry tokens ND st Hne Hst) in Hm.
    destruct (survivors tokens registry) as [|w ws]; [|done].
    destruct (arity_errors tokens registry) as [|s0 [|s1 l]];
      injection Hm as <-.
    + split; [intros s; split; [done|by intros (_ & _ & ?)]|].
      split; [|done]. by intros _ (s & _ & _ & ?).
    + split.
      * intros s. split; [by intros [= ->]|]. by intros (_ & _ & [= ->]).
      * split; [done|]. intros H. exfalso. apply H. by exists s0.
    + split; [intros s; split; [done|by intros (_ & _ & ?)]|].
      split; [|done]. by intros _ (s & _ & _ & ?).
  - rewrite (match_command_scan_raises api registry tokens e' Hne Hst) in Hm.
    injection Hm as <-.
    destruct (scan_from_raises _ _ _ _ _ _ Hst) as [m ->]. by destruct (Hnomsg m).
Qed.

Lemma resolution_failure_kinds_witness :
  (∀ s, CommandInfoError (handler_at 299) = CommandInfoError s
        ↔ ["command"; "ping"; "addAlias"] ≠ []
          ∧ survivors ["command"; "ping"; "addAlias"] Handler_handlers = []
          ∧ arity_errors ["command"; "ping"; "addAlias"] Handler_handlers = [s])
  ∧ (CommandInfoError (handler_at 299) = CommandNotFoundError
     ↔ ¬ ∃ s, ["command"; "ping"; "addAlias"] ≠ []
              ∧ survivors ["command"; "ping"; "addAlias"] Handler_handlers = []
              ∧ arity_errors ["command"; "ping"; "addAlias"] Handler_handlers = [s]).
Proof.
  apply (resolution_failure_kinds api_example Handler_handlers
           ["command"; "ping"; "addAlias"] (CommandInfoError (handler_at 299))).
  - apply Handler_handlers_distinct.
  - vm_compute. reflexivity.
  - intros m. discriminate.
Defined.

(** ** C4: the first registered survivor wins *)

Lemma filter_head_split {A} (P : A → Prop) `{!∀ x, Decision (P x)} (l : list A) w ws :
  filter P l = w :: ws →
  ∃ pre post, l = pre ++ w :: post ∧ P w ∧ (∀ x, x ∈ pre → ¬ P x)
              ∧ ws = filter P post.
Proof.
  induction l as [|x l IH]; [done|]. rewrite filter_cons.
  destruct (decide (P x)) as [Hx|Hx].
  - intros [= -> <-]. exists [], l. split_and!; try done.
    intros y Hy. by apply elem_of_nil in Hy.
  - intros (pre & post & -> & Hw & Hpre & ->)%IH.
    exists (x :: pre), post. split_and!; try done.
    intros y [->|Hy]%elem_of_cons; [done|by apply Hpre].
Qed.

(** C4.  When the scan completes and some signature survives the scan and
    the arity check, the matching phase chooses the survivor that comes
    first in the registry: nothing registered before it survives, and the
    list of survivors, in registration order, starts with it. *)
Theorem first_registered_wins api registry tokens st c :
  NoDup (hid <$> registry) →
  tokens ≠ [] →
  scan api registry tokens = Ok st →
  c ∈ survivors tokens registry →
  ∃ w values pre post,
    match_command api registry tokens = Ok (w, values)
    ∧ registry = pre ++ w :: post
    ∧ survives tokens w
    ∧ (∀ c', c' ∈ pre → ¬ survives tokens c')
    ∧ survivors tokens registry = w :: filter (λ c', survives tokens c') post.
Proof.
  intros ND Hne Hst Hc.
  rewrite (match_command_spec api registry tokens ND st Hne Hst).
  rewrite survivors_filter in *.
  destruct (filter _ registry) as [|w ws] eqn:Ef; [by apply elem_of_nil in Hc|].
  destruct (filter_head_split _ _ _ _ Ef) as (pre & post & -> & Hw & Hpre & ->).
  by exists w, (collected_from api tokens 0 tokens w), pre, post.
Qed.

Lemma first_registered_wins_witness :
  ∃ w values pre post,
    match_command api_example registry_twins ["say"; "hi"] = Ok (w, values)
    ∧ registry_twins = pre ++ w :: post
    ∧ survives ["say"; "hi"] w
    ∧ (∀ c', c' ∈ pre → ¬ survives ["say"; "hi"] c')
    ∧ survivors ["say"; "hi"] registry_twins
      = w :: filter (λ c', survives ["say"; "hi"] c') post.
Proof.
  eapply (first_registered_wins api_example registry_twins ["say"; "hi"] _
            (default unregistered (last registry_twins))).
  - by apply (bool_decide_unpack _).
  - discriminate.
  - vm_compute. reflexivity.
  - vm_compute. right. left.
Defined.

(** ** C2: a failing parser ends the call *)

(** C2.  Suppose the scan has reached token [i] with state [st], has gone
    through the candidates [before] of the snapshot without raising, and the
    next candidate [cmd] has a typed parser at [i] that fails on the token.
    Then the whole call raises [CommandMessageError] with that parser's
    message, whatever the candidates [after] look like. *)
Theorem parser_failure_aborts api registry ctx i arg st before cmd after st1 p m :
  arguments ctx !! i = Some arg →
  scan_from api (arguments ctx) 0 (take i (arguments ctx)) (init_state registry) = Ok st →
  st_handlers st = before ++ cmd :: after →
  scan_position api (arguments ctx) i arg before st = Ok st1 →
  args cmd !! i = Some (Parser p) →
  parse api p arg = Raise (CommandMessageError m) →
  get_command api registry ctx = Raise (CommandMessageError m).
Proof.
  intros Harg Hpre Hsnap Hbefore Htyp Hparse.
  assert (Hscan : scan api registry (arguments ctx) = Raise (CommandMessageError m)).
  { unfold scan. rewrite <- (take_drop_middle _ _ _ Harg) at 2.
    rewrite scan_from_app, Hpre. simpl.
    rewrite length_take_le by (apply lookup_lt_Some in Harg; lia).
    rewrite Hsnap, scan_position_app, Hbefore. simpl.
    unfold scan_cmd, scan_body. rewrite Htyp. simpl. by rewrite Hparse. }
  assert (Hne : arguments ctx ≠ []) by (intros E; by rewrite E in Harg).
  unfold get_command. by rewrite (match_command_scan_raises _ _ _ _ Hne Hscan).
Qed.

Lemma parser_failure_aborts_witness :
  get_command api_example registry_parser_vs_literal (ctx_of ["show"; "all"])
  = Raise (CommandMessageError (msg_command "all")).
Proof.
  eapply (parser_failure_aborts api_example registry_parser_vs_literal
            (ctx_of ["show"; "all"]) 1 "all" _ [] _ _ _ CommandEntryArgument).
  - reflexivity.
  - vm_compute. reflexivity.
  - reflexivity.
  - reflexivity.
  - reflexivity.
  - vm_compute. reflexivity.
Defined.

(** ** C5: binding of the declared parameters *)

Section Binding.

Lemma bind_parameters_cons p params values kwargs :
  bind_parameters (p :: params) values kwargs =
    match bound_value values 0 p with
    | Some x => bind_parameters params (tail values) (<[pname p := x]> kwargs)
    | None => None
    end.
Proof.
  unfold bound_value. destruct values as [|v values]; simpl; [|done].
  destruct (nullable p); [done|]. by destruct (pdefault p).
Qed.

Lemma bound_value_tail values i p :
  bound_value (tail values) i p = bound_value values (S i) p.
Proof. unfold bound_value. by destruct values. Qed.

Lemma bind_parameters_spec params : ∀ values kwargs,
  NoDup (pname <$> params) →
  match bind_parameters params values kwargs with
  | Some kwargs' =>
      (∀ i p, params !! i = Some p →
         kwargs' !! pname p = bound_value values i p
         ∧ is_Some (bound_value values i p))
      ∧ (∀ k, k ∉ pname <$> params → kwargs' !! k = kwargs !! k)
  | None =>
      ∃ i p, params !! i = Some p ∧ values !! i = None
             ∧ nullable p = false ∧ pdefault p = None
  end.
Proof.
  induction params as [|p params IH]; intros values kwargs ND.
  { simpl. split; [|done]. intros i p Hi. by rewrite lookup_nil in Hi. }
  rewrite fmap_cons in ND. apply NoDup_cons in ND as [Hp ND].
  rewrite bind_parameters_cons.
  destruct (bound_value values 0 p) as [x|] eqn:Hx.
  - specialize (IH (tail values) (<[pname p := x]> kwargs) ND).
    destruct (bind_parameters params (tail values) _) as [kwargs'|].
    + destruct IH as [IH1 IH2]. split.
      * intros [|i] q Hq; simpl in Hq.
        -- injection Hq as <-. rewrite IH2 by done.
           by rewrite lookup_insert_eq, Hx.
        -- rewrite <- bound_value_tail. by apply IH1.
      * intros k Hk. rewrite fmap_cons in Hk. apply not_elem_of_cons in Hk as [Hk1 Hk2].
        rewrite IH2 by done. by rewrite lookup_insert_ne.
    + destruct IH as (i & q & Hq & Hv & Hn & Hd). exists (S i), q.
      split_and!; try done. by destruct values.
  - exists 0, p. unfold bound_value in Hx.
    destruct (values !! 0) eqn:Hv; [done|].
    destruct (nullable p); [done|]. by split_and!.
Qed.

End Binding.

(** C5.  Let [w] be the chosen candidate and [values] its positional values.
    Each declared parameter (after [self] and [ctx]) is bound, in order, to
    the next positional value if there is one, else to [None] when its
    annotation is nullable, else to its default; when a parameter has none of
    the three the call raises [CommandInfoError w].  Hence, when every
    parameter without a positional value is nullable, the call succeeds and
    binds these parameters to [None]. *)
Theorem binding_rule api registry ctx w values p_self p_ctx params :
  match_command api registry (arguments ctx) = Ok (w, values) →
  parameters (handler w) = p_self :: p_ctx :: params →
  NoDup (pname <$> params) →
  match get_command api registry ctx with
  | Ok (f, kwargs) =>
      f = handler w
      ∧ ∀ i p, params !! i = Some p →
          kwargs !! pname p = bound_value values i p
          ∧ is_Some (bound_value values i p)
  | Raise e =>
      e = CommandInfoError w
      ∧ ∃ i p, params !! i = Some p ∧ values !! i = None
               ∧ nullable p = false ∧ pdefault p = None
  end
  ∧ ((∀ i p, params !! i = Some p → values !! i = None → nullable p = true) →
     ∃ kwargs,
       get_command api registry ctx = Ok (handler w, kwargs)
       ∧ ∀ i p, params !! i = Some p → values !! i = None →
           kwargs !! pname p = Some VNone).
Proof.
  intros Hm Hps ND. unfold get_command. rewrite Hm. simpl.
  unfold get_handler_params. rewrite Hps.
  pose proof (bind_parameters_spec params values
                (<["ctx" := VCtx ctx]> (<["self" := VSelf]> ∅)) ND) as Hb.
  destruct (bind_parameters params values _) as [kwargs|].
  - destruct Hb as [Hb _]. split; [by split|].
    intros Hnull. exists kwargs. split; [done|]. intros i p Hp Hv.
    destruct (Hb i p Hp) as [-> _]. unfold bound_value. by rewrite Hv, (Hnull i p).
  - split; [by split|]. intros Hnull. destruct Hb as (i & p & Hp & Hv & Hn & _).
    by rewrite (Hnull i p Hp Hv) in Hn.
Qed.

Lemma binding_rule_witness :
  match get_command api_example Handler_handlers (ctx_of ["addCommand"; "ping"]) with
  | Ok (f, kwargs) =>
      f = handler (handler_at 203)
      ∧ ∀ i p, [param "name"; param_opt "handler_id"; param_opt "category"] !! i = Some p →
          kwargs !! pname p = bound_value [VStr "ping"] i p
          ∧ is_Some (bound_value [VStr "ping"] i p)
  | Raise e =>
      e = CommandInfoError (handler_at 203)
      ∧ ∃ i p, [param "name"; param_opt "handler_id"; param_opt "category"] !! i = Some p
               ∧ [VStr "ping"] !! i = None
               ∧ nullable p = false ∧ pdefault p = None
  end
  ∧ ((∀ i p, [param "name"; param_opt "handler_id"; param_opt "category"] !! i = Some p →
             [VStr "ping"] !! i = None → nullable p = true) →
     ∃ kwargs,
       get_command api_example Handler_handlers (ctx_of ["addCommand"; "ping"])
       = Ok (handler (handler_at 203), kwargs)
       ∧ ∀ i p, [param "name"; param_opt "handler_id"; param_opt "category"] !! i = Some p →
           [VStr "ping"] !! i = None → kwargs !! pname p = Some VNone).
Proof.
  apply (binding_rule api_example Handler_handlers (ctx_of ["addCommand"; "ping"])
           (handler_at 203) [VStr "ping"] (param "self") (param "ctx")).
  - vm_compute. reflexivity.
  - reflexivity.
  - by apply (bool_decide_unpack _).
Defined.

(** ** Two spellings of a command line *)

Section LetterCase.

Variable api : CommandManager.

Lemma parse_lower p a b : lower a = lower b → parse api p a = parse api p b.
Proof. unfold parse. by intros ->. Qed.

Lemma scan_body_lower tokens tokens' idx a b cmd :
  lower a = lower b →
  agree same_kind (scan_body api tokens idx a cmd) (scan_body api tokens' idx b cmd).
Proof.
  intros H. unfold scan_body. destruct (args cmd !! idx) as [typ|].
  - destruct (unwrap_optional typ) as [text|p|[]|ts]; simpl; try done.
    + rewrite H. by destruct (String.eqb _ _).
    + rewrite (parse_lower p a b H). by destruct (parse api p b).
  - by destruct (ignore_args_size cmd).
Qed.

Lemma apply_action_same_shape cmd a b s s' :
  same_kind a b → same_shape s s' →
  same_shape (apply_action cmd a s) (apply_action cmd b s').
Proof.
  intros Hk [Hh Ha]. destruct a, b; try done; split; simpl; try done.
  - by rewrite Hh.
  - intros k. rewrite !lookup_alter. case_decide; [|done].
    specialize (Ha (hid cmd)).
    destruct (st_args s !! hid cmd), (st_args s' !! hid cmd); simpl in *; try done.
    injection Ha as Ha. by rewrite !length_app, Ha.
Qed.

Lemma scan_position_lower tokens tokens' idx a b snapshot : ∀ s s',
  lower a = lower b → same_shape s s' →
  agree same_shape (scan_position api tokens idx a snapshot s)
                   (scan_position api tokens' idx b snapshot s').
Proof.
  induction snapshot as [|cmd snapshot IH]; intros s s' H Hs; simpl; [done|].
  unfold scan_cmd.
  pose proof (scan_body_lower tokens tokens' idx a b cmd H) as Hb.
  destruct (scan_body api tokens idx a cmd) as [x|e],
           (scan_body api tokens' idx b cmd) as [y|e']; simpl in *; try done.
  apply IH; [done|]. by apply apply_action_same_shape.
Qed.

Lemma scan_from_lower tokens tokens' rest : ∀ rest' idx s s',
  lower <$> rest = lower <$> rest' → same_shape s s' →
  agree same_shape (scan_from api tokens idx rest s)
                   (scan_from api tokens' idx rest' s').
Proof.
  induction rest as [|a rest IH]; intros [|b rest'] idx s s' H Hs; simpl; try done.
  injection H as Hab Hrest.
  pose proof (scan_position_lower tokens tokens' idx a b (st_handlers s) s s' Hab Hs) as Hp.
  destruct Hs as [<- _].
  destruct (scan_position api tokens idx a _ s) as [t|e],
           (scan_position api tokens' idx b _ s') as [t'|e']; simpl in *; try done.
  by apply IH.
Qed.

Lemma arity_check_length tokens tokens' snapshot : ∀ hs errs,
  length tokens = length tokens' →
  arity_check tokens snapshot hs errs = arity_check tokens' snapshot hs errs.
Proof.
  induction snapshot as [|c l IH]; intros hs errs Hl; simpl; [done|].
  unfold missing_required. rewrite Hl. by rewrite !IH.
Qed.

Lemma match_command_lower registry tokens tokens' :
  lower <$> tokens = lower <$> tokens' →
  agree (λ x y, x.1 = y.1 ∧ length x.2 = length y.2)
        (match_command api registry tokens) (match_command api registry tokens').
Proof.
  intros H. assert (Hlen : length tokens = length tokens').
  { by rewrite <- (length_fmap lower tokens), H, length_fmap. }
  unfold match_command.
  destruct tokens as [|a rest] eqn:E, tokens' as [|b rest'] eqn:E'; try done.
  rewrite <- E, <- E' in *. clear E E'.
  assert (Hs : agree same_shape (scan api registry tokens) (scan api registry tokens')).
  { by apply scan_from_lower. }
  destruct (scan api registry tokens) as [s|e], (scan api registry tokens') as [s'|e'];
    simpl in *; try done.
  destruct Hs as [Hh Ha]. rewrite <- Hh.
  destruct (st_handlers s) as [|h hs] eqn:Ehs; [done|]. rewrite <- Ehs.
  rewrite <- (arity_check_length tokens tokens') by done.
  destruct (arity_check tokens (st_handlers s) (st_handlers s) []) as [[|w ws] errs];
    simpl.
  - by destruct errs as [|? [|]].
  - split; [done|]. specialize (Ha (hid w)).
    destruct (st_args s !! hid w), (st_args s' !! hid w); simpl in *; try done.
    by injection Ha.
Qed.

Lemma bind_parameters_length params : ∀ values values' kwargs kwargs',
  length values = length values' →
  is_Some (bind_parameters params values kwargs)
  ↔ is_Some (bind_parameters params values' kwargs').
Proof.
  induction params as [|p params IH]; intros values values' kwargs kwargs' Hl; simpl.
  { split; by eexists. }
  destruct values as [|v values], values' as [|v' values']; simpl in Hl; try done.
  - destruct (nullable p); [by apply IH|].
    destruct (pdefault p); [by apply IH|done].
  - apply IH. lia.
Qed.

End LetterCase.

(** ** Round trip, and the optional rest capture *)

Lemma resolves_with (r : result (PyFunction * Kwargs)) f (P : Kwargs → Prop) :
  match r with
  | Ok (g, kwargs) => g = f ∧ P kwargs
  | Raise _ => False
  end →
  ∃ kwargs, r = Ok (f, kwargs) ∧ P kwargs.
Proof. destruct r as [[g kwargs]|e]; [|done]. intros [-> H]. by exists kwargs. Qed.

(** The documented example: [addCommand ping] resolves to the handler of line
    204 with [name] bound to the token and the two optional parameters bound
    to [None]. *)
Example addCommand_ping api :
  ∃ kwargs,
    get_command api Handler_handlers (ctx_of ["addCommand"; "ping"])
    = Ok (handler (handler_at 203), kwargs)
    ∧ kwargs !! "name" = Some (VStr "ping")
    ∧ kwargs !! "handler_id" = Some VNone
    ∧ kwargs !! "category" = Some VNone.
Proof. apply resolves_with. vm_compute. by split_and!. Qed.

(** On the signatures that end in [list[str] | None] the scan
    unwraps the union and captures the rest at its position, but
    [ignore_args_size] compares the union itself with [list[str]], so one
    more token removes the candidate.  [createGroup staff ping] resolves;
    [createGroup staff ping pong] is not found, whatever the application
    state. *)
Theorem optional_rest_capture_rejects_second_token api :
  (∃ kwargs,
     get_command api Handler_handlers (ctx_of ["createGroup"; "staff"; "ping"])
     = Ok (handler (handler_at 487), kwargs)
     ∧ kwargs !! "allowed_commands" = Some (VArgs ["ping"]))
  ∧ get_command api Handler_handlers (ctx_of ["createGroup"; "staff"; "ping"; "pong"])
    = Raise CommandNotFoundError
  ∧ get_command api Handler_handlers (ctx_of ["addCategory"; "fun"; "Fun"; "ping"; "pong"])
    = Raise CommandNotFoundError.
Proof.
  split_and!.
  - apply resolves_with. vm_compute. by split.
  - vm_compute. reflexivity.
  - vm_compute. reflexivity.
Qed.

(** ** The rest capture *)

Section RestCapture.

Variable api : CommandManager.
Variable tokens : list string.

Lemma stays_lower idx a b cmd : lower a = lower b → stays idx a cmd = stays idx b cmd.
Proof. unfold stays. by intros ->. Qed.

Lemma live_from_lower rest : ∀ rest' idx cmd,
  lower <$> rest = lower <$> rest' →
  live_from idx rest cmd = live_from idx rest' cmd.
Proof.
  induction rest as [|a rest IH]; intros [|b rest'] idx cmd H; try done.
  injection H as Hab H. simpl. by rewrite (stays_lower idx a b cmd Hab), (IH rest').
Qed.

Lemma collected_from_app l1 l2 idx cmd :
  collected_from api tokens idx (l1 ++ l2) cmd
  = collected_from api tokens idx l1 cmd
    ++ collected_from api tokens (idx + length l1) l2 cmd.
Proof.
  revert idx. induction l1 as [|a l1 IH]; intros idx; simpl.
  - by rewrite Nat.add_0_r.
  - rewrite IH, <- app_assoc.
    by replace (S idx + length l1) with (idx + S (length l1)) by lia.
Qed.

Lemma missing_required_long cmd :
  (length (args cmd) ≤ length tokens)%nat → missing_required tokens cmd = false.
Proof. intros H. unfold missing_required. by rewrite drop_ge. Qed.

Lemma scan_body_ok_of accepted i arg cmd :
  parser_free_or accepted i cmd →
  (∀ p, accepted p → ∃ v, parse api p arg = Ok v) →
  ∃ a, scan_body api tokens i arg cmd = Ok a.
Proof.
  unfold parser_free_or, scan_body. intros Hfree Hacc.
  destruct (args cmd !! i) as [typ|]; [|destruct (ignore_args_size cmd); by eexists].
  destruct (unwrap_optional typ) as [text|p|[]|ts]; try by eexists.
  - destruct (String.eqb _ _); by eexists.
  - destruct (Hacc p Hfree) as [v ->]. by eexists.
Qed.

Section Candidate.

Variables (cmd : Handler) (pattern : list ArgSpec) (typ : ArgSpec).
Hypothesis shape : args cmd = pattern ++ [typ].
Hypothesis is_rest : is_list_type typ.

Lemma rest_unwrapped : unwrap_optional typ = typ.
Proof. by destruct typ as [| |[]|]. Qed.

Lemma rest_ignores_size : ignore_args_size cmd = true.
Proof.
  unfold ignore_args_size. rewrite shape, last_snoc. by apply Is_true_true.
Qed.

Lemma scan_body_at_rest arg :
  scan_body api tokens (length pattern) arg cmd
  = Ok (Append (VArgs (drop (length pattern) tokens))).
Proof.
  unfold scan_body. rewrite shape, list_lookup_middle by done.
  rewrite rest_unwrapped. by destruct typ as [| |[]|].
Qed.

Lemma scan_body_past_rest idx arg :
  length pattern < idx → scan_body api tokens idx arg cmd = Ok Pass.
Proof.
  intros H. unfold scan_body. rewrite lookup_ge_None_2.
  - by rewrite rest_ignores_size.
  - rewrite shape, length_app. simpl. lia.
Qed.

Lemma live_from_rest rest : ∀ idx,
  (length pattern ≤ idx)%nat → live_from idx rest cmd = true.
Proof.
  induction rest as [|a rest IH]; intros idx H; simpl; [done|].
  rewrite IH by lia. rewrite andb_true_r.
  destruct (decide (idx = length pattern)) as [->|Hne].
  - by rewrite (scan_body_stays _ _ _ _ _ _ (scan_body_at_rest a)).
  - by rewrite (scan_body_stays _ _ _ _ _ _ (scan_body_past_rest idx a ltac:(lia))).
Qed.

Lemma collected_past_rest rest : ∀ idx,
  length pattern < idx → collected_from api tokens idx rest cmd = [].
Proof.
  induction rest as [|a rest IH]; intros idx H; simpl; [done|].
  rewrite IH by lia. unfold emits. by rewrite scan_body_past_rest.
Qed.

Lemma collected_at_rest arg rest :
  collected_from api tokens (length pattern) (arg :: rest) cmd
  = [VArgs (drop (length pattern) tokens)].
Proof.
  simpl. rewrite collected_past_rest by lia. unfold emits.
  by rewrite scan_body_at_rest.
Qed.

End Candidate.

End RestCapture.


(** ** The rest capture on the shipped registry *)

Section Emits.

Variable api : CommandManager.
Variable tokens : list string.

Lemma emits_literal idx arg cmd text :
  args cmd !! idx = Some (Literal text) → emits api tokens idx arg cmd = [].
Proof.
  intros H. unfold emits, scan_body. rewrite H. simpl. by destruct (String.eqb _ _).
Qed.

Lemma emits_parser idx arg cmd p v :
  args cmd !! idx = Some (Parser p) → parse api p arg = Ok v →
  emits api tokens idx arg cmd = [v].
Proof. intros H Hp. unfold emits, scan_body. rewrite H. simpl. by rewrite Hp. Qed.
End Emits.

Lemma rest_candidates cmd :
  cmd ∈ Handler_handlers → ignore_args_size cmd = true →
  cmd = handler_at 299 ∨ cmd = handler_at 327.
Proof.
  intros Hin Hign.
  assert (H : cmd ∈ filter (λ c, ignore_args_size c) Handler_handlers).
  { apply list_elem_of_filter. split; [by apply Is_true_true|done]. }
  vm_compute in H.
  apply elem_of_cons in H as [->|H]; [by left|].
  apply elem_of_cons in H as [->|H]; [by right|].
  by apply elem_of_nil in H.
Qed.

Lemma Forall2_3 {A B} (R : A → B → Prop) a b c l :
  Forall2 R [a; b; c] l → ∃ x y z, l = [x; y; z] ∧ R a x ∧ R b y ∧ R c z.
Proof.
  intros H. inversion H as [|? x ? l1 Ha H1]; subst.
  inversion H1 as [|? y ? l2 Hb H2]; subst.
  inversion H2 as [|? z ? l3 Hc H3]; subst.
  inversion H3; subst. by exists x, y, z.
Qed.

Lemma alias_commands api ctx (text : string) cmd t0 t1 t2 r rest v :
  (cmd = handler_at 299 ∧ text = "addAlias") ∨ (cmd = handler_at 327 ∧ text = "removeAlias") →
  arguments ctx = t0 :: t1 :: t2 :: r :: rest →
  lower "command" = lower t0 →
  parse api CommandEntryArgument t1 = Ok v →
  lower text = lower t2 →
  ∃ kwargs, get_command api Handler_handlers ctx = Ok (handler cmd, kwargs)
            ∧ kwargs !! "alias" = Some (VArgs (r :: rest)).
Proof.
  intros Hcmd Hargs H0 H1 H2.
  set (tokens := arguments ctx) in *.
  set (pattern := [Literal "command"; Parser CommandEntryArgument; Literal text]).
  assert (Hshape : args cmd = pattern ++ [Type_ TListStr]).
  { by destruct Hcmd as [[-> ->]|[-> ->]]. }
  assert (Hparams : parameters (handler cmd)
                    = [param "self"; param "ctx"; param "name"; param "alias"]).
  { by destruct Hcmd as [[-> ->]|[-> ->]]. }
  assert (Hlow : ∀ l, lower <$> t0 :: t1 :: t2 :: l = lower <$> "command" :: t1 :: text :: l).
  { intros l. simpl. by rewrite <- H0, <- H2. }
  assert (Hlive : filter (λ c, live_from 0 ["command"; t1; text] c) Handler_handlers = [cmd]).
  { destruct Hcmd as [[-> ->]|[-> ->]]; vm_compute; reflexivity. }
  assert (Hprefix : ∀ c l, c ∈ Handler_handlers → live_from 0 (t0 :: t1 :: t2 :: l) c → c = cmd).
  { intros c l Hc Hl. rewrite (live_from_lower _ _ _ _ (Hlow l)) in Hl.
    change ("command" :: t1 :: text :: l) with (["command"; t1; text] ++ l) in Hl.
    rewrite live_from_app in Hl. apply andb_True in Hl as [Hl _].
    assert (Hin : c ∈ [cmd]) by (rewrite <- Hlive; by apply list_elem_of_filter).
    by apply list_elem_of_singleton in Hin. }
  assert (Hcmd_in : cmd ∈ Handler_handlers).
  { assert (Hin : cmd ∈ [cmd]) by left. rewrite <- Hlive in Hin.
    by apply list_elem_of_filter in Hin as [_ ?]. }
  assert (Hcmd_live : live_from 0 tokens cmd = true).
  { rewrite Hargs, (live_from_lower _ _ _ _ (Hlow (r :: rest))).
    change ("command" :: t1 :: text :: r :: rest) with (["command"; t1; text] ++ r :: rest).
    rewrite live_from_app. apply andb_true_intro. split.
    - assert (Hin : cmd ∈ [cmd]) by left. rewrite <- Hlive in Hin.
      apply list_elem_of_filter in Hin as [Hin _]. by apply Is_true_true.
    - by apply (live_from_rest api tokens cmd pattern (Type_ TListStr)). }
  assert (Hlong : (length (args cmd) ≤ length tokens)%nat).
  { rewrite Hshape, Hargs. simpl. lia. }
  assert (Hsurv : survivors tokens Handler_handlers = [cmd]).
  { rewrite survivors_filter.
    rewrite <- (list_filter_filter_l _ (λ c, live_from 0 ["command"; t1; text] c)).
    - rewrite Hlive. apply (filter_singleton_True _ _ []). unfold survives.
      by rewrite Hcmd_live, missing_required_long.
    - intros c Hc. unfold survives in Hc. apply andb_True in Hc as [Hc _].
      rewrite Hargs, (live_from_lower _ _ _ _ (Hlow (r :: rest))) in Hc.
      change ("command" :: t1 :: text :: r :: rest)
        with (["command"; t1; text] ++ r :: rest) in Hc.
      rewrite live_from_app in Hc. by apply andb_True in Hc as [Hc _]. }
  assert (Hscan : ∃ st, scan api Handler_handlers tokens = Ok st).
  { apply scan_from_ok; [apply Handler_handlers_distinct|].
    intros i arg c Hi Hc Hl. simpl in Hc. rewrite Hargs in Hi, Hl.
    destruct i as [|[|[|i]]]; simpl in Hi, Hl.
    - apply (scan_body_ok_of _ _ (λ _, false)); [|done].
      revert c Hc. apply Forall_forall, (bool_decide_unpack _). vm_compute. exact I.
    - injection Hi as <-. rewrite andb_true_r in Hl.
      rewrite (stays_lower 0 t0 "command") in Hl by done.
      apply (scan_body_ok_of _ _ (λ p, bool_decide (p = CommandEntryArgument))).
      + assert (Hin : c ∈ filter (λ c, stays 0 "command" c) Handler_handlers)
          by by apply list_elem_of_filter.
        clear Hc Hl. revert c Hin. apply Forall_forall, (bool_decide_unpack _).
        vm_compute. exact I.
      + intros p ->%bool_decide_unpack. by exists v.
    - injection Hi as <-.
      apply (scan_body_ok_of _ _ (λ _, false)); [|done].
      assert (Hin : c ∈ filter (λ c, live_from 0 ["command"; t1] c) Handler_handlers).
      { apply list_elem_of_filter. split; [|done].
        rewrite <- (live_from_lower [t0; t1]); [done|]. simpl. by rewrite <- H0. }
      clear Hc Hl. revert c Hin. apply Forall_forall, (bool_decide_unpack _).
      vm_compute. exact I.
    - assert (c = cmd) as -> by (by apply (Hprefix c (take i (r :: rest)))).
      destruct i as [|i].
      + rewrite (scan_body_at_rest api tokens cmd pattern (Type_ TListStr)) by done.
        by eexists.
      + rewrite (scan_body_past_rest api tokens cmd pattern (Type_ TListStr)); try done.
        * by eexists.
        * simpl. lia. }
  destruct Hscan as [st Hscan].
  assert (Hne : tokens ≠ []) by by rewrite Hargs.
  unfold get_command. fold tokens.
  rewrite (match_command_spec api Handler_handlers tokens Handler_handlers_distinct
             st Hne Hscan), Hsurv. simpl.
  assert (Hvals : collected_from api tokens 0 tokens cmd = [v; VArgs (r :: rest)]).
  { rewrite Hargs at 2.
    change (t0 :: t1 :: t2 :: r :: rest) with ([t0; t1; t2] ++ r :: rest).
    rewrite collected_from_app.
    change (0 + length [t0; t1; t2]) with (length pattern).
    rewrite (collected_at_rest api tokens cmd pattern (Type_ TListStr)) by done.
    simpl collected_from.
    rewrite (emits_literal api tokens 0 t0 cmd "command") by by rewrite Hshape.
    rewrite (emits_parser api tokens 1 t1 cmd CommandEntryArgument v)
      by (done || by rewrite Hshape).
    rewrite (emits_literal api tokens 2 t2 cmd text) by by rewrite Hshape.
    simpl. by rewrite Hargs. }
  rewrite Hvals. unfold get_handler_params. rewrite Hparams. simpl.
  eexists. split; [done|]. apply lookup_insert_eq.
Qed.

(** X1.  On the shipped registry, a signature that ends in a plain
    [list[str]] (the two alias commands) and a command line whose first
    tokens fit the elements before it, with at least one token left, resolve
    to that signature's function, and its last parameter receives exactly
    the remaining tokens. *)
Theorem rest_capture_receives_suffix api ctx cmd pattern typ pre rest :
  cmd ∈ Handler_handlers →
  args cmd = pattern ++ [typ] →
  is_list_type typ →
  arguments ctx = pre ++ rest →
  Forall2 (matches_element api) pattern pre →
  rest ≠ [] →
  ∃ kwargs p,
    get_command api Handler_handlers ctx = Ok (handler cmd, kwargs)
    ∧ last (parameters (handler cmd)) = Some p
    ∧ kwargs !! pname p = Some (VArgs rest).
Proof.
  intros Hin Hshape Hrest Hargs Hfit Hne.
  assert (Hign : ignore_args_size cmd = true).
  { unfold ignore_args_size. rewrite Hshape, last_snoc. by apply Is_true_true. }
  assert (Hcase : (cmd = handler_at 299 ∧ pattern = [Literal "command";
                     Parser CommandEntryArgument; Literal "addAlias"])
                  ∨ (cmd = handler_at 327 ∧ pattern = [Literal "command";
                     Parser CommandEntryArgument; Literal "removeAlias"])).
  { destruct (rest_candidates cmd Hin Hign) as [->| ->]; [left|right];
      (split; [done|]);
      change (args _) with ([Literal "command"; Parser CommandEntryArgument;
                             Literal "addAlias"] ++ [Type_ TListStr]) in Hshape
      || change (args _) with ([Literal "command"; Parser CommandEntryArgument;
                             Literal "removeAlias"] ++ [Type_ TListStr]) in Hshape;
      by apply app_inj_tail in Hshape as [<- _]. }
  destruct rest as [|r rest]; [done|].
  destruct Hcase as [[-> ->]|[-> ->]];
    apply Forall2_3 in Hfit as (t0 & t1 & t2 & -> & H0 & [v H1] & H2);
    simpl in Hargs.
  - destruct (alias_commands api ctx "addAlias" (handler_at 299) t0 t1 t2 r rest v)
      as (kwargs & Hk & Ha); try done; [by left|].
    exists kwargs, (param "alias"). by split_and!.
  - destruct (alias_commands api ctx "removeAlias" (handler_at 327) t0 t1 t2 r rest v)
      as (kwargs & Hk & Ha); try done; [by right|].
    exists kwargs, (param "alias"). by split_and!.
Qed.

Lemma rest_capture_receives_suffix_witness :
  ∃ kwargs p,
    get_command api_example Handler_handlers
      (ctx_of ["command"; "ping"; "addAlias"; "p"; "pp"])
    = Ok (handler (handler_at 299), kwargs)
    ∧ last (parameters (handler (handler_at 299))) = Some p
    ∧ kwargs !! pname p = Some (VArgs ["p"; "pp"]).
Proof.
  apply (rest_capture_receives_suffix api_example
           (ctx_of ["command"; "ping"; "addAlias"; "p"; "pp"]) (handler_at 299)
           [Literal "command"; Parser CommandEntryArgument; Literal "addAlias"]
           (Type_ TListStr) ["command"; "ping"; "addAlias"] ["p"; "pp"]).
  - apply list_elem_of_lookup. exists 6. reflexivity.
  - reflexivity.
  - exact I.
  - reflexivity.
  - repeat constructor. exists (VEntry "ping" ping_entry). vm_compute. reflexivity.
  - discriminate.
Defined.

(** ** Further properties of the matching phase *)

Lemma match_command_chooses_survivor api registry tokens w values :
  NoDup (hid <$> registry) →
  match_command api registry tokens = Ok (w, values) →
  w ∈ survivors tokens registry.
Proof.
  intros ND Hm. destruct (decide (tokens = [])) as [->|Hne]; [done|].
  destruct (scan api registry tokens) as [st|e] eqn:Hst.
  - rewrite (match_command_spec api registry tokens ND st Hne Hst) in Hm.
    destruct (survivors tokens registry) as [|w' ws].
    + by destruct (arity_errors tokens registry) as [|? [|]].
    + injection Hm as -> _. left.
  - by rewrite (match_command_scan_raises api registry tokens e Hne Hst) in Hm.
Qed.

Lemma survivors_live tokens registry cmd :
  cmd ∈ survivors tokens registry →
  cmd ∈ registry ∧ live_from 0 tokens cmd = true ∧ missing_required tokens cmd = false.
Proof.
  unfold survivors, live_candidates.
  intros [Hm [Hl Hin]%list_elem_of_filter]%list_elem_of_filter.
  split_and!; [done|by apply Is_true_true|]. by destruct (missing_required tokens cmd).
Qed.

(** X2.  A signature that ends in a plain [list] or [list[str]] needs a
    token at that position: when the input stops at or before it, the arity
    check counts the signature as incomplete, so it is never the chosen
    candidate, and it is among the arity errors whenever it is still a
    candidate after the scan. *)
Theorem rest_capture_needs_a_token api registry tokens cmd pattern typ :
  NoDup (hid <$> registry) →
  args cmd = pattern ++ [typ] →
  is_list_type typ →
  (length tokens ≤ length pattern)%nat →
  (∀ values, match_command api registry tokens ≠ Ok (cmd, values))
  ∧ (cmd ∈ registry → live_from 0 tokens cmd → cmd ∈ arity_errors tokens registry).
Proof.
  intros ND Hshape Hrest Hlen.
  assert (Hmiss : missing_required tokens cmd = true).
  { unfold missing_required. rewrite Hshape, drop_app_le by done.
    apply existsb_exists. exists typ. split.
    - apply list_elem_of_In, elem_of_app. right. left.
    - by destruct typ as [| |[]|]. }
  split.
  - intros values Hm.
    apply match_command_chooses_survivor, survivors_live in Hm as (_ & _ & Hm); [|done].
    by rewrite Hmiss in Hm.
  - intros Hin Hl. unfold arity_errors, live_candidates.
    apply list_elem_of_filter. split; [by rewrite Hmiss|]. by apply list_elem_of_filter.
Qed.

Lemma rest_capture_needs_a_token_witness :
  (∀ values, match_command api_example Handler_handlers ["command"; "ping"; "addAlias"]
             ≠ Ok (handler_at 299, values))
  ∧ (handler_at 299 ∈ Handler_handlers →
     live_from 0 ["command"; "ping"; "addAlias"] (handler_at 299) →
     handler_at 299 ∈ arity_errors ["command"; "ping"; "addAlias"] Handler_handlers).
Proof.
  apply (rest_capture_needs_a_token api_example Handler_handlers
           ["command"; "ping"; "addAlias"] (handler_at 299)
           [Literal "command"; Parser CommandEntryArgument; Literal "addAlias"]
           (Type_ TListStr)).
  - apply Handler_handlers_distinct.
  - reflexivity.
  - exact I.
  - simpl. lia.
Defined.

Lemma dead_when_overlong tokens cmd :
  ignore_args_size cmd = false →
  length (args cmd) < length tokens →
  live_from 0 tokens cmd = false.
Proof.
  intros Hign Hlen.
  destruct (lookup_lt_is_Some_2 tokens (length (args cmd)) Hlen) as [arg Harg].
  rewrite <- (take_drop_middle _ _ _ Harg), live_from_app.
  rewrite length_take_le by lia. simpl.
  unfold stays at 1. rewrite lookup_ge_None_2 by done. rewrite Hign.
  by rewrite andb_false_r.
Qed.

(** X3.  A signature that ends in an optional list ([list[str] | None]):
    the scan unwraps the union and stores the rest of the tokens at that
    position, like a rest capture; but [ignore_args_size] looks at the union
    itself, so that any token past that position removes the signature and
    it is never chosen for such an input. *)
Theorem optional_rest_capture_single_token api registry tokens cmd pattern t ts :
  NoDup (hid <$> registry) →
  args cmd = pattern ++ [Union (t :: ts)] →
  is_list_type (Type_ t) →
  TNoneType ∈ ts →
  (∀ arg, scan_body api tokens (length pattern) arg cmd
          = Ok (Append (VArgs (drop (length pattern) tokens))))
  ∧ ignore_args_size cmd = false
  ∧ (length (args cmd) < length tokens →
     ∀ values, match_command api registry tokens ≠ Ok (cmd, values)).
Proof.
  intros ND Hshape Hlist Hnone.
  assert (Hign : ignore_args_size cmd = false).
  { unfold ignore_args_size. by rewrite Hshape, last_snoc. }
  split_and!; [|done|].
  - intros arg. unfold scan_body. rewrite Hshape, list_lookup_middle by done.
    unfold unwrap_optional, is_optional.
    rewrite bool_decide_eq_true_2 by (by right). by destruct t.
  - intros Hlen values Hm.
    apply match_command_chooses_survivor, survivors_live in Hm as (_ & Hm & _); [|done].
    by rewrite (dead_when_overlong tokens cmd Hign Hlen) in Hm.
Qed.

Lemma optional_rest_capture_single_token_witness :
  (∀ arg, scan_body api_example ["createGroup"; "staff"; "ping"; "pong"]
            (length [Literal "createGroup"; Type_ TStr]) arg (handler_at 487)
          = Ok (Append (VArgs (drop (length [Literal "createGroup"; Type_ TStr])
                                 ["createGroup"; "staff"; "ping"; "pong"]))))
  ∧ ignore_args_size (handler_at 487) = false
  ∧ (length (args (handler_at 487)) < length ["createGroup"; "staff"; "ping"; "pong"] →
     ∀ values, match_command api_example Handler_handlers
                 ["createGroup"; "staff"; "ping"; "pong"]
               ≠ Ok (handler_at 487, values)).
Proof.
  apply (optional_rest_capture_single_token api_example Handler_handlers
           ["createGroup"; "staff"; "ping"; "pong"] (handler_at 487)
           [Literal "createGroup"; Type_ TStr] TListStr [TNoneType]).
  - apply Handler_handlers_distinct.
  - reflexivity.
  - exact I.
  - left.
Defined.

Lemma scan_from_no_candidates api tokens rest : ∀ idx st,
  st_handlers st = [] → scan_from api tokens idx rest st = Ok st.
Proof.
  induction rest as [|arg rest IH]; intros idx st H; simpl; [done|].
  rewrite H. simpl. by apply IH.
Qed.

Lemma keywords_stays registry t cmd :
  keyword_first registry → lower t ∉ keywords registry →
  cmd ∈ registry → stays 0 t cmd = false.
Proof.
  intros Hk Hnot Hin. unfold keyword_first in Hk. rewrite Forall_forall in Hk.
  destruct (Hk cmd Hin) as [text Htext]. unfold stays. rewrite Htext. simpl.
  destruct (String.eqb (lower text) (lower t)) eqn:E; [|done].
  apply String.eqb_eq in E. exfalso. apply Hnot. rewrite <- E.
  unfold keywords. apply list_elem_of_omap. exists cmd. by rewrite Htext.
Qed.

Lemma not_found_of_unknown_keyword api registry ctx t rest :
  NoDup (hid <$> registry) →
  keyword_first registry →
  arguments ctx = t :: rest →
  lower t ∉ keywords registry →
  get_command api registry ctx = Raise CommandNotFoundError.
Proof.
  intros ND Hk Hargs Hnot. unfold get_command, match_command. rewrite Hargs.
  unfold scan. simpl scan_from.
  destruct (scan_position_ok api (t :: rest) 0 t registry (init_state registry))
    as [st1 H1].
  { intros c Hc. unfold keyword_first in Hk. rewrite Forall_forall in Hk.
    destruct (Hk c Hc) as [text Htext]. unfold scan_body. rewrite Htext. simpl.
    destruct (String.eqb _ _); by eexists. }
  rewrite H1. simpl.
  destruct (scan_position_spec api (t :: rest) 0 t registry [] (init_state registry) st1)
    as (Hh & _); [done..|]. simpl in Hh.
  assert (Hempty : st_handlers st1 = []).
  { rewrite Hh. apply elem_of_nil_inv. intros c [Hs Hc]%list_elem_of_filter.
    by rewrite (keywords_stays registry t c) in Hs. }
  rewrite (scan_from_no_candidates api (t :: rest) rest 1 st1 Hempty). simpl.
  by rewrite Hempty.
Qed.

Lemma Handler_handlers_keyword_first : keyword_first Handler_handlers.
Proof.
  unfold keyword_first. apply Forall_forall. intros cmd Hin.
  assert (H : args cmd !! 0 ≠ None ∧
              (∀ typ, args cmd !! 0 = Some typ → ∃ text, typ = Literal text)).
  { revert cmd Hin. apply Forall_forall.
    unfold Handler_handlers, registrations. simpl.
    repeat (apply Forall_cons; split;
            [split; [done|intros ? [= <-]; by eexists]|]).
    apply Forall_nil_2. }
  destruct H as [Hne H]. destruct (args cmd !! 0) as [typ|]; [|done].
  destruct (H typ eq_refl) as [text ->]. by exists text.
Qed.

(** X4.  In a registry whose signatures all open with a literal, a command
    line whose first token is none of these keywords, up to letter case, is
    not found: no parser is run, whatever the application state and the
    remaining tokens. *)
Theorem unknown_keyword_not_found api registry ctx t rest :
  NoDup (hid <$> registry) →
  keyword_first registry →
  arguments ctx = t :: rest →
  lower t ∉ keywords registry →
  get_command api registry ctx = Raise CommandNotFoundError.
Proof. apply not_found_of_unknown_keyword. Qed.

Lemma unknown_keyword_not_found_witness :
  get_command api_example Handler_handlers (ctx_of ["bogus"; "ping"])
  = Raise CommandNotFoundError.
Proof.
  apply (unknown_keyword_not_found api_example Handler_handlers
           (ctx_of ["bogus"; "ping"]) "bogus" ["ping"]).
  - apply Handler_handlers_distinct.
  - apply Handler_handlers_keyword_first.
  - reflexivity.
  - vm_compute. intros H.
    repeat (apply elem_of_cons in H as [H|H]; [discriminate H|]).
    by apply elem_of_nil in H.
Defined.

(** ** Further properties of the binder *)

Lemma bind_parameters_surplus params : ∀ values extra kwargs,
  (length params ≤ length values)%nat →
  bind_parameters params (values ++ extra) kwargs = bind_parameters params values kwargs
  ∧ is_Some (bind_parameters params values kwargs).
Proof.
  induction params as [|p params IH]; intros values extra kwargs Hl; simpl.
  { split; [done|by eexists]. }
  destruct values as [|v values]; simpl in *; [lia|]. apply IH. lia.
Qed.

(** X5.  The binder does not check that every positional value is used:
    when there are at least as many values as declared parameters (after
    [self] and [ctx]), binding succeeds and any further values are dropped
    without notice. *)
Theorem surplus_values_ignored ctx function values extra p_self p_ctx params :
  parameters function = p_self :: p_ctx :: params →
  (length params ≤ length values)%nat →
  get_handler_params ctx function (values ++ extra)
  = get_handler_params ctx function values
  ∧ is_Some (get_handler_params ctx function values).
Proof.
  intros Hp Hl. unfold get_handler_params. rewrite Hp.
  by apply bind_parameters_surplus.
Qed.

Lemma surplus_values_ignored_witness :
  get_handler_params (ctx_of ["listCommands"]) (handler (handler_at 232))
    ([VEntry "ping" ping_entry] ++ [VStr "dropped"])
  = get_handler_params (ctx_of ["listCommands"]) (handler (handler_at 232))
      [VEntry "ping" ping_entry]
  ∧ is_Some (get_handler_params (ctx_of ["listCommands"]) (handler (handler_at 232))
               [VEntry "ping" ping_entry]).
Proof.
  apply (surplus_values_ignored (ctx_of ["listCommands"]) (handler (handler_at 232))
           [VEntry "ping" ping_entry] [VStr "dropped"] (param "self") (param "ctx")
           [param "name"]).
  - reflexivity.
  - simpl. lia.
Defined.

Lemma bind_parameters_dom params : ∀ values kwargs kwargs',
  bind_parameters params values kwargs = Some kwargs' →
  dom kwargs' = dom kwargs ∪ list_to_set (pname <$> params).
Proof.
  induction params as [|p params IH]; intros values kwargs kwargs'.
  { simpl. intros [= <-]. set_solver. }
  rewrite bind_parameters_cons. destruct (bound_value values 0 p) as [x|]; [|done].
  intros H. apply IH in H. rewrite H, dom_insert_L, fmap_cons. simpl. set_solver.
Qed.

(** X6.  When binding succeeds, the keyword arguments are exactly [self],
    [ctx] and the declared parameters: nothing else is passed to the
    handler and no declared parameter is left out. *)
Theorem kwargs_keys ctx function values kwargs p_self p_ctx params :
  parameters function = p_self :: p_ctx :: params →
  get_handler_params ctx function values = Some kwargs →
  dom kwargs = {["self"; "ctx"]} ∪ list_to_set (pname <$> params).
Proof.
  intros Hp. unfold get_handler_params. rewrite Hp. intros H.
  apply bind_parameters_dom in H. rewrite H, !dom_insert_L, dom_empty_L. set_solver.
Qed.

Lemma kwargs_keys_witness :
  ∃ kwargs,
    get_handler_params (ctx_of ["addCommand"; "ping"]) (handler (handler_at 203))
      [VStr "ping"] = Some kwargs
    ∧ dom kwargs = {["self"; "ctx"]}
                   ∪ list_to_set (pname <$> [param "name"; param_opt "handler_id";
                                             param_opt "category"]).
Proof.
  eexists. split; [reflexivity|].
  eapply (kwargs_keys (ctx_of ["addCommand"; "ping"]) (handler (handler_at 203))
            [VStr "ping"] _ (param "self") (param "ctx")); reflexivity.
Defined.

(** ** The entity parsers *)

Lemma find_entry_spec cats key :
  match find_entry cats key with
  | Some e =>
      ∃ pre name category post,
        cats = pre ++ (name, category) :: post
        ∧ Forall (λ nc, category_commands nc.2 !! key = None) pre
        ∧ category_commands category !! key = Some e
  | None => Forall (λ nc, category_commands nc.2 !! key = None) cats
  end.
Proof.
  induction cats as [|[name category] cats IH]; simpl; [done|].
  destruct (category_commands category !! key) as [e|] eqn:E.
  - exists [], name, category, cats. by split_and!.
  - destruct (find_entry cats key) as [e|].
    + destruct IH as (pre & n & c & post & -> & Hpre & Hc).
      exists ((name, category) :: pre), n, c, post. split_and!; try done.
      by apply Forall_cons.
    + by apply Forall_cons.
Qed.

(** X7.  [CommandEntryArgument.parse] returns the entry of the first
    category, in the order of [config.categories], that holds the
    lower-cased name, together with that lower-cased name; it raises the
    message naming the lower-cased token exactly when no category holds
    it. *)
Theorem entry_parser_first_category api argument :
  match parse api CommandEntryArgument argument with
  | Ok v =>
      ∃ pre name category post e,
        categories (config api) = pre ++ (name, category) :: post
        ∧ Forall (λ nc, category_commands nc.2 !! lower argument = None) pre
        ∧ category_commands category !! lower argument = Some e
        ∧ v = VEntry (lower argument) e
  | Raise e =>
      Forall (λ nc, category_commands nc.2 !! lower argument = None)
             (categories (config api))
      ∧ e = CommandMessageError (msg_command (lower argument))
  end.
Proof.
  unfold parse.
  pose proof (find_entry_spec (categories (config api)) (lower argument)) as H.
  destruct (find_entry _ _) as [e|]; [|done].
  destruct H as (pre & name & category & post & H1 & H2 & H3).
  by exists pre, name, category, post, e.
Qed.

(** ** The entry point *)

(** X10.  At the entry point, an empty command line, or one whose first
    token is neither [help] nor, up to letter case, the opening literal of a
    signature, ends in [CommandUsageError]: nothing is sent and no handler
    is invoked. *)
Theorem unknown_command_line_usage_error api registry ctx :
  NoDup (hid <$> registry) →
  keyword_first registry →
  lower (arguments_get (arguments ctx) "") ∉ keywords registry →
  arguments_get (arguments ctx) "" ≠ "help" →
  cmd_cconf (get_command api registry) ctx = RaiseCommandUsageError.
Proof.
  intros ND Hk Hnot Hhelp. unfold cmd_cconf.
  destruct (String.eqb _ "help") eqn:E; [by apply String.eqb_eq in E|].
  destruct (arguments ctx) as [|t rest] eqn:Hargs.
  - unfold get_command, match_command. by rewrite Hargs.
  - by rewrite (not_found_of_unknown_keyword api registry ctx t rest).
Qed.

Lemma unknown_command_line_usage_error_witness :
  cmd_cconf (get_command api_example Handler_handlers) (ctx_of []) = RaiseCommandUsageError.
Proof.
  apply (unknown_command_line_usage_error api_example Handler_handlers (ctx_of [])).
  - apply Handler_handlers_distinct.
  - apply Handler_handlers_keyword_first.
  - vm_compute. intros H.
    repeat (apply elem_of_cons in H as [H|H]; [discriminate H|]).
    by apply elem_of_nil in H.
  - discriminate.
Defined.

(** ** The alias handlers *)

Lemma with_aliases_same entry : with_aliases entry (entry_aliases entry) = entry.
Proof. by destruct entry. Qed.

Lemma add_aliases_spec alias : ∀ aliases added,
  ∃ new,
    add_aliases alias aliases added = (aliases ++ new, added + length new)
    ∧ NoDup new
    ∧ ∀ x, x ∈ new ↔ x ∈ lower <$> alias ∧ x ∉ aliases.
Proof.
  induction alias as [|item alias IH]; intros aliases added; simpl.
  { exists []. rewrite app_nil_r, Nat.add_0_r. split_and!; [done|constructor|].
    intros x. split; [by intros ?%elem_of_nil|]. by intros [?%elem_of_nil _]. }
  case_bool_decide as Hin.
  - destruct (IH aliases added) as (new & -> & ND & Hnew). exists new.
    split_and!; [done..|]. intros x. rewrite Hnew, elem_of_cons.
    split; [tauto|]. intros [[->|?] ?]; [done|tauto].
  - destruct (IH (aliases ++ [lower item]) (S added)) as (new & -> & ND & Hnew).
    exists (lower item :: new). split_and!.
    + rewrite <- app_assoc. simpl. f_equal. lia.
    + apply NoDup_cons. split; [|done]. rewrite Hnew. intros [_ H]. apply H.
      apply elem_of_app. right. left.
    + intros x. rewrite !elem_of_cons, Hnew, elem_of_app, list_elem_of_singleton.
      destruct (decide (x = lower item)) as [->|]; tauto.
Qed.

(** X11.  [addAlias] only appends to [entry.aliases]: the aliases that were
    there stay in place, the appended ones are exactly the lower-cased given
    aliases that were missing, each once, so that a list without duplicates
    stays without duplicates; the handler and the usage text of the entry are
    left alone, and the configuration is saved exactly when something was
    appended. *)
Theorem addAlias_appends_missing_aliases name entry alias :
  NoDup (entry_aliases entry) →
  ∃ new,
    entry_aliases (command_addAlias (name, entry) alias).1 = entry_aliases entry ++ new
    ∧ (∀ x, x ∈ new ↔ x ∈ lower <$> alias ∧ x ∉ entry_aliases entry)
    ∧ NoDup (entry_aliases entry ++ new)
    ∧ (remap_force_save ∈ (command_addAlias (name, entry) alias).2 ↔ new ≠ [])
    ∧ entry_handler (command_addAlias (name, entry) alias).1 = entry_handler entry
    ∧ entry_usage (command_addAlias (name, entry) alias).1 = entry_usage entry.
Proof.
  intros ND. unfold command_addAlias.
  destruct (add_aliases_spec alias (entry_aliases entry) 0) as (new & Hrun & NDn & Hnew).
  exists new. destruct alias as [|first alias'] eqn:Ealias.
  { assert (new = []) as ->.
    { apply elem_of_nil_inv. intros x [H _]%Hnew. by apply elem_of_nil in H. }
    rewrite app_nil_r. split_and!; try done.
    split; [|done]. by intros [=]%list_elem_of_singleton. }
  rewrite Hrun. simpl fst. simpl snd. split_and!; try done.
  - apply NoDup_app. split_and!; [done| |done]. intros x Hx [_ H]%Hnew. by apply H.
  - destruct new as [|n0 [|n1 new]]; simpl.
    + split; [|done]. by intros [=]%list_elem_of_singleton.
    + split; [done|]. intros _. left.
    + split; [done|]. intros _. left.
Qed.

Lemma addAlias_appends_missing_aliases_witness :
  ∃ new,
    entry_aliases (command_addAlias ("ping", ping_entry) ["P"; "p"; "Pong"]).1
    = entry_aliases ping_entry ++ new
    ∧ (∀ x, x ∈ new ↔ x ∈ lower <$> ["P"; "p"; "Pong"] ∧ x ∉ entry_aliases ping_entry)
    ∧ NoDup (entry_aliases ping_entry ++ new)
    ∧ (remap_force_save ∈ (command_addAlias ("ping", ping_entry) ["P"; "p"; "Pong"]).2
       ↔ new ≠ [])
    ∧ entry_handler (command_addAlias ("ping", ping_entry) ["P"; "p"; "Pong"]).1
      = entry_handler ping_entry
    ∧ entry_usage (command_addAlias ("ping", ping_entry) ["P"; "p"; "Pong"]).1
      = entry_usage ping_entry.
Proof.
  apply (addAlias_appends_missing_aliases "ping" ping_entry ["P"; "p"; "Pong"]).
  simpl. constructor.
Defined.

Lemma add_aliases_present alias : ∀ aliases added,
  (∀ x, x ∈ alias → lower x ∈ aliases) →
  add_aliases alias aliases added = (aliases, added).
Proof.
  induction alias as [|item alias IH]; intros aliases added H; simpl; [done|].
  rewrite bool_decide_eq_true_2 by (apply H; left).
  apply IH. intros x Hx. apply H. by right.
Qed.

(** X12.  [addAlias] is idempotent: a second call with the same aliases
    leaves the entry as the first call made it, saves nothing and answers
    that the aliases are already there. *)
Theorem addAlias_twice name entry alias :
  alias ≠ [] →
  command_addAlias (name, (command_addAlias (name, entry) alias).1) alias
  = ((command_addAlias (name, entry) alias).1,
     [send_info ":grey_exclamation: 既に追加されています"]).
Proof.
  intros Hne. destruct alias as [|first alias']; [done|].
  set (alias := first :: alias').
  destruct (add_aliases_spec alias (entry_aliases entry) 0) as (new & Hrun & _ & Hnew).
  unfold command_addAlias at 2 3. fold alias. rewrite Hrun. simpl fst.
  unfold command_addAlias. fold alias. simpl entry_aliases.
  rewrite add_aliases_present.
  - by rewrite with_aliases_same.
  - intros x Hx. apply elem_of_app.
    destruct (decide (lower x ∈ entry_aliases entry)) as [?|Hn]; [by left|right].
    apply Hnew. split; [|done]. by apply list_elem_of_fmap_2.
Qed.

Lemma addAlias_twice_witness :
  command_addAlias ("ping", (command_addAlias ("ping", ping_entry) ["P"; "Pong"]).1)
    ["P"; "Pong"]
  = ((command_addAlias ("ping", ping_entry) ["P"; "Pong"]).1,
     [send_info ":grey_exclamation: 既に追加されています"]).
Proof. apply (addAlias_twice "ping" ping_entry ["P"; "Pong"]). discriminate. Defined.

Lemma filter_all {A} (P : A → Prop) `{∀ x, Decision (P x)} (l : list A) :
  (∀ x, x ∈ l → P x) → filter P l = l.
Proof.
  induction l as [|x l IH]; intros Hl; [done|].
  rewrite filter_cons_True by (apply Hl; left). f_equal. apply IH.
  intros y Hy. apply Hl. by right.
Qed.

Lemma filter_length_lt_inv {A} (P : A → Prop) `{∀ x, Decision (P x)} (l : list A) :
  length (filter P l) < length l → ∃ x, x ∈ l ∧ ¬ P x.
Proof.
  induction l as [|x l IH]; simpl; [lia|]. rewrite filter_cons.
  destruct (decide (P x)) as [Hx|Hx]; simpl.
  - intros Hl. destruct IH as (y & Hy & Hn); [lia|]. exists y. split; [by right|done].
  - intros _. exists x. split; [left|done].
Qed.

Lemma remove_first_filter x l :
  NoDup l → remove_first x l = filter (λ y, y ≠ x) l.
Proof.
  induction 1 as [|y l Hy ND IH]; simpl; [done|].
  destruct (String.eqb y x) eqn:E.
  - apply String.eqb_eq in E as ->. rewrite filter_cons_False by (by intros ?).
    symmetry. apply filter_all. by intros z Hz ->.
  - apply String.eqb_neq in E. by rewrite filter_cons_True, IH.
Qed.

Lemma remove_first_absent x l : x ∉ l → remove_first x l = l.
Proof.
  induction l as [|y l IH]; simpl; [done|]. intros [Hne Hl]%not_elem_of_cons.
  destruct (String.eqb y x) eqn:E; [by apply String.eqb_eq in E|]. by rewrite IH.
Qed.

Lemma remove_first_app x pre l :
  x ∉ pre → remove_first x (pre ++ l) = pre ++ remove_first x l.
Proof.
  induction pre as [|y pre IH]; simpl; [done|]. intros [Hne Hl]%not_elem_of_cons.
  destruct (String.eqb y x) eqn:E; [by apply String.eqb_eq in E|]. by rewrite IH.
Qed.

Lemma remove_first_length x l : x ∈ l → length l = S (length (remove_first x l)).
Proof.
  induction l as [|y l IH]; simpl; [by intros ?%elem_of_nil|].
  destruct (String.eqb y x) eqn:E; [done|]. apply String.eqb_neq in E.
  intros [->|H]%elem_of_cons; [done|]. simpl. by rewrite <- IH.
Qed.

(** The removal loop on a list whose part [l] has no duplicates and whose
    part [pre] holds none of the given aliases. *)
Lemma remove_aliases_spec alias pre : ∀ l removed,
  NoDup l →
  (∀ x, x ∈ lower <$> alias → x ∉ pre) →
  remove_aliases alias (pre ++ l) removed
  = (pre ++ filter (λ x, x ∉ lower <$> alias) l,
     removed + (length l - length (filter (λ x, x ∉ lower <$> alias) l))).
Proof.
  induction alias as [|item alias IH]; intros l removed ND Hpre.
  { simpl. rewrite filter_all by (intros x _ H; by apply elem_of_nil in H).
    f_equal. lia. }
  cbn [remove_aliases]. rewrite fmap_cons in Hpre |- *.
  assert (Hpre' : ∀ x, x ∈ lower <$> alias → x ∉ pre)
    by (intros x Hx; apply Hpre; by right).
  assert (Hfilter : filter (λ x, x ∉ lower item :: (lower <$> alias)) l
                    = filter (λ x, x ∉ lower <$> alias) (filter (λ y, y ≠ lower item) l)).
  { rewrite list_filter_filter. apply list_filter_iff. intros x.
    rewrite not_elem_of_cons. tauto. }
  rewrite Hfilter. case_bool_decide as Hin.
  - assert (Hl : lower item ∈ l).
    { apply elem_of_app in Hin as [Hin|Hin]; [|done].
      exfalso. apply (Hpre (lower item)); [left|done]. }
    rewrite remove_first_app by (apply Hpre; left).
    rewrite remove_first_filter by done.
    rewrite IH by (done || by apply NoDup_filter). f_equal.
    pose proof (remove_first_length (lower item) l Hl) as H1.
    rewrite remove_first_filter in H1 by done.
    pose proof (length_filter (λ x, x ∉ lower <$> alias)
                  (filter (λ y, y ≠ lower item) l)) as H2.
    lia.
  - assert (Hl : lower item ∉ l) by (intros ?; apply Hin, elem_of_app; by right).
    rewrite (filter_all (λ y, y ≠ lower item) l) by (by intros y Hy ->).
    by rewrite IH.
Qed.

(** X13.  On an entry whose aliases hold no duplicate, [removeAlias] takes
    out exactly the aliases that are given, compared in lower case, and keeps
    the others in their order; the configuration is saved exactly when one
    of the given aliases was present. *)
Theorem removeAlias_removes_given name entry alias :
  NoDup (entry_aliases entry) →
  entry_aliases (command_removeAlias (name, entry) alias).1
  = filter (λ x, x ∉ lower <$> alias) (entry_aliases entry)
  ∧ (remap_force_save ∈ (command_removeAlias (name, entry) alias).2
     ↔ ∃ x, x ∈ alias ∧ lower x ∈ entry_aliases entry)
  ∧ entry_handler (command_removeAlias (name, entry) alias).1 = entry_handler entry
  ∧ entry_usage (command_removeAlias (name, entry) alias).1 = entry_usage entry.
Proof.
  intros ND. unfold command_removeAlias.
  destruct alias as [|first alias'] eqn:Ealias.
  { simpl. split_and!; try done.
    - symmetry. apply filter_all. intros x _ H. by apply elem_of_nil in H.
    - split; [by intros [=]%list_elem_of_singleton|].
      intros (x & H & _). by apply elem_of_nil in H. }
  rewrite <- Ealias.
  pose proof (remove_aliases_spec alias [] (entry_aliases entry) 0 ND) as Hrun.
  simpl in Hrun. rewrite Hrun by (intros x _ H; by apply elem_of_nil in H).
  rewrite Ealias, <- Ealias. simpl fst. simpl snd. split_and!; try done.
  set (kept := filter (λ x, x ∉ lower <$> alias) (entry_aliases entry)).
  assert (Hiff : length kept < length (entry_aliases entry)
                 ↔ ∃ x, x ∈ alias ∧ lower x ∈ entry_aliases entry).
  { split.
    - intros (y & Hy & Hn)%filter_length_lt_inv.
      apply dec_stable in Hn. apply list_elem_of_fmap in Hn as (x & -> & Hx).
      by exists x.
    - intros (x & Hx & Hin).
      apply (length_filter_lt _ _ (lower x)); [done|].
      intros Hn. apply Hn. by apply list_elem_of_fmap_2. }
  destruct (length (entry_aliases entry) - length kept) as [|n] eqn:En.
  - split; [by intros [=]%list_elem_of_singleton|].
    intros Hex%Hiff. lia.
  - split; [|intros _; left]. intros _. apply Hiff. lia.
Qed.

Lemma removeAlias_removes_given_witness :
  entry_aliases (command_removeAlias
                   ("ping", with_aliases ping_entry ["p"; "pong"; "pp"]) ["PP"; "P"; "x"]).1
  = filter (λ x, x ∉ lower <$> ["PP"; "P"; "x"])
      (entry_aliases (with_aliases ping_entry ["p"; "pong"; "pp"]))
  ∧ (remap_force_save ∈ (command_removeAlias
                           ("ping", with_aliases ping_entry ["p"; "pong"; "pp"])
                           ["PP"; "P"; "x"]).2
     ↔ ∃ x, x ∈ ["PP"; "P"; "x"]
            ∧ lower x ∈ entry_aliases (with_aliases ping_entry ["p"; "pong"; "pp"]))
  ∧ entry_handler (command_removeAlias
                     ("ping", with_aliases ping_entry ["p"; "pong"; "pp"])
                     ["PP"; "P"; "x"]).1
    = entry_handler (with_aliases ping_entry ["p"; "pong"; "pp"])
  ∧ entry_usage (command_removeAlias
                   ("ping", with_aliases ping_entry ["p"; "pong"; "pp"])
                   ["PP"; "P"; "x"]).1
    = entry_usage (with_aliases ping_entry ["p"; "pong"; "pp"]).
Proof.
  apply (removeAlias_removes_given "ping" (with_aliases ping_entry ["p"; "pong"; "pp"])
           ["PP"; "P"; "x"]).
  apply (bool_decide_unpack _). vm_compute. exact I.
Defined.

(** X14.  Round trip: adding aliases of which none is on the entry yet, then
    removing the same aliases, gives the entry back as it was, whatever it
    held before, duplicates included. *)
Theorem alias_round_trip name entry alias :
  (∀ x, x ∈ alias → lower x ∉ entry_aliases entry) →
  (command_removeAlias (name, (command_addAlias (name, entry) alias).1) alias).1 = entry.
Proof.
  intros Hnew. destruct alias as [|first alias'] eqn:Ealias; [done|].
  rewrite <- Ealias in *.
  destruct (add_aliases_spec alias (entry_aliases entry) 0) as (new & Hrun & ND & Hin).
  unfold command_addAlias. rewrite Ealias, <- Ealias, Hrun. simpl fst.
  unfold command_removeAlias. rewrite Ealias, <- Ealias. simpl entry_aliases.
  rewrite remove_aliases_spec; [|done|].
  - simpl fst. replace (filter _ new) with (@nil string).
    + rewrite app_nil_r. by destruct entry.
    + symmetry. apply elem_of_nil_inv. intros x [Hx Hn]%list_elem_of_filter.
      apply Hx. by apply Hin.
  - intros x [y [-> Hy]]%list_elem_of_fmap. by apply Hnew.
Qed.

Lemma alias_round_trip_witness :
  (command_removeAlias
     ("ping", (command_addAlias ("ping", ping_entry) ["P"; "Pong"; "p"]).1)
     ["P"; "Pong"; "p"]).1 = ping_entry.
Proof.
  apply (alias_round_trip "ping" ping_entry ["P"; "Pong"; "p"]).
  intros x _ H. by apply elem_of_nil in H.
Defined.

(** ** The alias handlers behind the engine *)

Lemma match_command_ok_inv api registry tokens w values :
  NoDup (hid <$> registry) →
  match_command api registry tokens = Ok (w, values) →
  w ∈ survivors tokens registry ∧ values = collected_from api tokens 0 tokens w.
Proof.
  intros ND Hm. destruct (decide (tokens = [])) as [->|Hne]; [done|].
  destruct (scan api registry tokens) as [st|e] eqn:Hst.
  - rewrite (match_command_spec api registry tokens ND st Hne Hst) in Hm.
    destruct (survivors tokens registry) as [|w' ws].
    + by destruct (arity_errors tokens registry) as [|? [|]].
    + injection Hm as -> <-. split; [left|done].
  - by rewrite (match_command_scan_raises api registry tokens e Hne Hst) in Hm.
Qed.

Lemma alias_function_owner cmd w :
  cmd = handler_at 299 ∨ cmd = handler_at 327 →
  w ∈ Handler_handlers → handler w = handler cmd → w = cmd.
Proof.
  intros Hcmd Hin Hf.
  assert (H : w ∈ filter (λ c, def_line (handler c) = def_line (handler cmd))
                         Handler_handlers).
  { apply list_elem_of_filter. split; [by rewrite Hf|done]. }
  destruct Hcmd as [-> | ->]; vm_compute in H;
    apply elem_of_cons in H as [->|H]; try done; by apply elem_of_nil in H.
Qed.

Lemma emits_parser_raise api tokens idx arg cmd p e :
  args cmd !! idx = Some (Parser p) → parse api p arg = Raise e →
  emits api tokens idx arg cmd = [].
Proof. intros H Hp. unfold emits, scan_body. rewrite H. simpl. by rewrite Hp. Qed.

Lemma addAlias_warns_on_empty_only name entry alias message :
  alias ≠ [] → send_warn message ∉ (command_addAlias (name, entry) alias).2.
Proof.
  intros Hne. unfold command_addAlias. destruct alias as [|first alias']; [done|].
  destruct (add_aliases _ _ _) as [aliases [|[|added]]]; simpl;
    intros H; repeat (apply elem_of_cons in H as [H|H]; [discriminate H|]);
    by apply elem_of_nil in H.
Qed.

Lemma removeAlias_warns_on_empty_only name entry alias message :
  alias ≠ [] → send_warn message ∉ (command_removeAlias (name, entry) alias).2.
Proof.
  intros Hne. unfold command_removeAlias. destruct alias as [|first alias']; [done|].
  destruct (remove_aliases _ _ _) as [aliases [|removed]]; simpl;
    intros H; repeat (apply elem_of_cons in H as [H|H]; [discriminate H|]);
    by apply elem_of_nil in H.
Qed.

(** X15.  Whenever the engine resolves a command line to the function of
    [addAlias] or of [removeAlias], the command line has at least four
    tokens, [name] is bound to the parsed entry of the second token and
    [alias] to the tokens from the fourth on, which are never empty: the
    guard [if not alias] of these handlers is dead code behind the engine,
    and neither handler sends its warning. *)
Theorem alias_handlers_get_an_alias api ctx cmd kwargs :
  cmd = handler_at 299 ∨ cmd = handler_at 327 →
  get_command api Handler_handlers ctx = Ok (handler cmd, kwargs) →
  ∃ t0 t1 t2 r rest e,
    arguments ctx = t0 :: t1 :: t2 :: r :: rest
    ∧ kwargs !! "name" = Some (VEntry (lower t1) e)
    ∧ kwargs !! "alias" = Some (VArgs (r :: rest))
    ∧ ∀ message,
        (send_warn message ∉ (command_addAlias (lower t1, e) (r :: rest)).2)
        ∧ (send_warn message ∉ (command_removeAlias (lower t1, e) (r :: rest)).2).
Proof.
  intros Hcmd Hget. unfold get_command in Hget.
  destruct (match_command api Handler_handlers (arguments ctx)) as [[w values]|err] eqn:Hm;
    [|done].
  simpl in Hget.
  destruct (get_handler_params ctx (handler w) values) as [kw|] eqn:Hbind; [|done].
  injection Hget as Hf <-.
  apply match_command_ok_inv in Hm as [Hw ->]; [|apply Handler_handlers_distinct].
  apply survivors_live in Hw as (Hin & Hlive & Hmiss).
  apply (alias_function_owner cmd w Hcmd Hin) in Hf as ->.
  set (tokens := arguments ctx) in *.
  assert (Hshape : ∃ text, args cmd = [Literal "command"; Parser CommandEntryArgument;
                                       Literal text] ++ [Type_ TListStr]).
  { destruct Hcmd as [-> | ->]; by eexists. }
  destruct Hshape as [text Hshape].
  assert (Hparams : parameters (handler cmd)
                    = [param "self"; param "ctx"; param "name"; param "alias"]).
  { by destruct Hcmd as [-> | ->]. }
  assert (Hlen : ∃ t0 t1 t2 r rest, tokens = t0 :: t1 :: t2 :: r :: rest).
  { destruct tokens as [|t0 [|t1 [|t2 [|r rest]]]];
      [unfold missing_required in Hmiss; rewrite Hshape in Hmiss; done..|].
    by exists t0, t1, t2, r, rest. }
  destruct Hlen as (t0 & t1 & t2 & r & rest & Htok).
  assert (Hvals : collected_from api tokens 0 tokens cmd
                  = emits api tokens 1 t1 cmd ++ [VArgs (r :: rest)]).
  { rewrite Htok at 2.
    change (t0 :: t1 :: t2 :: r :: rest) with ([t0; t1; t2] ++ r :: rest).
    rewrite collected_from_app.
    change (0 + length [t0; t1; t2])
      with (length [Literal "command"; Parser CommandEntryArgument; Literal text]).
    rewrite (collected_at_rest api tokens cmd _ (Type_ TListStr) Hshape) by done.
    simpl collected_from.
    rewrite (emits_literal api tokens 0 t0 cmd "command") by by rewrite Hshape.
    rewrite (emits_literal api tokens 2 t2 cmd text) by by rewrite Hshape.
    simpl. by rewrite app_nil_r, Htok. }
  rewrite Hvals in Hbind. unfold get_handler_params in Hbind. rewrite Hparams in Hbind.
  destruct (parse api CommandEntryArgument t1) as [v|err] eqn:Hparse.
  - rewrite (emits_parser api tokens 1 t1 cmd CommandEntryArgument v) in Hbind
      by (done || by rewrite Hshape).
    assert (He : ∃ e, v = VEntry (lower t1) e).
    { unfold parse in Hparse. destruct (find_entry _ _) as [e|]; [|done].
      injection Hparse as <-. by exists e. }
    destruct He as [e ->]. simpl in Hbind. injection Hbind as <-.
    exists t0, t1, t2, r, rest, e. split_and!; [done| |apply lookup_insert_eq|].
    + rewrite lookup_insert_ne by done. apply lookup_insert_eq.
    + intros message. split.
      * by apply addAlias_warns_on_empty_only.
      * by apply removeAlias_warns_on_empty_only.
  - rewrite (emits_parser_raise api tokens 1 t1 cmd CommandEntryArgument err) in Hbind
      by (done || by rewrite Hshape).
    done.
Qed.

Lemma alias_handlers_get_an_alias_witness :
  ∃ (kwargs : Kwargs) t0 t1 t2 r rest e,
    arguments (ctx_of ["command"; "Ping"; "addalias"; "P"]) = t0 :: t1 :: t2 :: r :: rest
    ∧ kwargs !! "name" = Some (VEntry (lower t1) e)
    ∧ kwargs !! "alias" = Some (VArgs (r :: rest))
    ∧ ∀ message,
        (send_warn message ∉ (command_addAlias (lower t1, e) (r :: rest)).2)
        ∧ (send_warn message ∉ (command_removeAlias (lower t1, e) (r :: rest)).2).
Proof.
  eexists.
  eapply (alias_handlers_get_an_alias api_example
            (ctx_of ["command"; "Ping"; "addalias"; "P"]) (handler_at 299)).
  - by left.
  - vm_compute. reflexivity.
Defined.

(** ** Insertion-ordered dicts *)

Section Dict.

Context {V : Type}.
Implicit Types (d : list (string * V)) (k : string) (v : V).

Lemma dict_get_elem_of d k v : dict_get d k = Some v → (k, v) ∈ d.
Proof.
  induction d as [|[k' v'] d IH]; simpl; [done|].
  destruct (String.eqb k' k) eqn:E.
  - apply String.eqb_eq in E as ->. intros [= ->]. left.
  - intros H. right. by apply IH.
Qed.

Lemma dict_get_None d k : dict_get d k = None ↔ k ∉ d.*1.
Proof.
  induction d as [|[k' v'] d IH]; simpl.
  - split; [intros _ H; by apply elem_of_nil in H|done].
  - rewrite not_elem_of_cons. destruct (String.eqb k' k) eqn:E.
    + apply String.eqb_eq in E as ->. split; [done|]. by intros [? _].
    + apply String.eqb_neq in E. rewrite IH. split; [|tauto].
      intros H. split; [by intros ->|done].
Qed.

Lemma dict_get_Some d k v : NoDup d.*1 → (k, v) ∈ d → dict_get d k = Some v.
Proof.
  induction d as [|[k' v'] d IH]; simpl; [by intros _ ?%elem_of_nil|].
  intros [Hk ND]%NoDup_cons [[= -> ->]|Hin]%elem_of_cons.
  - by rewrite String.eqb_refl.
  - destruct (String.eqb k' k) eqn:E; [|by apply IH].
    apply String.eqb_eq in E as ->. exfalso. apply Hk.
    apply list_elem_of_fmap. by exists (k, v).
Qed.

Lemma dict_has_keys d k : dict_has d k = true ↔ k ∈ d.*1.
Proof.
  unfold dict_has. pose proof (dict_get_None d k) as H.
  destruct (dict_get d k).
  - split; [|done]. intros _. destruct (decide (k ∈ d.*1)) as [?|Hn]; [done|].
    by apply H in Hn.
  - split; [done|]. intros Hin. by apply H in Hin.
Qed.

(** On distinct keys, a write to the object under [k] is a map over the
    items. *)
Lemma dict_alter_fmap f d k :
  NoDup d.*1 →
  dict_alter f d k = map_values (λ k' v, if String.eqb k' k then f v else v) d.
Proof.
  unfold map_values. induction d as [|[k' v'] d IH]; simpl; [done|].
  intros [Hk ND]%NoDup_cons. destruct (String.eqb k' k) eqn:E.
  - f_equal. apply String.eqb_eq in E as ->. clear IH ND.
    induction d as [|[k2 v2] d IH]; simpl; [done|].
    apply not_elem_of_cons in Hk as [Hne Hk]. simpl in Hne.
    destruct (String.eqb k2 k) eqn:E2; [by apply String.eqb_eq in E2|].
    f_equal. by apply IH.
  - f_equal. by apply IH.
Qed.

Lemma dict_alter_keys f d k : (dict_alter f d k).*1 = d.*1.
Proof.
  induction d as [|[k' v'] d IH]; simpl; [done|].
  destruct (String.eqb k' k); simpl; [done|]. f_equal. apply IH.
Qed.

Lemma dict_get_alter f d k k' :
  dict_get (dict_alter f d k) k'
  = if String.eqb k k' then f <$> dict_get d k' else dict_get d k'.
Proof.
  induction d as [|[k0 v0] d IH]; simpl; [by destruct (String.eqb k k')|].
  destruct (String.eqb k0 k) eqn:E; simpl.
  - apply String.eqb_eq in E as ->. by destruct (String.eqb k k').
  - destruct (String.eqb k0 k') eqn:E'; [|done].
    apply String.eqb_eq in E' as ->. apply String.eqb_neq in E.
    destruct (String.eqb k k') eqn:E2; [|done]. by apply String.eqb_eq in E2.
Qed.

Lemma map_values_keys (g : string → V → V) d : (map_values g d).*1 = d.*1.
Proof. unfold map_values. rewrite <- list_fmap_compose. by apply list_fmap_ext. Qed.

Lemma dict_get_map_values (g : string → V → V) d k :
  dict_get (map_values g d) k = g k <$> dict_get d k.
Proof.
  unfold map_values. induction d as [|[k0 v0] d IH]; simpl; [done|].
  destruct (String.eqb k0 k) eqn:E; [|done]. by apply String.eqb_eq in E as ->.
Qed.

Lemma dict_del_keys d k : NoDup d.*1 → (dict_del d k).*1 = filter (λ k', k' ≠ k) d.*1.
Proof.
  induction d as [|[k' v'] d IH]; simpl; [done|].
  intros [Hk ND]%NoDup_cons. destruct (String.eqb k' k) eqn:E.
  - apply String.eqb_eq in E as ->. rewrite filter_cons_False by (by intros ?).
    symmetry. apply filter_all. by intros x Hx ->.
  - apply String.eqb_neq in E. rewrite filter_cons_True by done. simpl.
    f_equal. by apply IH.
Qed.

Lemma dict_del_filter d k :
  NoDup d.*1 → dict_del d k = filter (λ kv, kv.1 ≠ k) d.
Proof.
  induction d as [|[k' v'] d IH]; simpl; [done|].
  intros [Hk ND]%NoDup_cons. destruct (String.eqb k' k) eqn:E.
  - apply String.eqb_eq in E as ->. rewrite filter_cons_False by (simpl; by intros ?).
    symmetry. apply filter_all. intros [k1 v1] Hx. simpl. intros ->. apply Hk.
    apply list_elem_of_fmap. by exists (k, v1).
  - apply String.eqb_neq in E. rewrite filter_cons_True by done. by rewrite IH.
Qed.

Lemma dict_get_del d k k' :
  NoDup d.*1 →
  dict_get (dict_del d k) k' = if String.eqb k k' then None else dict_get d k'.
Proof.
  induction d as [|[k0 v0] d IH]; simpl; [by destruct (String.eqb k k')|].
  intros [Hk ND]%NoDup_cons. destruct (String.eqb k0 k) eqn:E.
  - apply String.eqb_eq in E as ->. destruct (String.eqb k k') eqn:E'; [|done].
    apply String.eqb_eq in E' as ->. by apply dict_get_None.
  - simpl. destruct (String.eqb k0 k') eqn:E'; [|by apply IH].
    apply String.eqb_eq in E' as ->. destruct (String.eqb k k') eqn:E2; [|done].
    apply String.eqb_eq in E2 as ->. by rewrite String.eqb_refl in E.
Qed.

Lemma dict_set_new d k v : k ∉ d.*1 → dict_set d k v = d ++ [(k, v)].
Proof.
  induction d as [|[k' v'] d IH]; simpl; [done|].
  intros [Hne Hk]%not_elem_of_cons. destruct (String.eqb k' k) eqn:E.
  - by apply String.eqb_eq in E as ->.
  - by rewrite IH.
Qed.

Lemma dict_update_new items : ∀ d,
  NoDup (d ++ items).*1 → dict_update d items = d ++ items.
Proof.
  unfold dict_update.
  induction items as [|[k v] items IH]; intros d ND; simpl; [by rewrite app_nil_r|].
  rewrite fmap_app in ND. simpl in ND.
  rewrite dict_set_new.
  - rewrite IH; [by rewrite <- app_assoc|].
    by rewrite <- app_assoc, fmap_app.
  - apply NoDup_app in ND as (_ & H & _). intros Hin. apply (H k Hin). left.
Qed.

Lemma filter_key d k v :
  NoDup d.*1 → dict_get d k = Some v → filter (λ kv, kv.1 = k) d = [(k, v)].
Proof.
  induction d as [|[k' v'] d IH]; simpl; [done|].
  intros [Hk ND]%NoDup_cons. destruct (String.eqb k' k) eqn:E.
  - apply String.eqb_eq in E as ->. intros [= ->].
    rewrite filter_cons_True by done. f_equal.
    apply elem_of_nil_inv. intros [k1 v1] [Hx Hin]%list_elem_of_filter.
    simpl in Hx. subst. apply Hk. apply list_elem_of_fmap. by exists (k, v1).
  - apply String.eqb_neq in E. intros H. rewrite filter_cons_False by done.
    by apply IH.
Qed.

End Dict.

(** ** Where a command is held *)

Lemma holders_map_values (g : string → CommandCategory → CommandCategory) key cats :
  holders key (map_values g cats)
  = (filter (λ kc, is_Some (category_commands (g kc.1 kc.2) !! key)) cats).*1.
Proof.
  unfold holders, map_values. induction cats as [|[k c] cats IH]; [done|].
  rewrite fmap_cons, !filter_cons. cbn [fst snd].
  destruct (decide (is_Some (category_commands (g k c) !! key)));
    rewrite ?fmap_cons; cbn [fst]; by rewrite IH.
Qed.

Lemma elem_of_holders key cats k :
  k ∈ holders key cats ↔ ∃ c, (k, c) ∈ cats ∧ is_Some (category_commands c !! key).
Proof.
  unfold holders. rewrite list_elem_of_fmap. split.
  - intros ([k' c] & -> & [H Hin]%list_elem_of_filter). by exists c.
  - intros (c & Hin & H). exists (k, c). split; [done|]. by apply list_elem_of_filter.
Qed.

Lemma find_entry_holders cats key :
  is_Some (find_entry cats key) ↔ holders key cats ≠ [].
Proof.
  unfold holders. induction cats as [|[k c] cats IH]; simpl.
  - split; [by intros [? [=]]|done].
  - rewrite filter_cons. simpl.
    destruct (category_commands c !! key) as [e|] eqn:E.
    + rewrite decide_True by by eexists. split; [done|]. by eexists.
    + rewrite decide_False by (by intros [? [=]]). done.
Qed.

Lemma pop_everywhere_keys key cats : (pop_everywhere key cats).*1 = cats.*1.
Proof.
  unfold pop_everywhere. rewrite <- list_fmap_compose. by apply list_fmap_ext.
Qed.

(** The two handlers that put a command into a category, as one map over
    the categories. *)
Lemma put_after_pop popped key entry target cats :
  NoDup cats.*1 →
  dict_alter (put_command key entry) (pop_everywhere popped cats) target
  = map_values (λ k c, if String.eqb k target
                       then put_command key entry (pop_command popped c)
                       else pop_command popped c) cats.
Proof.
  intros ND. rewrite dict_alter_fmap by by rewrite pop_everywhere_keys.
  unfold pop_everywhere, map_values. rewrite <- list_fmap_compose. apply list_fmap_ext.
  by intros i [k c] _.
Qed.

(** X16.  [command (name) setCategory (category)], when the category does
    not hold the command yet: afterwards the command is held by that
    category, with the entry the parser found, and by no other category; the
    keys and the order of the categories, their labels and all other
    commands are as before. *)
Theorem setCategory_single_holder cats name entry category_name category :
  NoDup cats.*1 →
  dict_get cats category_name = Some category →
  category_commands category !! name = None →
  ∃ cats' message,
    command_setCategory cats (name, entry) (category_name, category)
    = (cats', [remap_force_save; send_info message])
    ∧ cats'.*1 = cats.*1
    ∧ holders name cats' = [category_name]
    ∧ (category_commands <$> dict_get cats' category_name) ≫= (.!! name) = Some entry
    ∧ ∀ k key, key ≠ name →
        (category_commands <$> dict_get cats' k) ≫= (.!! key)
        = (category_commands <$> dict_get cats k) ≫= (.!! key).
Proof.
  intros ND Hget Hnot. unfold command_setCategory.
  rewrite bool_decide_eq_false_2 by (rewrite Hnot; by intros [? [=]]).
  eexists _, _. split; [done|]. rewrite put_after_pop by done. split_and!.
  - apply map_values_keys.
  - rewrite holders_map_values.
    rewrite (list_filter_iff _ (λ kc, kc.1 = category_name)).
    + by rewrite (filter_key cats category_name category).
    + intros [k c]. simpl. destruct (String.eqb k category_name) eqn:E.
      * apply String.eqb_eq in E as ->. simpl. rewrite lookup_insert_eq.
        split; [done|]. by eexists.
      * apply String.eqb_neq in E. simpl. rewrite lookup_delete_eq.
        split; [by intros [? [=]]|done].
  - rewrite dict_get_map_values, Hget, String.eqb_refl. simpl.
    apply lookup_insert_eq.
  - intros k key Hne. rewrite dict_get_map_values.
    destruct (dict_get cats k) as [c|]; [|done]. simpl.
    destruct (String.eqb k category_name); simpl.
    + rewrite lookup_insert_ne by done. by rewrite lookup_delete_ne.
    + by rewrite lookup_delete_ne.
Qed.

Lemma setCategory_single_holder_witness :
  ∃ cats' message,
    command_setCategory cats_example ("ping", ping_entry)
      ("fun", fun_category)
    = (cats', [remap_force_save; send_info message])
    ∧ cats'.*1 = cats_example.*1
    ∧ holders "ping" cats' = ["fun"]
    ∧ (category_commands <$> dict_get cats' "fun") ≫= (.!! "ping") = Some ping_entry
    ∧ ∀ k key, key ≠ "ping" →
        (category_commands <$> dict_get cats' k) ≫= (.!! key)
        = (category_commands <$> dict_get cats_example k) ≫= (.!! key).
Proof.
  apply (setCategory_single_holder cats_example "ping" ping_entry "fun"
           fun_category).
  - apply (bool_decide_unpack _). vm_compute. exact I.
  - reflexivity.
  - reflexivity.
Defined.

(** X17.  [category (name) addCommand (command)], when the category does not
    hold the command yet and the command is not called like the category:
    the loop of line 883 pops the name of the category, not the name of the
    command, so that the command stays in every category that held it and
    is held by one category more than before, while a command that is called
    like the category is dropped from every category. *)
Theorem category_addCommand_keeps_other_holders cats name category command_name command :
  NoDup cats.*1 →
  dict_get cats name = Some category →
  category_commands category !! command_name = None →
  command_name ≠ name →
  ∃ cats' message,
    category_addCommand cats (name, category) (command_name, command)
    = (cats', [remap_force_save; send_info message])
    ∧ cats'.*1 = cats.*1
    ∧ (∀ k, k ∈ holders command_name cats' ↔ k = name ∨ k ∈ holders command_name cats)
    ∧ (name ∉ holders command_name cats)
    ∧ (category_commands <$> dict_get cats' name) ≫= (.!! command_name) = Some command
    ∧ holders name cats' = [].
Proof.
  intros ND Hget Hnot Hne. unfold category_addCommand.
  rewrite bool_decide_eq_false_2 by (rewrite Hnot; by intros [? [=]]).
  eexists _, _. split; [done|]. rewrite put_after_pop by done.
  assert (Hne' : name ≠ command_name) by (by intros ->).
  assert (Hname : name ∉ holders command_name cats).
  { intros (c & Hin & Hc)%elem_of_holders.
    rewrite (dict_get_Some cats name c ND Hin) in Hget. injection Hget as ->.
    rewrite Hnot in Hc. by destruct Hc. }
  split_and!; [| |done| |].
  - apply map_values_keys.
  - intros k. rewrite holders_map_values, list_elem_of_fmap. split.
    + intros ([k' c] & -> & [Hc Hin]%list_elem_of_filter). simpl in *.
      destruct (String.eqb k' name) eqn:E; [left; by apply String.eqb_eq|right].
      simpl in Hc. rewrite lookup_delete_ne in Hc by done.
      apply elem_of_holders. by exists c.
    + intros [->|(c & Hin & Hc)%elem_of_holders].
      * exists (name, category). split; [done|]. apply list_elem_of_filter.
        split; [|by apply dict_get_elem_of]. simpl. rewrite String.eqb_refl. simpl.
        rewrite lookup_insert_eq. by eexists.
      * exists (k, c). split; [done|]. apply list_elem_of_filter. split; [|done].
        simpl. destruct (String.eqb k name); simpl.
        -- rewrite lookup_insert_eq. by eexists.
        -- by rewrite lookup_delete_ne.
  - rewrite dict_get_map_values, Hget, String.eqb_refl. simpl. apply lookup_insert_eq.
  - rewrite holders_map_values. replace (filter _ cats) with (@nil (string * CommandCategory));
      [done|].
    symmetry. apply elem_of_nil_inv. intros [k c] [Hc _]%list_elem_of_filter.
    simpl in Hc. destruct (String.eqb k name); simpl in Hc.
    + rewrite lookup_insert_ne, lookup_delete_eq in Hc by done. by destruct Hc.
    + rewrite lookup_delete_eq in Hc. by destruct Hc.
Qed.

Lemma category_addCommand_keeps_other_holders_witness :
  ∃ cats' message,
    category_addCommand cats_example
      ("fun", fun_category)
      ("ping", ping_entry)
    = (cats', [remap_force_save; send_info message])
    ∧ cats'.*1 = cats_example.*1
    ∧ (∀ k, k ∈ holders "ping" cats' ↔ k = "fun" ∨ k ∈ holders "ping" cats_example)
    ∧ ("fun" ∉ holders "ping" cats_example)
    ∧ (category_commands <$> dict_get cats' "fun") ≫= (.!! "ping") = Some ping_entry
    ∧ holders "fun" cats' = [].
Proof.
  apply (category_addCommand_keeps_other_holders cats_example "fun"
           fun_category "ping" ping_entry).
  - apply (bool_decide_unpack _). vm_compute. exact I.
  - reflexivity.
  - reflexivity.
  - discriminate.
Defined.

(** ** The handlers that take a command out of a category *)

Lemma map_values_compose {V} (f g : string → V → V) (d : list (string * V)) :
  map_values g (map_values f d) = map_values (λ k v, g k (f k v)) d.
Proof. unfold map_values. rewrite <- list_fmap_compose. by apply list_fmap_ext. Qed.

Lemma elem_of_holders_map_values (g : string → CommandCategory → CommandCategory)
    key cats k :
  k ∈ holders key (map_values g cats)
  ↔ ∃ c, (k, c) ∈ cats ∧ is_Some (category_commands (g k c) !! key).
Proof.
  rewrite holders_map_values, list_elem_of_fmap. split.
  - intros ([k' c] & -> & [H Hin]%list_elem_of_filter). by exists c.
  - intros (c & Hin & H). exists (k, c). split; [done|]. by apply list_elem_of_filter.
Qed.

Lemma reset_loop_spec DEFAULT_CATEGORY entry_bool name cats : ∀ removed,
  (reset_loop DEFAULT_CATEGORY entry_bool name cats removed).1
  = map_values (λ k c, if String.eqb DEFAULT_CATEGORY k then c else pop_command name c) cats.
Proof.
  induction cats as [|[k c] cats IH]; intros removed; [done|]. simpl.
  destruct (String.eqb DEFAULT_CATEGORY k).
  - specialize (IH removed). destruct (reset_loop _ _ _ _ _) as [cats' n]. simpl in *.
    by rewrite IH.
  - match goal with |- context [reset_loop _ _ _ _ ?r] => specialize (IH r) end.
    destruct (reset_loop _ _ _ _ _) as [cats' n]. simpl in *. by rewrite IH.
Qed.

(** X18.  [command (name) resetCategory] takes the command out of every
    category but the default one and puts it nowhere: the default category
    is left as it is, so that a command that the default category did not
    hold is afterwards held by no category. *)
Theorem resetCategory_takes_out_only DEFAULT_CATEGORY entry_bool cats name entry :
  ∃ cats' calls,
    command_resetCategory DEFAULT_CATEGORY entry_bool cats (name, entry) = (cats', calls)
    ∧ cats'.*1 = cats.*1
    ∧ dict_get cats' DEFAULT_CATEGORY = dict_get cats DEFAULT_CATEGORY
    ∧ (∀ k, k ∈ holders name cats' ↔ k = DEFAULT_CATEGORY ∧ k ∈ holders name cats)
    ∧ (DEFAULT_CATEGORY ∉ holders name cats → find_entry cats' name = None).
Proof.
  unfold command_resetCategory.
  pose proof (reset_loop_spec DEFAULT_CATEGORY entry_bool name cats 0) as Hloop.
  destruct (reset_loop _ _ _ _ _) as [cats' removed]. simpl in Hloop. subst cats'.
  set (g := λ (k : string) c, if String.eqb DEFAULT_CATEGORY k then c
                              else pop_command name c).
  assert (Hholders : ∀ k, k ∈ holders name (map_values g cats)
                          ↔ k = DEFAULT_CATEGORY ∧ k ∈ holders name cats).
  { intros k. rewrite elem_of_holders_map_values, elem_of_holders. unfold g. split.
    - intros (c & Hin & Hc). destruct (String.eqb DEFAULT_CATEGORY k) eqn:E.
      + apply String.eqb_eq in E as <-. split; [done|]. by exists c.
      + simpl in Hc. rewrite lookup_delete_eq in Hc. by destruct Hc.
    - intros [-> (c & Hin & Hc)]. exists c. by rewrite String.eqb_refl. }
  assert (Hfacts :
    (map_values g cats).*1 = cats.*1
    ∧ dict_get (map_values g cats) DEFAULT_CATEGORY = dict_get cats DEFAULT_CATEGORY
    ∧ (∀ k, k ∈ holders name (map_values g cats)
            ↔ k = DEFAULT_CATEGORY ∧ k ∈ holders name cats)
    ∧ (DEFAULT_CATEGORY ∉ holders name cats → find_entry (map_values g cats) name = None)).
  { split_and!.
    - apply map_values_keys.
    - rewrite dict_get_map_values. unfold g. rewrite String.eqb_refl.
      by destruct (dict_get cats DEFAULT_CATEGORY).
    - done.
    - intros Hno. destruct (find_entry (map_values g cats) name) as [e|] eqn:E; [|done].
      exfalso. assert (Hs : is_Some (find_entry (map_values g cats) name)) by by eexists.
      apply find_entry_holders in Hs.
      destruct (holders name (map_values g cats)) as [|k ks] eqn:Eh; [done|].
      assert (Hk : k ∈ k :: ks) by left.
      apply Hholders in Hk as [-> Hk]. by apply Hno. }
  destruct removed; by eexists _, _.
Qed.

Lemma resetCategory_takes_out_only_witness :
  ∃ cats' calls,
    command_resetCategory "default" (λ _, true) cats_example ("dice", dice_entry)
    = (cats', calls)
    ∧ cats'.*1 = cats_example.*1
    ∧ dict_get cats' "default" = dict_get cats_example "default"
    ∧ (∀ k, k ∈ holders "dice" cats' ↔ k = "default" ∧ k ∈ holders "dice" cats_example)
    ∧ ("default" ∉ holders "dice" cats_example → find_entry cats' "dice" = None).
Proof.
  apply (resetCategory_takes_out_only "default" (λ _, true) cats_example "dice" dice_entry).
Defined.

(** X19.  [category (name) removeCommand (command)] on a category other than
    the default one that holds the command, when the entry object is true
    and the default category exists: the command is taken out of that
    category and put into the default category with its entry, whatever the
    default category held under that name; the other categories are left as
    they are. *)
Theorem category_removeCommand_moves_to_default DEFAULT_CATEGORY entry_bool
    cats name category command e :
  NoDup cats.*1 →
  dict_get cats name = Some category →
  category_commands category !! lower command = Some e →
  name ≠ DEFAULT_CATEGORY →
  entry_bool e = true →
  DEFAULT_CATEGORY ∈ cats.*1 →
  ∃ cats' message,
    category_removeCommand DEFAULT_CATEGORY entry_bool cats (name, category) command
    = (cats', [remap_force_save; send_info message])
    ∧ cats'.*1 = cats.*1
    ∧ (category_commands <$> dict_get cats' DEFAULT_CATEGORY) ≫= (.!! lower command)
      = Some e
    ∧ (∀ k, k ∈ holders (lower command) cats'
            ↔ k = DEFAULT_CATEGORY
              ∨ (k ≠ name ∧ k ∈ holders (lower command) cats))
    ∧ ∀ k key, key ≠ lower command →
        (category_commands <$> dict_get cats' k) ≫= (.!! key)
        = (category_commands <$> dict_get cats k) ≫= (.!! key).
Proof.
  intros ND Hget Hheld Hne Htrue Hdefault. unfold category_removeCommand.
  rewrite Hheld. rewrite (proj2 (String.eqb_neq _ _) Hne), Htrue.
  rewrite (proj2 (dict_has_keys _ _)) by by rewrite dict_alter_keys.
  simpl andb. cbv iota.
  rewrite (dict_alter_fmap (pop_command _)) by done.
  rewrite dict_alter_fmap by by rewrite map_values_keys.
  rewrite map_values_compose.
  set (g := λ (k : string) c,
              if String.eqb k DEFAULT_CATEGORY
              then put_command (lower command) e
                     (if String.eqb k name then pop_command (lower command) c else c)
              else if String.eqb k name then pop_command (lower command) c else c).
  exists (map_values g cats). eexists. split; [done|].
  assert (Hd : ∃ d, dict_get cats DEFAULT_CATEGORY = Some d).
  { destruct (dict_get cats DEFAULT_CATEGORY) as [d|] eqn:E; [by exists d|].
    by apply dict_get_None in E. }
  destruct Hd as [d Hd]. split_and!.
  - apply map_values_keys.
  - rewrite dict_get_map_values, Hd. unfold g. rewrite String.eqb_refl. simpl.
    apply lookup_insert_eq.
  - intros k. rewrite elem_of_holders_map_values, elem_of_holders. unfold g. split.
    + intros (c & Hin & Hc).
      destruct (String.eqb k DEFAULT_CATEGORY) eqn:E1;
        [left; by apply String.eqb_eq|right].
      destruct (String.eqb k name) eqn:E2.
      * simpl in Hc. rewrite lookup_delete_eq in Hc. by destruct Hc.
      * apply String.eqb_neq in E2. split; [done|]. by exists c.
    + intros [->|[Hk (c & Hin & Hc)]].
      * exists d. split; [by apply dict_get_elem_of|].
        rewrite String.eqb_refl. simpl. rewrite lookup_insert_eq. by eexists.
      * exists c. split; [done|]. rewrite (proj2 (String.eqb_neq _ _) Hk).
        destruct (String.eqb k DEFAULT_CATEGORY); [|done].
        simpl. rewrite lookup_insert_eq. by eexists.
  - intros k key Hkey. rewrite dict_get_map_values.
    destruct (dict_get cats k) as [c|]; [|done]. simpl. unfold g.
    destruct (String.eqb k DEFAULT_CATEGORY), (String.eqb k name); simpl;
      rewrite ?lookup_insert_ne, ?lookup_delete_ne by done; done.
Qed.

Lemma category_removeCommand_moves_to_default_witness :
  ∃ cats' message,
    category_removeCommand "default" (λ _, true) cats_example
      ("fun", fun_category) "Dice"
    = (cats', [remap_force_save; send_info message])
    ∧ cats'.*1 = cats_example.*1
    ∧ (category_commands <$> dict_get cats' "default") ≫= (.!! lower "Dice")
      = Some dice_entry
    ∧ (∀ k, k ∈ holders (lower "Dice") cats'
            ↔ k = "default" ∨ (k ≠ "fun" ∧ k ∈ holders (lower "Dice") cats_example))
    ∧ ∀ k key, key ≠ lower "Dice" →
        (category_commands <$> dict_get cats' k) ≫= (.!! key)
        = (category_commands <$> dict_get cats_example k) ≫= (.!! key).
Proof.
  apply (category_removeCommand_moves_to_default "default" (λ _, true) cats_example "fun"
           fun_category "Dice" dice_entry).
  - apply (bool_decide_unpack _). vm_compute. exact I.
  - reflexivity.
  - reflexivity.
  - discriminate.
  - reflexivity.
  - apply (bool_decide_unpack _). vm_compute. exact I.
Defined.

(** ** Removing and moving a category *)

Lemma find_entry_held cats key :
  is_Some (find_entry cats key)
  ↔ ∃ k c, (k, c) ∈ cats ∧ is_Some (category_commands c !! key).
Proof.
  rewrite find_entry_holders. split.
  - intros Hne. destruct (holders key cats) as [|k ks] eqn:E; [done|].
    assert (Hk : k ∈ holders key cats) by (rewrite E; left).
    apply elem_of_holders in Hk as (c & Hin & Hc). by exists k, c.
  - intros (k & c & Hin & Hc) E.
    assert (Hk : k ∈ holders key cats) by (apply elem_of_holders; by exists c).
    rewrite E in Hk. by apply elem_of_nil in Hk.
Qed.

Lemma dict_get_present {V} (d : list (string * V)) k :
  k ∈ d.*1 → ∃ v, dict_get d k = Some v.
Proof.
  intros Hin. destruct (dict_get d k) as [v|] eqn:E; [by exists v|].
  by apply dict_get_None in E.
Qed.

(** X20.  [removeCategory (name)] on a configuration that has the default
    category: the default category is never removed; another category is
    removed after its commands were written into the default category,
    where they replace the entries of the same name, so that every command
    that some category held is still held by some category. *)
Theorem removeCategory_loses_no_command DEFAULT_CATEGORY cats name category :
  NoDup cats.*1 →
  dict_get cats name = Some category →
  DEFAULT_CATEGORY ∈ cats.*1 →
  ∃ cats' calls,
    removeCategory DEFAULT_CATEGORY cats (name, category) = (cats', calls, None)
    ∧ DEFAULT_CATEGORY ∈ cats'.*1
    ∧ (name = DEFAULT_CATEGORY → cats' = cats ∧ remap_force_save ∉ calls)
    ∧ (name ≠ DEFAULT_CATEGORY →
         cats'.*1 = filter (λ k, k ≠ name) cats.*1
         ∧ remap_force_save ∈ calls
         ∧ ∀ key e, category_commands category !! key = Some e →
             (category_commands <$> dict_get cats' DEFAULT_CATEGORY) ≫= (.!! key)
             = Some e)
    ∧ ∀ key, is_Some (find_entry cats key) → is_Some (find_entry cats' key).
Proof.
  intros ND Hget Hdefault. unfold removeCategory.
  destruct (String.eqb name DEFAULT_CATEGORY) eqn:E.
  { apply String.eqb_eq in E as ->. eexists _, _. split; [done|].
    split_and!; try done. intros _. split; [done|].
    by intros [=]%list_elem_of_singleton. }
  apply String.eqb_neq in E.
  rewrite (proj2 (dict_has_keys cats DEFAULT_CATEGORY)) by done.
  rewrite (proj2 (dict_has_keys _ name)).
  2:{ rewrite dict_alter_keys. apply list_elem_of_fmap. exists (name, category).
      split; [done|]. by apply dict_get_elem_of. }
  rewrite dict_alter_fmap by done.
  set (g := λ (k : string) d,
              if String.eqb k DEFAULT_CATEGORY
              then with_commands d (category_commands category ∪ category_commands d)
              else d).
  assert (ND' : NoDup (map_values g cats).*1) by by rewrite map_values_keys.
  destruct (dict_get_present cats DEFAULT_CATEGORY Hdefault) as [d Hd].
  eexists _, _. split; [done|].
  assert (Hkeys : (dict_del (map_values g cats) name).*1 = filter (λ k, k ≠ name) cats.*1).
  { by rewrite dict_del_keys, map_values_keys. }
  assert (Hkept : ∀ k c, (k, c) ∈ cats → k ≠ name →
                         (k, g k c) ∈ dict_del (map_values g cats) name).
  { intros k c Hin Hk. rewrite dict_del_filter by done.
    apply list_elem_of_filter. split; [done|].
    unfold map_values. apply list_elem_of_fmap. by exists (k, c). }
  split_and!.
  - rewrite Hkeys. apply list_elem_of_filter. split; [by intros ->|done].
  - done.
  - intros _. split_and!; [done|left|]. intros key e He.
    rewrite dict_get_del by done. rewrite (proj2 (String.eqb_neq _ _) E).
    rewrite dict_get_map_values, Hd. unfold g. rewrite String.eqb_refl. simpl.
    by apply lookup_union_Some_l.
  - intros key (k & c & Hin & Hc)%find_entry_held. apply find_entry_held.
    destruct (decide (k = name)) as [->|Hk].
    + rewrite (dict_get_Some cats name c ND Hin) in Hget. injection Hget as ->.
      exists DEFAULT_CATEGORY, (g DEFAULT_CATEGORY d). split.
      * apply Hkept; [by apply dict_get_elem_of|by intros <-].
      * unfold g. rewrite String.eqb_refl. simpl. destruct Hc as [e He].
        exists e. by apply lookup_union_Some_l.
    + exists k, (g k c). split; [by apply Hkept|]. unfold g.
      destruct (String.eqb k DEFAULT_CATEGORY); [|done]. simpl.
      apply lookup_union_is_Some. by right.
Qed.

Lemma removeCategory_loses_no_command_witness :
  ∃ cats' calls,
    removeCategory "default" cats_example
      ("fun", fun_category)
    = (cats', calls, None)
    ∧ "default" ∈ cats'.*1
    ∧ ("fun" = "default" → cats' = cats_example ∧ remap_force_save ∉ calls)
    ∧ ("fun" ≠ "default" →
         cats'.*1 = filter (λ k, k ≠ "fun") cats_example.*1
         ∧ remap_force_save ∈ calls
         ∧ ∀ key e, category_commands fun_category !! key = Some e →
             (category_commands <$> dict_get cats' "default") ≫= (.!! key) = Some e)
    ∧ ∀ key, is_Some (find_entry cats_example key) → is_Some (find_entry cats' key).
Proof.
  apply (removeCategory_loses_no_command "default" cats_example "fun"
           fun_category).
  - apply (bool_decide_unpack _). vm_compute. exact I.
  - reflexivity.
  - apply (bool_decide_unpack _). vm_compute. exact I.
Defined.

Lemma dict_del_middle {V} (pre post : list (string * V)) k v :
  k ∉ pre.*1 → dict_del (pre ++ (k, v) :: post) k = pre ++ post.
Proof.
  induction pre as [|[k' v'] pre IH]; simpl.
  - by rewrite String.eqb_refl.
  - intros [Hne Hk]%not_elem_of_cons.
    destruct (String.eqb k' k) eqn:E; [by apply String.eqb_eq in E|]. by rewrite IH.
Qed.

Lemma dict_del_Permutation {V} (d : list (string * V)) k v :
  dict_get d k = Some v → d ≡ₚ (k, v) :: dict_del d k.
Proof.
  induction d as [|[k' v'] d IH]; simpl; [done|].
  destruct (String.eqb k' k) eqn:E.
  - apply String.eqb_eq in E as ->. by intros [= ->].
  - intros H. rewrite (IH H) at 1. apply Permutation_swap.
Qed.

Lemma dict_del_length {V} (d : list (string * V)) k v :
  dict_get d k = Some v → length d = S (length (dict_del d k)).
Proof. intros H. by rewrite (dict_del_Permutation d k v H) at 1. Qed.

Lemma list_insert_at_Permutation {A} (i : nat) (x : A) l : list_insert_at i x l ≡ₚ x :: l.
Proof.
  unfold list_insert_at. rewrite <- Permutation_middle. by rewrite take_drop.
Qed.

(** X21.  [category (name) move (number)], for a number that [int] reads:
    the category goes to the position [number], counted from one and brought
    into the range from one to the number of categories; the other
    categories keep their relative order, and nothing is added or lost. *)
Theorem category_move_position int cats name category number n :
  NoDup cats.*1 →
  dict_get cats name = Some category →
  int number = Some n →
  ∃ cats' message,
    category_move int cats (name, category) number
    = (cats', [remap_force_save; send_info message], None)
    ∧ cats' !! Z.to_nat (Z.max 0 (Z.min (n - 1) (Z.of_nat (length cats) - 1)))
      = Some (name, category)
    ∧ dict_del cats' name = dict_del cats name
    ∧ cats' ≡ₚ cats.
Proof.
  intros ND Hget Hint. unfold category_move. rewrite Hint.
  assert (Hhas : dict_has cats name = true) by (unfold dict_has; by rewrite Hget).
  rewrite Hhas. eexists _, _. split; [done|].
  pose proof (dict_del_length cats name category Hget) as Hlen.
  pose proof (dict_del_Permutation cats name category Hget) as Hperm.
  set (items := dict_del cats name) in *.
  replace (Z.of_nat (length cats) - 1)%Z with (Z.of_nat (length items)) by lia.
  set (i := Z.to_nat (Z.max 0 (Z.min (n - 1) (Z.of_nat (length items))))).
  assert (Hi : (i ≤ length items)%nat) by lia.
  assert (Hname : name ∉ items.*1).
  { unfold items. rewrite dict_del_keys by done.
    by intros [? _]%list_elem_of_filter. }
  assert (NDi : NoDup items.*1).
  { unfold items. rewrite dict_del_keys by done. by apply NoDup_filter. }
  rewrite dict_update_new.
  2:{ simpl. rewrite (list_insert_at_Permutation i (name, category) items). simpl.
      by apply NoDup_cons. }
  simpl. unfold list_insert_at. split_and!.
  - rewrite lookup_app_r by (rewrite length_take; lia).
    rewrite length_take. by replace (i - i `min` length items) with 0 by lia.
  - rewrite dict_del_middle.
    + apply take_drop.
    + intros Hin. apply Hname. rewrite <- (take_drop i items), fmap_app.
      apply elem_of_app. by left.
  - rewrite Hperm. apply (list_insert_at_Permutation i).
Qed.

Lemma category_move_position_witness :
  ∃ cats' message,
    category_move int_decimal cats_example
      ("default", default_category) "-4"
    = (cats', [remap_force_save; send_info message], None)
    ∧ cats' !! Z.to_nat (Z.max 0 (Z.min (-4 - 1) (Z.of_nat (length cats_example) - 1)))
      = Some ("default", default_category)
    ∧ dict_del cats' "default" = dict_del cats_example "default"
    ∧ cats' ≡ₚ cats_example.
Proof.
  apply (category_move_position int_decimal cats_example "default"
           default_category
           "-4" (-4)).
  - apply (bool_decide_unpack _). vm_compute. exact I.
  - reflexivity.
  - reflexivity.
Defined.

(** ** Creating a category and a command *)

Lemma put_command_twice key e1 e2 category :
  put_command key e2 (put_command key e1 category) = put_command key e2 category.
Proof. unfold put_command, with_commands. simpl. by rewrite insert_insert_eq. Qed.

Lemma holders_cons key k c cats :
  holders key ((k, c) :: cats)
  = match category_commands c !! key with
    | Some _ => k :: holders key cats
    | None => holders key cats
    end.
Proof.
  unfold holders. rewrite filter_cons. simpl.
  destruct (category_commands c !! key) as [e|].
  - by rewrite decide_True by by eexists.
  - by rewrite decide_False by (by intros [? [=]]).
Qed.

Lemma holders_app key cats1 cats2 :
  holders key (cats1 ++ cats2) = holders key cats1 ++ holders key cats2.
Proof. unfold holders. by rewrite filter_app, fmap_app. Qed.

Lemma holders_pop_everywhere key cats : holders key (pop_everywhere key cats) = [].
Proof.
  induction cats as [|[k c] cats IH]; [done|].
  unfold pop_everywhere in *. rewrite fmap_cons, holders_cons. simpl.
  by rewrite lookup_delete_eq.
Qed.

Lemma dict_get_app_new {V} (d : list (string * V)) k v :
  k ∉ d.*1 → dict_get (d ++ [(k, v)]) k = Some v.
Proof.
  induction d as [|[k' v'] d IH]; simpl.
  - by rewrite String.eqb_refl.
  - intros [Hne Hk]%not_elem_of_cons.
    destruct (String.eqb k' k) eqn:E; [by apply String.eqb_eq in E|]. by apply IH.
Qed.

(** The inner loop of [addCategory]: every category is visited and every
    visit overwrites the entry of the new category, so that the last
    category decides. *)
Lemma take_command_spec blank key cats : ∀ category added,
  take_command blank key cats category added
  = (pop_everywhere key cats,
     match last cats with
     | Some kc => put_command key (default blank (category_commands kc.2 !! key)) category
     | None => category
     end,
     added + length (holders key cats)).
Proof.
  induction cats as [|[k c] cats IH]; intros category added; simpl.
  { by rewrite Nat.add_0_r. }
  rewrite holders_cons, last_cons.
  destruct (category_commands c !! key) as [e|] eqn:E; rewrite IH; simpl;
    (destruct (last cats) as [[kl cl]|]; simpl;
     [rewrite put_command_twice|]; f_equal; try lia).
  all: by rewrite E.
Qed.

(** X22.  [addCategory (name) (label) (command)] on a configuration that has
    categories but none called [name]: the new category goes last and is
    afterwards the only one that holds the command; the entry it holds is
    the one that the last of the old categories held, and a new empty entry
    when that category did not hold the command, whatever the categories
    before it held. *)
Theorem addCategory_keeps_entry_of_last_category
    blank new_category cats name label cmd_name pre k c :
  lower name ∉ cats.*1 →
  cats = pre ++ [(k, c)] →
  ∃ cats' message,
    addCategory blank new_category cats name label (Some [cmd_name])
    = (cats', [remap_force_save; send_info message])
    ∧ cats'.*1 = cats.*1 ++ [lower name]
    ∧ holders (lower cmd_name) cats' = [lower name]
    ∧ (category_commands <$> dict_get cats' (lower name)) ≫= (.!! lower cmd_name)
      = Some (default blank (category_commands c !! lower cmd_name)).
Proof.
  intros Hnew Hcats. unfold addCategory.
  assert (Hhas : dict_has cats (lower name) = false).
  { destruct (dict_has cats (lower name)) eqn:E; [|done]. by apply dict_has_keys in E. }
  rewrite Hhas. simpl take_commands. rewrite take_command_spec.
  assert (Hlast : last cats = Some (k, c)) by (rewrite Hcats; apply last_snoc).
  rewrite Hlast. simpl snd.
  rewrite dict_set_new by by rewrite pop_everywhere_keys.
  eexists _, _. split; [done|]. split_and!.
  - by rewrite fmap_app, pop_everywhere_keys.
  - rewrite holders_app, holders_pop_everywhere, holders_cons. simpl.
    by rewrite lookup_insert_eq.
  - rewrite dict_get_app_new by by rewrite pop_everywhere_keys.
    simpl. apply lookup_insert_eq.
Qed.

Lemma addCategory_keeps_entry_of_last_category_witness :
  ∃ cats' message,
    addCategory ping_entry (λ label, {| category_label := label; category_commands := ∅ |})
      cats_example "Games" None (Some ["Dice"])
    = (cats', [remap_force_save; send_info message])
    ∧ cats'.*1 = cats_example.*1 ++ [lower "Games"]
    ∧ holders (lower "Dice") cats' = [lower "Games"]
    ∧ (category_commands <$> dict_get cats' (lower "Games")) ≫= (.!! lower "Dice")
      = Some (default ping_entry (category_commands default_category !! lower "Dice")).
Proof.
  apply (addCategory_keeps_entry_of_last_category ping_entry
           (λ label, {| category_label := label; category_commands := ∅ |})
           cats_example "Games" None "Dice" [("fun", fun_category)] "default"
           default_category).
  - vm_compute. intros H.
    repeat (apply elem_of_cons in H as [H|H]; [discriminate H|]).
    by apply elem_of_nil in H.
  - reflexivity.
Defined.

Lemma select_handler_no_match name items : ∀ found,
  Forall (λ kh, name_matches name kh.2 = false) items →
  select_handler name items found
  = match last items with
    | Some kh => Some kh.2
    | None => found
    end.
Proof.
  induction items as [|[k h] items IH]; intros found Hno; [done|].
  apply Forall_cons in Hno as [Hh Hno]. simpl in *. rewrite Hh, IH by done.
  rewrite last_cons. by destruct (last items).
Qed.

Lemma select_handler_first_match name pre k h post found :
  Forall (λ kh, name_matches name kh.2 = false) pre →
  name_matches name h = true →
  select_handler name (pre ++ (k, h) :: post) found = Some h.
Proof.
  revert found. induction pre as [|[k' h'] pre IH]; intros found Hno Hh; simpl.
  - by rewrite Hh.
  - apply Forall_cons in Hno as [Hh' Hno]. simpl in Hh'. rewrite Hh'. by apply IH.
Qed.

(** X23.  [addCommand (name)] without a handler id, for a name that the
    default category does not hold yet: the new command is bound to the
    first handler whose name is the command name, up to letter case; when
    no handler has that name it is bound to the last handler of the
    manager all the same; and when the manager has no handler at all, the
    call ends with [AttributeError] after the empty entry was put into the
    category, without saving. *)
Theorem addCommand_selects_a_handler
    DEFAULT_CATEGORY blank api items name category_name category :
  parse api CategoryArgument DEFAULT_CATEGORY = Ok (VCategory category_name category) →
  category_commands category !! lower name = None →
  (∀ pre k h post,
     items = pre ++ (k, h) :: post →
     Forall (λ kh, name_matches (lower name) kh.2 = false) pre →
     name_matches (lower name) h = true →
     ∃ message,
       addCommand DEFAULT_CATEGORY blank api items name None None
       = (dict_alter (put_command (lower name) (with_handler blank (handler_id h)))
            (categories (config api)) category_name,
          [remap_force_save; send_info message], None))
  ∧ (∀ k h,
       Forall (λ kh, name_matches (lower name) kh.2 = false) items →
       last items = Some (k, h) →
       ∃ message,
         addCommand DEFAULT_CATEGORY blank api items name None None
         = (dict_alter (put_command (lower name) (with_handler blank (handler_id h)))
              (categories (config api)) category_name,
            [remap_force_save; send_info message], None))
  ∧ (items = [] →
       addCommand DEFAULT_CATEGORY blank api items name None None
       = (dict_alter (put_command (lower name) blank) (categories (config api))
            category_name,
          [], Some (AttributeError "id"))).
Proof.
  intros Hparse Hnew.
  assert (Hfree : bool_decide (is_Some (category_commands category !! lower name)) = false).
  { apply bool_decide_eq_false_2. rewrite Hnew. by intros [? [=]]. }
  split_and!.
  - intros pre k h post -> Hno Hh. unfold addCommand. rewrite Hparse, Hfree.
    rewrite (select_handler_first_match _ pre k h post None Hno Hh). by eexists.
  - intros k h Hno Hlast. unfold addCommand. rewrite Hparse, Hfree.
    rewrite (select_handler_no_match _ items None Hno), Hlast. by eexists.
  - intros ->. unfold addCommand. by rewrite Hparse, Hfree.
Qed.

Lemma addCommand_selects_a_handler_witness :
  (∀ pre k h post,
     [("ping", {| handler_id := "ping"; handler_name := Some "ping" |})]
     = pre ++ (k, h) :: post →
     Forall (λ kh, name_matches (lower "Pong") kh.2 = false) pre →
     name_matches (lower "Pong") h = true →
     ∃ message,
       addCommand "default" ping_entry api_example
         [("ping", {| handler_id := "ping"; handler_name := Some "ping" |})]
         "Pong" None None
       = (dict_alter (put_command (lower "Pong") (with_handler ping_entry (handler_id h)))
            (categories (config api_example)) "default",
          [remap_force_save; send_info message], None))
  ∧ (∀ k h,
       Forall (λ kh, name_matches (lower "Pong") kh.2 = false)
         [("ping", {| handler_id := "ping"; handler_name := Some "ping" |})] →
       last [("ping", {| handler_id := "ping"; handler_name := Some "ping" |})]
       = Some (k, h) →
       ∃ message,
         addCommand "default" ping_entry api_example
           [("ping", {| handler_id := "ping"; handler_name := Some "ping" |})]
           "Pong" None None
         = (dict_alter (put_command (lower "Pong") (with_handler ping_entry (handler_id h)))
              (categories (config api_example)) "default",
            [remap_force_save; send_info message], None))
  ∧ ([("ping", {| handler_id := "ping"; handler_name := Some "ping" |})] = [] →
       addCommand "default" ping_entry api_example
         [("ping", {| handler_id := "ping"; handler_name := Some "ping" |})]
         "Pong" None None
       = (dict_alter (put_command (lower "Pong") ping_entry)
            (categories (config api_example)) "default",
          [], Some (AttributeError "id"))).
Proof.
  apply (addCommand_selects_a_handler "default" ping_entry api_example
           [("ping", {| handler_id := "ping"; handler_name := Some "ping" |})]
           "Pong" "default"
           {| category_label := None; category_commands := {[ "ping" := ping_entry ]} |}).
  - reflexivity.
  - reflexivity.
Defined.

(** ** Binding on the shipped registry *)

Lemma bind_parameters_binds params : ∀ values kwargs,
  is_Some (bind_parameters params values kwargs)
  ↔ forallb optional_parameter (drop (length values) params) = true.
Proof.
  induction params as [|p params IH]; intros values kwargs.
  { rewrite drop_nil. simpl. split; [done|]. by eexists. }
  destruct values as [|v values]; simpl.
  - unfold optional_parameter at 1. destruct (nullable p); simpl.
    + rewrite (IH [] _). by rewrite drop_0.
    + destruct (pdefault p) as [d|]; simpl.
      * rewrite (IH [] _). by rewrite drop_0.
      * split; [by intros [? [=]]|done].
  - apply IH.
Qed.

Lemma get_handler_params_binds ctx function values :
  is_Some (get_handler_params ctx function values)
  ↔ binds (length values) function = true.
Proof.
  unfold get_handler_params, binds.
  destruct (parameters function) as [|p0 [|p1 params]];
    [split; [by intros [? [=]]|done]..|].
  apply bind_parameters_binds.
Qed.

Section Count.

Variable api : CommandManager.
Variable arguments : list string.

Lemma scan_position_ok_inv idx arg snapshot : ∀ st st',
  scan_position api arguments idx arg snapshot st = Ok st' →
  ∀ c, c ∈ snapshot → ∃ a, scan_body api arguments idx arg c = Ok a.
Proof.
  induction snapshot as [|cmd snapshot IH]; intros st st' Hrun c Hc.
  { by apply elem_of_nil in Hc. }
  simpl in Hrun. apply bind_Ok in Hrun as (st1 & Hcmd & Hrest).
  unfold scan_cmd in Hcmd. apply bind_Ok in Hcmd as (a & Hbody & _).
  apply elem_of_cons in Hc as [->|Hc]; [by exists a|]. by eapply IH.
Qed.

(** When the scan completes, the loop body has completed for every
    candidate at every token up to which the candidate was live. *)
Lemma scan_from_ok_inv rest : ∀ idx st st',
  NoDup (hid <$> st_handlers st) →
  scan_from api arguments idx rest st = Ok st' →
  ∀ i arg c, rest !! i = Some arg → c ∈ st_handlers st →
             live_from idx (take i rest) c →
             ∃ a, scan_body api arguments (idx + i) arg c = Ok a.
Proof.
  induction rest as [|arg0 rest IH]; intros idx st st' ND Hrun i arg c Hi Hc Hl; [done|].
  simpl in Hrun. apply bind_Ok in Hrun as (st1 & Hpos & Hrest).
  destruct i as [|i]; simpl in Hi.
  - injection Hi as <-. rewrite Nat.add_0_r. by eapply scan_position_ok_inv.
  - simpl in Hl. apply andb_True in Hl as [Hs Hl].
    destruct (scan_position_spec api arguments idx arg0 (st_handlers st) [] st st1)
      as (Hh & _); [done..|]. simpl in Hh.
    replace (idx + S i) with (S idx + i) by lia.
    apply (IH (S idx) st1 st'); try done.
    + rewrite Hh. eapply NoDup_hid_sublist; [apply sublist_filter|done].
    + rewrite Hh. by apply list_elem_of_filter.
Qed.

(** The number of values collected by a candidate for which the loop body
    completes at every token. *)
Lemma collected_count cmd rest : ∀ idx,
  (∀ i arg, rest !! i = Some arg → ∃ a, scan_body api arguments (idx + i) arg cmd = Ok a) →
  length (collected_from api arguments idx rest cmd)
  = length (filter (λ typ, appends_value typ) (take (length rest) (drop idx (args cmd)))).
Proof.
  induction rest as [|arg rest IH]; intros idx Hok; [done|].
  simpl collected_from. rewrite length_app, IH.
  2:{ intros i a Hi. replace (S idx + i) with (idx + S i) by lia. by apply Hok. }
  destruct (Hok 0 arg eq_refl) as [a Ha]. rewrite Nat.add_0_r in Ha.
  unfold emits. rewrite Ha. unfold scan_body in Ha.
  destruct (args cmd !! idx) as [typ|] eqn:E.
  - rewrite (drop_S _ typ idx E). simpl take.
    assert (Hyes : unwrap_optional typ = unwrap_optional typ → appends_value typ = true →
                   ∀ l, length (filter (λ typ, appends_value typ) (typ :: l))
                        = S (length (filter (λ typ, appends_value typ) l))).
    { intros _ H l. by rewrite filter_cons_bool, H. }
    assert (Hno : appends_value typ = false →
                  ∀ l, length (filter (λ typ, appends_value typ) (typ :: l))
                       = length (filter (λ typ, appends_value typ) l)).
    { intros H l. by rewrite filter_cons_bool, H. }
    unfold appends_value in Hyes, Hno.
    destruct (unwrap_optional typ) as [text|p|[]|ts]; simpl in Ha.
    + rewrite Hno by done. destruct (String.eqb _ _); by injection Ha as <-.
    + rewrite Hyes by done. destruct (parse api p arg); [|done]. by injection Ha as <-.
    + rewrite Hyes by done. by injection Ha as <-.
    + rewrite Hyes by done. by injection Ha as <-.
    + rewrite Hyes by done. by injection Ha as <-.
    + rewrite Hno by done. by injection Ha as <-.
    + rewrite Hno by done. by injection Ha as <-.
  - rewrite !drop_ge by (apply lookup_ge_None in E; lia).
    rewrite take_nil. destruct (ignore_args_size cmd); by injection Ha as <-.
Qed.

End Count.

Lemma Handler_handlers_bind :
  Forall (λ cmd, binds_whenever_complete cmd = true) Handler_handlers.
Proof. apply (bool_decide_unpack _). vm_compute. exact I. Qed.

Lemma binds_of_complete cmd n :
  binds_whenever_complete cmd = true →
  existsb (λ typ, negb (is_optional typ)) (drop n (args cmd)) = false →
  binds (values_count n cmd) (handler cmd) = true.
Proof.
  unfold binds_whenever_complete. rewrite forallb_forall. intros Hall Hmiss.
  destruct (decide (n ≤ length (args cmd))%nat) as [Hle|Hgt].
  - specialize (Hall n ltac:(apply in_seq; lia)). by rewrite Hmiss in Hall.
  - specialize (Hall (length (args cmd)) ltac:(apply in_seq; lia)).
    rewrite drop_all in Hall. simpl in Hall.
    unfold values_count in *. rewrite take_ge by lia. by rewrite firstn_all in Hall.
Qed.

(** X24.  On the shipped registry the binder never fails: whenever the
    matching phase chooses a candidate, the values it has collected can be
    bound to the parameters of its function, so that [get_command] returns
    that function.  The [CommandInfoError] of line 134 is never raised; the
    one of line 127 is the only one. *)
Theorem shipped_binding_never_fails api ctx w values :
  match_command api Handler_handlers (arguments ctx) = Ok (w, values) →
  ∃ kwargs, get_command api Handler_handlers ctx = Ok (handler w, kwargs).
Proof.
  intros Hm. unfold get_command. rewrite Hm. simpl.
  assert (Hb : is_Some (get_handler_params ctx (handler w) values)).
  2:{ destruct Hb as [kwargs ->]. by exists kwargs. }
  set (tokens := arguments ctx) in *.
  assert (Hne : tokens ≠ []) by (by intros E; rewrite E in Hm).
  destruct (scan api Handler_handlers tokens) as [st|e] eqn:Hscan.
  2:{ by rewrite (match_command_scan_raises api Handler_handlers tokens e Hne Hscan) in Hm. }
  apply match_command_ok_inv in Hm as [Hw ->]; [|apply Handler_handlers_distinct].
  apply survivors_live in Hw as (Hin & Hlive & Hmiss).
  apply get_handler_params_binds.
  rewrite (collected_count api tokens w tokens 0).
  - rewrite drop_0. fold (values_count (length tokens) w).
    apply binds_of_complete; [|done].
    pose proof Handler_handlers_bind as Hall. rewrite Forall_forall in Hall.
    by apply Hall.
  - intros i arg Hi.
    apply (scan_from_ok_inv api tokens tokens 0 (init_state Handler_handlers) st);
      try done.
    + apply Handler_handlers_distinct.
    + rewrite <- (take_drop i tokens), live_from_app in Hlive.
      apply andb_prop in Hlive as [Hlive _]. by apply Is_true_true.
Qed.

Lemma shipped_binding_never_fails_witness :
  ∃ kwargs,
    get_command api_example Handler_handlers (ctx_of ["addCategory"; "games"])
    = Ok (handler (handler_at 742), kwargs).
Proof.
  apply (shipped_binding_never_fails api_example (ctx_of ["addCategory"; "games"])
           (handler_at 742) [VStr "games"]).
  vm_compute. reflexivity.
Defined.

(** ** An unknown entity at the entry point *)

Lemma scan_raises_at_entity api registry t0 t1 rest kw p e cmd cmds :
  NoDup (hid <$> registry) →
  keyword_first registry →
  lower t0 = lower kw →
  filter (λ c, stays 0 kw c) registry = cmd :: cmds →
  args cmd !! 1 = Some (Parser p) →
  parse api p t1 = Raise e →
  scan api registry (t0 :: t1 :: rest) = Raise e.
Proof.
  intros ND Hk Hkw Hlive Hp Hparse. unfold scan. simpl scan_from.
  destruct (scan_position_ok api (t0 :: t1 :: rest) 0 t0 registry (init_state registry))
    as [st1 H1].
  { intros c Hc. unfold keyword_first in Hk. rewrite Forall_forall in Hk.
    destruct (Hk c Hc) as [text Htext]. unfold scan_body. rewrite Htext. simpl.
    destruct (String.eqb _ _); by eexists. }
  rewrite H1. simpl.
  destruct (scan_position_spec api (t0 :: t1 :: rest) 0 t0 registry [] (init_state registry) st1)
    as (Hh & _); [done..|].
  simpl in Hh. rewrite Hh.
  rewrite (list_filter_iff _ (λ c, stays 0 kw c)), Hlive.
  2:{ intros c. by rewrite (stays_lower 0 t0 kw c Hkw). }
  simpl. unfold scan_cmd, scan_body. rewrite Hp. simpl. by rewrite Hparse.
Qed.

(** X25.  On the shipped registry, when the first token is, up to letter
    case, the keyword of the signatures that take an entity next
    ([removeCommand], [command], [deleteGroup], [group], [removeCategory],
    [category]) and the parser of that entity rejects the second token, the
    call ends with the message of the parser, whatever tokens follow; the
    entry point sends that message as a warning. *)
Theorem unknown_entity_warning api ctx t0 t1 rest kw p e :
  arguments ctx = t0 :: t1 :: rest →
  lower t0 = lower kw →
  (kw, p) ∈ entity_keywords Handler_handlers →
  parse api p t1 = Raise e →
  get_command api Handler_handlers ctx = Raise e
  ∧ ∃ message, e = CommandMessageError message
     ∧ cmd_cconf (get_command api Handler_handlers) ctx = SendWarn message.
Proof.
  intros Hargs Hkw Hin Hparse.
  assert (Hscan : scan api Handler_handlers (t0 :: t1 :: rest) = Raise e).
  { vm_compute in Hin.
    repeat (apply elem_of_cons in Hin as [[= -> ->]|Hin];
            [eapply (scan_raises_at_entity api Handler_handlers t0 t1 rest _ _ e);
               [apply Handler_handlers_distinct|apply Handler_handlers_keyword_first
               |exact Hkw|vm_compute; reflexivity|reflexivity|exact Hparse]|]).
    by apply elem_of_nil in Hin. }
  assert (Hget : get_command api Handler_handlers ctx = Raise e).
  { unfold get_command.
    rewrite (match_command_scan_raises api Handler_handlers (arguments ctx) e);
      [done|by rewrite Hargs|by rewrite Hargs]. }
  split; [done|].
  destruct (parse_raises api p t1 e Hparse) as [message ->]. exists message.
  split; [done|]. unfold cmd_cconf. rewrite Hget, Hargs. simpl.
  destruct (String.eqb t0 "help") eqn:E; [|done].
  apply String.eqb_eq in E as ->. exfalso. vm_compute in Hin.
  repeat (apply elem_of_cons in Hin as [[= -> ->]|Hin]; [discriminate Hkw|]).
  by apply elem_of_nil in Hin.
Qed.

Lemma unknown_entity_warning_witness :
  get_command api_example Handler_handlers (ctx_of ["GROUP"; "Staff"; "bogus"; "x"])
  = Raise (CommandMessageError (msg_group "staff"))
  ∧ ∃ message, CommandMessageError (msg_group "staff") = CommandMessageError message
     ∧ cmd_cconf (get_command api_example Handler_handlers)
         (ctx_of ["GROUP"; "Staff"; "bogus"; "x"]) = SendWarn message.
Proof.
  apply (unknown_entity_warning api_example (ctx_of ["GROUP"; "Staff"; "bogus"; "x"])
           "GROUP" "Staff" ["bogus"; "x"] "group" GroupArgument).
  - reflexivity.
  - reflexivity.
  - apply list_elem_of_In. vm_compute. tauto.
  - reflexivity.
Defined.

(** ** C8: letter case of the tokens and of the literals *)

Lemma nat_of_lower_ascii c :
  nat_of_ascii (Str.lower_ascii c)
  = if is_upper_letter c then nat_of_ascii c + 32 else nat_of_ascii c.
Proof.
  unfold Str.lower_ascii, is_upper_letter. cbv zeta.
  destruct (_ && _) eqn:E; [|done].
  apply nat_ascii_embedding. apply andb_true_iff in E as [_ E].
  apply Nat.leb_le in E. lia.
Qed.

Lemma nat_of_ascii_inj a b : nat_of_ascii a = nat_of_ascii b → a = b.
Proof.
  intros H. rewrite <- (ascii_nat_embedding a), <- (ascii_nat_embedding b). by rewrite H.
Qed.

(** Two characters are the same letter exactly when lower-casing makes
    them equal. *)
Lemma same_letter_lower a b :
  same_letter a b = true ↔ Str.lower_ascii a = Str.lower_ascii b.
Proof.
  assert (Hinj : Str.lower_ascii a = Str.lower_ascii b
                 ↔ nat_of_ascii (Str.lower_ascii a) = nat_of_ascii (Str.lower_ascii b)).
  { split; [by intros ->|apply nat_of_ascii_inj]. }
  rewrite Hinj, !nat_of_lower_ascii. unfold same_letter, is_upper_letter. cbv zeta.
  assert (Heq : Ascii.eqb a b = true ↔ nat_of_ascii a = nat_of_ascii b).
  { rewrite Ascii.eqb_eq. split; [by intros ->|apply nat_of_ascii_inj]. }
  rewrite !orb_true_iff, !andb_true_iff, Heq, !Nat.leb_le, !Nat.eqb_eq.
  destruct ((65 <=? nat_of_ascii a)%nat && (nat_of_ascii a <=? 90)%nat) eqn:Ea,
           ((65 <=? nat_of_ascii b)%nat && (nat_of_ascii b <=? 90)%nat) eqn:Eb;
    try (apply andb_true_iff in Ea as [?%Nat.leb_le ?%Nat.leb_le]);
    try (apply andb_false_iff in Ea as [?%Nat.leb_gt|?%Nat.leb_gt]);
    try (apply andb_true_iff in Eb as [?%Nat.leb_le ?%Nat.leb_le]);
    try (apply andb_false_iff in Eb as [?%Nat.leb_gt|?%Nat.leb_gt]); lia.
Qed.

Lemma eq_ignore_case_lower s : ∀ t,
  eq_ignore_case s t = true ↔ lower s = lower t.
Proof.
  induction s as [|a s IH]; intros [|b t]; simpl; try done.
  rewrite andb_true_iff, same_letter_lower, IH. split.
  - by intros [-> ->].
  - by intros [= -> ->].
Qed.

Lemma no_upper_lower s : no_upper s = true ↔ lower s = s.
Proof.
  induction s as [|c s IH]; simpl; [done|].
  rewrite andb_true_iff, negb_true_iff, IH.
  assert (Hc : is_upper_letter c = false ↔ Str.lower_ascii c = c).
  { split.
    - intros H. apply nat_of_ascii_inj. by rewrite nat_of_lower_ascii, H.
    - intros H. apply (f_equal nat_of_ascii) in H. rewrite nat_of_lower_ascii in H.
      destruct (is_upper_letter c); [lia|done]. }
  rewrite Hc. split.
  - by intros [-> ->].
  - by intros [= -> ->].
Qed.

Lemma lower_fmap_of_Forall2 l : ∀ l',
  Forall2 (λ a b, eq_ignore_case a b) l l' → lower <$> l = lower <$> l'.
Proof.
  induction l as [|a l IH]; intros l' H; inversion H as [|? b ? l2 Hab Hl]; subst; [done|].
  rewrite !fmap_cons. f_equal; [|by apply IH].
  apply eq_ignore_case_lower. by apply Is_true_true.
Qed.

Lemma live_from_stays rest : ∀ idx i arg cmd,
  live_from idx rest cmd = true → rest !! i = Some arg → stays (idx + i) arg cmd = true.
Proof.
  induction rest as [|a rest IH]; intros idx i arg cmd Hl Hi; [done|].
  simpl in Hl. apply andb_true_iff in Hl as [Ha Hl]. destruct i as [|i]; simpl in Hi.
  - injection Hi as <-. by rewrite Nat.add_0_r.
  - replace (idx + S i) with (S idx + i) by lia. by apply IH.
Qed.

Lemma find_entry_Some cats key e :
  find_entry cats key = Some e →
  ∃ k c, (k, c) ∈ cats ∧ category_commands c !! key = Some e.
Proof.
  induction cats as [|[k c] cats IH]; simpl; [done|].
  destruct (category_commands c !! key) as [e'|] eqn:E.
  - intros [= ->]. exists k, c. split; [left|done].
  - intros (k' & c' & Hin & He)%IH. exists k', c'. split; [by right|done].
Qed.

Lemma parse_held api p arg v :
  parse api p arg = Ok v → held_under api p (lower arg) v.
Proof.
  unfold parse. destruct p; simpl.
  - destruct (find_entry _ _) as [e|] eqn:E; [|done]. intros [= <-].
    split; [done|]. by apply find_entry_Some.
  - destruct (cm_handlers api !! lower arg) as [h|] eqn:E; [|done]. by intros [= <-].
  - destruct (groups (config api) !! lower arg) as [g|] eqn:E; [|done]. by intros [= <-].
  - destruct (dict_get _ _) as [c|] eqn:E; [|done]. by intros [= <-].
Qed.



(** ** C10: the [help] shortcut of the entry point *)

Lemma get_command_ok_inv api registry ctx function kwargs :
  NoDup (hid <$> registry) →
  get_command api registry ctx = Ok (function, kwargs) →
  ∃ cmd, cmd ∈ registry ∧ handler cmd = function
         ∧ live_from 0 (arguments ctx) cmd = true.
Proof.
  intros ND. unfold get_command.
  destruct (match_command api registry (arguments ctx)) as [[w vs]|e] eqn:Hm; [|done].
  simpl. destruct (get_handler_params ctx (handler w) vs); [|done]. intros [= <- _].
  apply match_command_chooses_survivor, survivors_live in Hm as (Hin & Hlive & _);
    [|done].
  by exists w.
Qed.

(** A handler is invoked only with what the engine returned, and never
    for the token [help]. *)
Lemma cmd_cconf_Invoke engine ctx function kwargs :
  cmd_cconf engine ctx = Invoke function kwargs
  ↔ arguments_get (arguments ctx) "" ≠ "help" ∧ engine ctx = Ok (function, kwargs).
Proof.
  unfold cmd_cconf. destruct (String.eqb _ "help") eqn:E.
  - apply String.eqb_eq in E. split; [done|]. by intros [? _].
  - apply String.eqb_neq in E. destruct (engine ctx) as [[f kw]|e].
    + split; [by intros [= -> ->]|by intros [_ [= -> ->]]].
    + split; [|by intros [_ ?]]. destruct e as [m| |c]; try done.
      destruct (docs c) as [text|]; [|done]. by destruct (String.eqb text "").
Qed.

(** A registry whose only signature is the literal [help]: which command
    lines the engine resolves. *)
Lemma lone_help_resolution api cmd ctx token rest :
  args cmd = [Literal "help"] →
  length (parameters (handler cmd)) = 2 →
  arguments ctx = token :: rest →
  (∃ kwargs, get_command api [cmd] ctx = Ok (handler cmd, kwargs))
  ↔ rest = [] ∧ lower "help" = lower token.
Proof.
  intros Hargs Hparams Htokens.
  assert (ND : NoDup (hid <$> [cmd])) by (apply NoDup_singleton).
  assert (Hne : arguments ctx ≠ []) by by rewrite Htokens.
  destruct (scan_from_ok api (arguments ctx) (arguments ctx) 0 (init_state [cmd]) ND)
    as [st Hst].
  { intros i arg c Hi Hc Hl. simpl in Hc. apply list_elem_of_singleton in Hc as ->.
    unfold scan_body. rewrite Hargs.
    destruct i as [|i]; cbn -[String.eqb lower].
    - destruct (String.eqb _ _); by eexists.
    - unfold ignore_args_size. rewrite Hargs. simpl. by eexists. }
  unfold get_command.
  rewrite (match_command_spec api [cmd] (arguments ctx) ND st Hne Hst).
  rewrite survivors_filter, filter_cons_bool, filter_nil.
  assert (Hs : survives (arguments ctx) cmd
               = String.eqb (lower "help") (lower token)
                 && match rest with [] => true | _ => false end).
  { unfold survives, missing_required. rewrite Htokens, Hargs.
    cbn -[String.eqb lower stays]. rewrite drop_nil. cbn -[String.eqb lower stays].
    rewrite andb_true_r. f_equal.
    - unfold stays. by rewrite Hargs.
    - destruct rest as [|t rest']; [done|]. cbn -[stays].
      unfold stays. rewrite Hargs. cbn. unfold ignore_args_size. by rewrite Hargs. }
  rewrite Hs. destruct (String.eqb (lower "help") (lower token)) eqn:E.
  - apply String.eqb_eq in E. destruct rest as [|t rest']; simpl.
    + unfold get_handler_params.
      destruct (parameters (handler cmd)) as [|p1 [|p2 [|p3 ps]]]; try done.
      simpl. split; [done|]. intros _. by eexists.
    + split; [|by intros [[=] _]]. intros [kwargs H].
      by destruct (arity_errors _ _) as [|? [|]].
  - apply String.eqb_neq in E. simpl. split; [|by intros [_ ?]]. intros [kwargs H].
    by destruct (arity_errors _ _) as [|? [|]].
Qed.




(** ** C1: the rest capture *)

Lemma missing_required_rest tokens cmd pattern typ :
  args cmd = pattern ++ [typ] → is_list_type typ →
  (length tokens ≤ length pattern)%nat → missing_required tokens cmd = true.
Proof.
  intros Hshape Hrest Hlen. unfold missing_required.
  rewrite Hshape, drop_app_le by done.
  apply existsb_exists. exists typ. split.
  - apply list_elem_of_In, elem_of_app. right. left.
  - by destruct typ as [| |[]|].
Qed.

Lemma shipped_rest_capture_resolves api ctx cmd pattern typ pre rest :
  cmd ∈ Handler_handlers →
  args cmd = pattern ++ [typ] →
  is_list_type typ →
  arguments ctx = pre ++ rest →
  Forall2 (matches_element api) pattern pre →
  rest ≠ [] →
  ∃ kwargs p,
    get_command api Handler_handlers ctx = Ok (handler cmd, kwargs)
    ∧ last (parameters (handler cmd)) = Some p
    ∧ kwargs !! pname p = Some (VArgs rest).
Proof.
  intros Hin Hshape Hrest Hargs Hfit Hne.
  assert (Hign : ignore_args_size cmd = true).
  { unfold ignore_args_size. rewrite Hshape, last_snoc. by apply Is_true_true. }
  destruct rest as [|r rest]; [done|].
  destruct (rest_candidates cmd Hin Hign) as [->| ->].
  - change (args (handler_at 299))
      with ([Literal "command"; Parser CommandEntryArgument; Literal "addAlias"]
              ++ [Type_ TListStr]) in Hshape.
    apply app_inj_tail in Hshape as [<- _].
    apply Forall2_3 in Hfit as (t0 & t1 & t2 & -> & H0 & [v H1] & H2).
    destruct (alias_commands api ctx "addAlias" (handler_at 299) t0 t1 t2 r rest v)
      as (kwargs & Hk & Ha); try done; [by left|].
    exists kwargs, (param "alias"). by split_and!.
  - change (args (handler_at 327))
      with ([Literal "command"; Parser CommandEntryArgument; Literal "removeAlias"]
              ++ [Type_ TListStr]) in Hshape.
    apply app_inj_tail in Hshape as [<- _].
    apply Forall2_3 in Hfit as (t0 & t1 & t2 & -> & H0 & [v H1] & H2).
    destruct (alias_commands api ctx "removeAlias" (handler_at 327) t0 t1 t2 r rest v)
      as (kwargs & Hk & Ha); try done; [by right|].
    exists kwargs, (param "alias"). by split_and!.
Qed.




(** ** C6: the round trip from a pattern to its operation *)

Lemma live_from_intro rest : ∀ idx cmd,
  (∀ i arg, rest !! i = Some arg → stays (idx + i) arg cmd = true) →
  live_from idx rest cmd = true.
Proof.
  induction rest as [|a rest IH]; intros idx cmd H; [done|]. simpl.
  apply andb_true_intro. split.
  - specialize (H 0 a eq_refl). by rewrite Nat.add_0_r in H.
  - apply IH. intros i arg Hi. replace (S idx + i) with (idx + S i) by lia. by apply H.
Qed.

Lemma elem_of_hid_inj (registry : list Handler) c c' :
  NoDup (hid <$> registry) → c ∈ registry → c' ∈ registry → hid c = hid c' → c = c'.
Proof.
  induction registry as [|x l IH]; intros ND Hc Hc' E; [by apply elem_of_nil in Hc|].
  rewrite fmap_cons in ND. apply NoDup_cons in ND as [Hx ND].
  apply elem_of_cons in Hc as [->|Hc], Hc' as [->|Hc']; [done| | |by apply IH].
  - exfalso. apply Hx. rewrite E. by apply list_elem_of_fmap_2.
  - exfalso. apply Hx. rewrite <- E. by apply list_elem_of_fmap_2.
Qed.

Lemma unwrap_optional_Literal typ text :
  unwrap_optional typ = Literal text → typ = Literal text.
Proof.
  unfold unwrap_optional. destruct (is_optional typ) eqn:E; [|done].
  by destruct typ as [| | |[|t ts]].
Qed.

Lemma unwrap_optional_Parser typ p :
  unwrap_optional typ = Parser p → typ = Parser p.
Proof.
  unfold unwrap_optional. destruct (is_optional typ) eqn:E; [|done].
  by destruct typ as [| | |[|t ts]].
Qed.

Lemma stays_Literal i arg c text :
  args c !! i = Some (Literal text) →
  stays i arg c = true → lower text = lower arg.
Proof. unfold stays. intros ->. simpl. apply String.eqb_eq. Qed.

Section RoundTrip.

Variable api : CommandManager.
Variable registry : list Handler.
Variable tokens : list string.
Variable cmd : Handler.

Hypothesis distinct : NoDup (hid <$> registry).
Hypothesis ready : round_trip_ready registry = true.
Hypothesis registered : cmd ∈ registry.
Hypothesis nonempty : tokens ≠ [].
Hypothesis fits : Forall2 (matches_element api) (take (length tokens) (args cmd)) tokens.
Hypothesis complete : missing_required tokens cmd = false.

Lemma fits_length : (length tokens ≤ length (args cmd))%nat.
Proof. apply Forall2_length in fits. rewrite length_take in fits. lia. Qed.

Lemma fits_lookup i typ arg :
  args cmd !! i = Some typ → tokens !! i = Some arg → matches_element api typ arg.
Proof.
  intros Ht Ha. eapply Forall2_lookup_lr; [apply fits| |done].
  rewrite lookup_take_lt; [done|]. by apply lookup_lt_Some in Ha.
Qed.

Lemma required_within i typ :
  args cmd !! i = Some typ → is_optional typ = false → (i < length tokens)%nat.
Proof.
  intros Ht Ho. destruct (decide (i < length tokens)%nat) as [?|Hge]; [done|].
  exfalso. unfold missing_required in complete.
  assert (Hex : existsb (λ typ, negb (is_optional typ)) (drop (length tokens) (args cmd))
                = true); [|by rewrite Hex in complete].
  apply existsb_exists. exists typ. split; [|by rewrite Ho].
  apply list_elem_of_In, list_elem_of_lookup. exists (i - length tokens).
  rewrite lookup_drop. by replace (length tokens + (i - length tokens)) with i by lia.
Qed.

Lemma readiness c :
  c ∈ registry →
  parsers_agree cmd c = true ∧ (hid c = hid cmd ∨ told_apart cmd c = true).
Proof.
  intros Hc. unfold round_trip_ready in ready. rewrite forallb_forall in ready.
  specialize (ready cmd ltac:(by apply list_elem_of_In)).
  rewrite forallb_forall in ready. specialize (ready c ltac:(by apply list_elem_of_In)).
  apply andb_true_iff in ready as [H1 H2]. split; [done|].
  apply orb_true_iff in H2 as [H2|H2]; [left|by right]. by apply bool_decide_eq_true in H2.
Qed.

(** Two literals that differ cannot both accept the token of [cmd]. *)
Lemma no_difference c j n :
  literals_differ_at c cmd j = true →
  (j < n)%nat → (n ≤ length tokens)%nat →
  live_from 0 (take n tokens) c = true → False.
Proof.
  unfold literals_differ_at. intros Hd Hj Hn Hlive.
  destruct (args c !! j) as [[text| | |]|] eqn:Ec; try done.
  destruct (args cmd !! j) as [[text'| | |]|] eqn:Ecmd; try done.
  destruct (lookup_lt_is_Some_2 tokens j ltac:(lia)) as [arg Harg].
  assert (Hs : stays (0 + j) arg c = true).
  { apply (live_from_stays (take n tokens)); [done|]. by rewrite lookup_take_lt. }
  apply (stays_Literal _ _ _ _ Ec) in Hs.
  pose proof (fits_lookup j _ arg Ecmd Harg) as Hm. simpl in Hm.
  apply negb_true_iff, String.eqb_neq in Hd. congruence.
Qed.

Lemma round_trip_scan : ∃ st, scan api registry tokens = Ok st.
Proof.
  apply scan_from_ok; [done|]. intros i arg c Hi Hc Hlive. simpl in Hc. simpl.
  unfold scan_body. destruct (args c !! i) as [typ|] eqn:Ec;
    [|destruct (ignore_args_size c); by eexists].
  destruct (unwrap_optional typ) as [text|p|[]|ts] eqn:Eu; try by eexists.
  { destruct (String.eqb _ _); by eexists. }
  apply unwrap_optional_Parser in Eu as ->.
  destruct (readiness c Hc) as [Hp _]. unfold parsers_agree in Hp.
  rewrite forallb_forall in Hp.
  pose proof (lookup_lt_Some _ _ _ Hi) as Hlt. pose proof fits_length as Hlen.
  specialize (Hp i ltac:(apply in_seq; lia)). rewrite Ec in Hp.
  apply orb_true_iff in Hp as [Hp|Hp].
  - destruct (args cmd !! i) as [[|q| |]|] eqn:Ecmd; try done.
    apply bool_decide_eq_true in Hp as <-.
    destruct (fits_lookup i _ arg Ecmd Hi) as [v ->]. by eexists.
  - exfalso. apply existsb_exists in Hp as (j & Hj & Hd). apply in_seq in Hj.
    apply (no_difference c j i Hd); [lia|lia|by apply Is_true_true].
Qed.

Lemma round_trip_live : live_from 0 tokens cmd = true.
Proof.
  apply live_from_intro. intros i arg Hi. simpl. unfold stays.
  pose proof (lookup_lt_Some _ _ _ Hi) as Hlt. pose proof fits_length as Hlen.
  destruct (lookup_lt_is_Some_2 (args cmd) i ltac:(lia)) as [typ Ht]. rewrite Ht.
  destruct (unwrap_optional typ) as [text| | |] eqn:Eu; try done.
  apply unwrap_optional_Literal in Eu as ->.
  apply String.eqb_eq. apply (fits_lookup i _ arg Ht Hi).
Qed.

Lemma round_trip_only c :
  c ∈ registry → survives tokens c = true → c = cmd.
Proof.
  intros Hc Hs. destruct (readiness c Hc) as [_ [E|Hapart]].
  { by apply (elem_of_hid_inj registry). }
  exfalso. unfold survives in Hs. apply andb_true_iff in Hs as [Hlive Hmiss].
  apply negb_true_iff in Hmiss. pose proof fits_length as Hlen.
  unfold told_apart in Hapart. apply orb_true_iff in Hapart as [Hd|Hn].
  - apply existsb_exists in Hd as (j & Hj & Hd). apply in_seq in Hj.
    assert (Hjn : (j < length tokens)%nat).
    { unfold literals_differ_at in Hd.
      destruct (args c !! j) as [[text| | |]|]; try done.
      destruct (args cmd !! j) as [[text'| | |]|] eqn:Ecmd; try done.
      by apply (required_within j (Literal text')). }
    apply (no_difference c j (length tokens) Hd); [done|lia|].
    by rewrite firstn_all.
  - rewrite forallb_forall in Hn.
    assert (Hpos : (0 < length tokens)%nat) by (destruct tokens; [done|simpl; lia]).
    specialize (Hn (length tokens) ltac:(apply in_seq; lia)).
    apply negb_true_iff, andb_false_iff in Hn as [Hn|Hn].
    + unfold accepts_length in Hn. unfold missing_required in Hmiss.
      rewrite Hmiss, andb_true_r in Hn. apply orb_false_iff in Hn as [Hn Hign].
      apply Nat.leb_gt in Hn.
      destruct (lookup_lt_is_Some_2 tokens (length (args c)) Hn) as [arg Harg].
      pose proof (live_from_stays tokens 0 _ arg c Hlive Harg) as Hs.
      unfold stays in Hs. simpl in Hs.
      rewrite lookup_ge_None_2 in Hs by done. congruence.
    + unfold accepts_length in Hn. unfold missing_required in complete.
      rewrite complete, andb_true_r in Hn. apply orb_false_iff in Hn as [Hn _].
      apply Nat.leb_gt in Hn. lia.
Qed.

(** The matching phase chooses [cmd] and hands over the values that the
    scan has collected for it. *)
Lemma round_trip_match :
  match_command api registry tokens
  = Ok (cmd, collected_from api tokens 0 tokens cmd).
Proof.
  destruct round_trip_scan as [st Hst].
  rewrite (match_command_spec api registry tokens distinct st nonempty Hst).
  assert (Hcmd : cmd ∈ survivors tokens registry).
  { rewrite survivors_filter. apply list_elem_of_filter. split; [|done].
    unfold survives. rewrite round_trip_live, complete. done. }
  destruct (survivors tokens registry) as [|w ws] eqn:Es; [by apply elem_of_nil in Hcmd|].
  assert (Hw : w ∈ survivors tokens registry) by (rewrite Es; left).
  rewrite survivors_filter in Hw. apply list_elem_of_filter in Hw as [Hw Hin].
  by rewrite (round_trip_only w Hin ltac:(by apply Is_true_true)).
Qed.

End RoundTrip.

Lemma collected_pattern_values api tokens cmd rest : ∀ idx,
  drop idx tokens = rest →
  collected_from api tokens idx rest cmd = pattern_values api (drop idx (args cmd)) rest.
Proof.
  induction rest as [|arg rest IH]; intros idx Hdrop.
  { by destruct (drop idx (args cmd)). }
  assert (Hnext : drop (S idx) tokens = rest).
  { replace (S idx) with (idx + 1) by lia. by rewrite <- drop_drop, Hdrop. }
  simpl collected_from. rewrite (IH (S idx) Hnext). unfold emits, scan_body.
  destruct (args cmd !! idx) as [typ|] eqn:E.
  - rewrite (drop_S _ typ idx E). simpl pattern_values. f_equal.
    destruct (unwrap_optional typ) as [text|p|[]|ts]; simpl; try done.
    + by destruct (String.eqb _ _).
    + by destruct (parse api p arg).
    + by rewrite Hdrop.
    + by rewrite Hdrop.
  - rewrite !drop_ge by (apply lookup_ge_None in E; lia). simpl.
    by destruct (ignore_args_size cmd).
Qed.

Lemma Handler_handlers_ready : round_trip_ready Handler_handlers = true.
Proof. vm_compute. reflexivity. Qed.

Lemma Handler_handlers_parameter_names :
  Forall (λ c, NoDup (pname <$> drop 2 (parameters (handler c)))) Handler_handlers.
Proof. apply (bool_decide_unpack _). vm_compute. exact I. Qed.




(** ** C9: a call leaves the shared list as it was *)

Section Heap.

Variable api : CommandManager.
Variable arguments : list string.
Variable handlers : nat.

Lemma touches_only_refl h : touches_only handlers h h.
Proof. by intros a _ _. Qed.

Lemma touches_only_dom h h' a :
  touches_only handlers h h' → is_Some (h' !! handlers) → a ∈ dom h → a ∈ dom h'.
Proof.
  intros Ht Hh Ha. apply elem_of_dom. destruct (decide (a = handlers)) as [->|Hne]; [done|].
  rewrite (Ht a Ha Hne). by apply elem_of_dom.
Qed.

Lemma touches_only_trans h1 h2 h3 :
  touches_only handlers h1 h2 → is_Some (h2 !! handlers) →
  touches_only handlers h2 h3 → touches_only handlers h1 h3.
Proof.
  intros H12 Hh H23 a Ha Hne. rewrite <- (H12 a Ha Hne). apply H23; [|done].
  by apply (touches_only_dom h1).
Qed.

(** A step of the simulation: the run on the heap continues from the heap
    that the first part has left. *)
Lemma simulates_bind {B} h (r : result ScanState)
    (m : Heaped (gmap nat (list Value)))
    (pure_k : ScanState → result (list Handler * B))
    (k : gmap nat (list Value) → Heaped B) :
  simulates handlers h (scan_outcome r) (m h) →
  (∀ st h', h' !! handlers = Some (st_handlers st) →
            simulates handlers h' (pure_k st) (k (st_args st) h')) →
  simulates handlers h (r ≫= pure_k) (heap_bind m k h).
Proof.
  intros [Ht Hm] Hk. unfold heap_bind. destruct (m h) as [x h'] eqn:E. simpl in *.
  destruct r as [st|e]; simpl in *.
  - destruct Hm as [-> Hl]. destruct (Hk st h' Hl) as [Ht' Hr]. split; [|done].
    apply (touches_only_trans h h'); [done|by eexists|done].
  - destruct Hm as [-> Hs]. by split.
Qed.

Lemma scan_outcome_bind (r : result ScanState) (k : ScanState → result ScanState) :
  scan_outcome (r ≫= k) = r ≫= λ st, scan_outcome (k st).
Proof. by destruct r. Qed.

Lemma scan_cmd_at_simulates idx arg _args cmd h l :
  h !! handlers = Some l →
  simulates handlers h
    (scan_outcome (scan_cmd api arguments idx arg
                     {| st_handlers := l; st_args := _args |} cmd))
    (scan_cmd_at api arguments idx arg handlers _args cmd h).
Proof.
  intros Hl. unfold scan_cmd_at, scan_cmd.
  destruct (scan_body api arguments idx arg cmd) as [[| |v]|e];
    unfold simulates, heap_bind, list_remove_at, heap_ret, heap_raise; simpl.
  - split; [|split; [done|]].
    + intros a _ Hne. by rewrite lookup_alter_ne.
    + by rewrite lookup_alter_eq, Hl.
  - split; [apply touches_only_refl|done].
  - split; [apply touches_only_refl|done].
  - split; [apply touches_only_refl|]. split; [done|by eexists].
Qed.

Lemma scan_position_at_simulates idx arg snapshot : ∀ _args h l,
  h !! handlers = Some l →
  simulates handlers h
    (scan_outcome (scan_position api arguments idx arg snapshot
                     {| st_handlers := l; st_args := _args |}))
    (scan_position_at api arguments idx arg handlers snapshot _args h).
Proof.
  induction snapshot as [|cmd snapshot IH]; intros _args h l Hl; simpl.
  { split; [apply touches_only_refl|done]. }
  rewrite scan_outcome_bind. apply simulates_bind.
  - by apply scan_cmd_at_simulates.
  - intros [l' a'] h' Hl'. by apply IH.
Qed.

Lemma list_new_other (elements : list Handler) h a :
  a ∈ dom h → (list_new elements h).2 !! a = h !! a.
Proof.
  intros Ha. unfold list_new. simpl. apply lookup_insert_ne.
  intros <-. by apply (is_fresh (dom h)).
Qed.

Lemma scan_from_at_simulates rest : ∀ idx _args h l,
  h !! handlers = Some l →
  simulates handlers h
    (scan_outcome (scan_from api arguments idx rest
                     {| st_handlers := l; st_args := _args |}))
    (scan_from_at api arguments idx rest handlers _args h).
Proof.
  induction rest as [|arg rest IH]; intros idx _args h l Hl; simpl.
  { split; [apply touches_only_refl|done]. }
  unfold heap_bind at 1 2 3. unfold list_read at 1. rewrite Hl. simpl.
  set (copy := fresh (dom h)). set (h1 := <[copy := l]> h).
  assert (Hcopy : copy ≠ handlers).
  { intros E. apply (is_fresh (dom h)). fold copy. rewrite E. apply elem_of_dom. by eexists. }
  assert (Hl1 : h1 !! handlers = Some l) by (unfold h1; by rewrite lookup_insert_ne).
  unfold list_read. unfold h1 at 1. rewrite lookup_insert_eq. simpl. fold h1.
  assert (Hh1 : touches_only handlers h h1).
  { intros a Ha _. unfold h1. apply lookup_insert_ne. intros <-.
    by apply (is_fresh (dom h)). }
  assert (Hsim : simulates handlers h1
            (scan_outcome (scan_position api arguments idx arg l
                             {| st_handlers := l; st_args := _args |}
                           ≫= scan_from api arguments (S idx) rest))
            (heap_bind (scan_position_at api arguments idx arg handlers l _args)
               (scan_from_at api arguments (S idx) rest handlers) h1)).
  { rewrite scan_outcome_bind. apply simulates_bind.
    - by apply scan_position_at_simulates.
    - intros [l' a'] h' Hl'. by apply IH. }
  destruct Hsim as [Ht Hr]. split; [|done].
  apply (touches_only_trans h h1); [done|by eexists|done].
Qed.

Lemma arity_check_at_simulates snapshot : ∀ arg_errors h l,
  h !! handlers = Some l →
  simulates handlers h (Ok (arity_check arguments snapshot l arg_errors))
    (arity_check_at arguments handlers snapshot arg_errors h).
Proof.
  induction snapshot as [|cmd snapshot IH]; intros arg_errors h l Hl; simpl.
  { split; [apply touches_only_refl|done]. }
  destruct (missing_required arguments cmd); [|by apply IH].
  unfold heap_bind, list_remove_at.
  assert (Hl' : alter (list_remove cmd) handlers h !! handlers = Some (list_remove cmd l)).
  { by rewrite lookup_alter_eq, Hl. }
  destruct (IH (arg_errors ++ [cmd]) _ _ Hl') as [Ht Hr]. split; [|done].
  apply (touches_only_trans h (alter (list_remove cmd) handlers h)); [|by eexists|done].
  intros a _ Hne. by rewrite lookup_alter_ne.
Qed.

End Heap.

Lemma keeps_new h handlers (l : list Handler) h' :
  handlers = fresh (dom h) →
  touches_only handlers (<[handlers := l]> h) h' → keeps h h'.
Proof.
  intros Hf Ht a Ha.
  assert (Hne : a ≠ handlers).
  { intros ->. rewrite Hf in Ha. by apply (is_fresh (dom h)). }
  rewrite Ht; [by rewrite lookup_insert_ne|apply elem_of_dom|done].
  rewrite lookup_insert_ne by done. by apply elem_of_dom.
Qed.

(** C9.  [get_command], run on a heap in which [Handler.handlers] is the
    list object at some address, returns or raises exactly what the
    function on values does for the elements of that list, and every list
    object that existed before the call, the registered list among them,
    has the same elements after it: the removals go to the copy
    [list(Handler.handlers)], which the call has made itself. *)
Theorem get_command_leaves_registry api Handler_handlers_addr registered ctx h :
  h !! Handler_handlers_addr = Some registered →
  ∃ h',
    get_command_at api Handler_handlers_addr ctx h
    = (get_command api registered ctx, h')
    ∧ h' !! Handler_handlers_addr = Some registered
    ∧ keeps h h'.
Proof.
  intros Hreg.
  assert (Hgoal : ∃ h', get_command_at api Handler_handlers_addr ctx h
                        = (get_command api registered ctx, h') ∧ keeps h h').
  2:{ destruct Hgoal as (h' & Hrun & Hkeeps). exists h'. split_and!; [done| |done].
      rewrite Hkeeps; [done|]. apply elem_of_dom. by eexists. }
  unfold get_command_at, get_command, match_command.
  destruct (arguments ctx) as [|t0 rest] eqn:Hargs.
  { exists h. split; [done|]. by intros a _. }
  rewrite <- Hargs. set (tokens := arguments ctx). clear Hargs t0 rest.
  unfold heap_bind at 1 2 3. unfold list_read at 1. rewrite Hreg. simpl.
  set (handlers := fresh (dom h)). set (h1 := <[handlers := registered]> h).
  unfold list_read at 1. unfold h1 at 1. rewrite lookup_insert_eq. simpl. fold h1.
  assert (Hl1 : h1 !! handlers = Some registered) by apply lookup_insert_eq.
  pose proof (scan_from_at_simulates api tokens handlers tokens 0
                (list_to_map ((λ hdl, (hid hdl, [])) <$> registered)) h1 registered Hl1)
    as [Ht2 Hsim].
  fold (init_state registered) in Hsim. fold (scan api registered tokens) in Hsim.
  unfold heap_bind at 1.
  destruct (scan_from_at api tokens 0 tokens handlers _ h1) as [r h2] eqn:Hrun.
  simpl in Ht2, Hsim.
  destruct (scan api registered tokens) as [st|e]; simpl in Hsim |- *.
  2:{ destruct Hsim as [-> _]. exists h2. split; [done|].
      by apply (keeps_new h handlers registered). }
  destruct Hsim as [-> Hl2].
  unfold heap_bind at 1. unfold list_read at 1. rewrite Hl2. simpl.
  destruct (st_handlers st) as [|c0 cs] eqn:Hst.
  { exists h2. split; [done|]. by apply (keeps_new h handlers registered). }
  rewrite <- Hst in *. clear Hst c0 cs.
  unfold heap_bind at 1 2. simpl.
  set (copy := fresh (dom h2)). set (h3 := <[copy := st_handlers st]> h2).
  assert (Hcopy : copy ≠ handlers).
  { intros E. apply (is_fresh (dom h2)). fold copy. rewrite E. apply elem_of_dom.
    by eexists. }
  unfold list_read at 1. unfold h3 at 1. rewrite lookup_insert_eq. simpl. fold h3.
  assert (Hl3 : h3 !! handlers = Some (st_handlers st)).
  { unfold h3. by rewrite lookup_insert_ne. }
  assert (Ht3 : touches_only handlers h2 h3).
  { intros a Ha _. unfold h3. apply lookup_insert_ne. intros <-.
    by apply (is_fresh (dom h2)). }
  pose proof (arity_check_at_simulates tokens handlers (st_handlers st) [] h3
                (st_handlers st) Hl3) as [Ht4 Hsim].
  unfold heap_bind at 1.
  destruct (arity_check_at tokens handlers (st_handlers st) [] h3) as [r h4] eqn:Hrun4.
  simpl in Ht4, Hsim.
  destruct (arity_check tokens (st_handlers st) (st_handlers st) [])
    as [remaining arg_errors] eqn:Hcheck.
  destruct Hsim as [-> Hl4].
  assert (Hkeeps : keeps h h4).
  { apply (keeps_new h handlers registered); [done|].
    apply (touches_only_trans handlers h1 h2); [done|by eexists|].
    apply (touches_only_trans handlers h2 h3); [done|by eexists|done]. }
  unfold heap_bind, list_read. rewrite Hl4. simpl.
  exists h4. split; [|done].
  destruct remaining as [|cmd remaining].
  - by destruct arg_errors as [|? [|]].
  - simpl. by destruct (get_handler_params ctx (handler cmd) _).
Qed.

Lemma get_command_leaves_registry_witness :
  ∃ h',
    get_command_at api_example 0 (ctx_of ["command"; "ping"; "info"; "now"])
      {[ 0 := Handler_handlers ]}
    = (get_command api_example Handler_handlers
         (ctx_of ["command"; "ping"; "info"; "now"]), h')
    ∧ h' !! 0 = Some Handler_handlers
    ∧ keeps {[ 0 := Handler_handlers ]} h'.
Proof.
  apply (get_command_leaves_registry api_example 0 Handler_handlers
           (ctx_of ["command"; "ping"; "info"; "now"]) {[ 0 := Handler_handlers ]}).
  reflexivity.
Defined.
